(** * Turnish: a shallow embedding of the HTML-to-Markdown engine

    The development follows the TypeScript sources of the repository:
    [utilities.ts] (string helpers, tag tables), [node.ts] (node
    classification), [rules.ts] (rule table and resolution),
    [default-rules.ts] (built-in rules) and [index.ts] (escaping, tree walk,
    join, post-processing, render).

    JavaScript strings are sequences of UTF-16 code units; they are modelled
    as lists of code units, each code unit being a number in [N]. *)

From Stdlib Require Import NArith ZArith Ascii String List Lia.
From stdpp Require Import base option list gmap.

Set Warnings "-register-all".
Local Open Scope N_scope.
Local Open Scope nat_scope.

(** ** JavaScript strings *)

Module JS.

Abbreviation char := N.
Abbreviation jsstring := (list N).

(** An ASCII literal as a JavaScript string. *)
Definition lit (s : string) : jsstring :=
  map N_of_ascii (list_ascii_of_string s).

Definition LF : char := 10%N.
Definition CR : char := 13%N.
Definition TAB : char := 9%N.
Definition SPACE : char := 32%N.
Definition BACKTICK : char := 96%N.
Definition BACKSLASH : char := 92%N.
Definition DQUOTE : char := 34%N.

Definition isChar (c d : char) : bool := N.eqb c d.

(** [\s] of a regular expression, which is also the set of characters
    removed by [String.prototype.trim]: white space and line terminators. *)
Definition isWhiteSpace (c : char) : bool :=
  ((9 <=? c) && (c <=? 13) || (c =? 32) || (c =? 160) || (c =? 0x1680)
   || (0x2000 <=? c) && (c <=? 0x200a)
   || (c =? 0x2028) || (c =? 0x2029) || (c =? 0x202f) || (c =? 0x205f)
   || (c =? 0x3000) || (c =? 0xfeff))%N.

(** Line terminators: after one of them [^] matches under the [m] flag, and
    [.] does not match them. *)
Definition isLineTerminator (c : char) : bool :=
  ((c =? 10) || (c =? 13) || (c =? 0x2028) || (c =? 0x2029))%N.

(** [[ \t\r\n]] *)
Definition isAsciiWhiteSpace (c : char) : bool :=
  ((c =? 32) || (c =? 9) || (c =? 13) || (c =? 10))%N.

(** [\d] *)
Definition isDigit (c : char) : bool := ((48 <=? c) && (c <=? 57))%N.

(** [s.replace(/^[set]*/, '')]: the leading run of characters of the set is
    removed. *)
Fixpoint dropWhile (p : char -> bool) (s : jsstring) : jsstring :=
  match s with
  | [] => []
  | c :: s' => if p c then dropWhile p s' else s
  end.

Fixpoint takeWhile (p : char -> bool) (s : jsstring) : jsstring :=
  match s with
  | [] => []
  | c :: s' => if p c then c :: takeWhile p s' else []
  end.

(** [s.replace(/[set]+$/, '')]: the match is the leftmost position from
    which only characters of the set follow up to the end, that is the
    whole trailing run. *)
Definition dropWhileEnd (p : char -> bool) (s : jsstring) : jsstring :=
  rev (dropWhile p (rev s)).

(** [String.prototype.trim] *)
Definition trim (s : jsstring) : jsstring :=
  dropWhileEnd isWhiteSpace (dropWhile isWhiteSpace s).

(** [s.substring(0, n)] for a non-negative [n]. *)
Definition substring0 (n : nat) (s : jsstring) : jsstring := take n s.

(** [c.repeat(n)] and [repeat(c, n)] of utilities.ts for a one-character
    string. *)
Definition repeatChar (c : char) (n : nat) : jsstring := replicate n c.

(** [s.repeat(n)] *)
Fixpoint repeatString (s : jsstring) (n : nat) : jsstring :=
  match n with
  | 0 => []
  | S n' => s ++ repeatString s n'
  end.

Definition eqb (s t : jsstring) : bool := bool_decide (s = t).

(** [s.replace(/c/g, r)] for a single character [c]. *)
Fixpoint replaceChar (c : char) (r : jsstring) (s : jsstring) : jsstring :=
  match s with
  | [] => []
  | d :: s' => (if isChar d c then r else [d]) ++ replaceChar c r s'
  end.

Definition startsWith (p s : jsstring) : bool :=
  bool_decide (take (length p) s = p).

(** Decimal form of a natural number, as [String(n)] gives it. *)
Fixpoint digits (fuel n : nat) (acc : jsstring) : jsstring :=
  match fuel with
  | 0 => acc
  | S fuel' =>
      let acc' := N.of_nat (48 + n mod 10) :: acc in
      if n / 10 =? 0 then acc' else digits fuel' (n / 10) acc'
  end.
Definition ofNat (n : nat) : jsstring := digits (S n) n [].

End JS.

Import JS.

(** ** utilities.ts *)

Definition trimLeadingNewlines (s : jsstring) : jsstring :=
  dropWhile (isChar LF) s.

(** The loop [while (indexEnd > 0 && string[indexEnd - 1] === '\n') indexEnd--]. *)
Fixpoint trailingNewlinesIndex (s : jsstring) (indexEnd : nat) : nat :=
  match indexEnd with
  | 0 => 0
  | S i =>
      match s !! i with
      | Some c => if isChar c LF then trailingNewlinesIndex s i else indexEnd
      | None => indexEnd
      end
  end.

Definition trimTrailingNewlines (s : jsstring) : jsstring :=
  substring0 (trailingNewlinesIndex s (length s)) s.

Definition trimNewlines (s : jsstring) : jsstring :=
  trimTrailingNewlines (trimLeadingNewlines s).

(** ** index.ts: join *)

Definition join (output replacement : jsstring) : jsstring :=
  let s1 := trimTrailingNewlines output in
  let s2 := trimLeadingNewlines replacement in
  let nls := Nat.max (length output - length s1)
                     (length replacement - length s2) in
  let separator := substring0 nls [LF; LF] in
  s1 ++ separator ++ s2.

(** ** The document tree

    The engine only reads the tree produced by the external parser.  A node is
    a text node (nodeType 3), a comment (nodeType 8) or an element
    (nodeType 1) with its tag name, its attributes in order and its children
    in document order.  The root handed to the walk is represented as an
    element as well: of a root only the name and the children are read. *)

Inductive Node :=
| Text (nodeValue : jsstring)
| Comment (nodeValue : jsstring)
| Element (nodeName : jsstring) (attributes : list (jsstring * jsstring))
          (childNodes : list Node).

(** A node together with the way up to the root: the code reaches the parent
    and the siblings of a node through [parentNode], [previousSibling] and
    [nextSibling]. *)
Record Frame := {
  parentName : jsstring;
  parentAttributes : list (jsstring * jsstring);
  before : list Node;   (* previous siblings, the nearest first *)
  after : list Node     (* next siblings, the nearest first *)
}.

Record Located := { self : Node; ancestors : list Frame }.

Module NodeTypes.
Definition Element : N := 1.
Definition Text : N := 3.
Definition CDATASection : N := 4.
Definition Comment : N := 8.
End NodeTypes.

Definition nodeType (n : Node) : N :=
  match n with
  | Text _ => NodeTypes.Text
  | Comment _ => NodeTypes.Comment
  | Element _ _ _ => NodeTypes.Element
  end.

Definition nodeName (n : Node) : jsstring :=
  match n with
  | Text _ => lit "#text"
  | Comment _ => lit "#comment"
  | Element name _ _ => name
  end.

Definition nodeValue (n : Node) : option jsstring :=
  match n with
  | Text v | Comment v => Some v
  | Element _ _ _ => None
  end.

Definition attributes (n : Node) : list (jsstring * jsstring) :=
  match n with
  | Element _ attrs _ => attrs
  | _ => []
  end.

Definition childNodes (n : Node) : list Node :=
  match n with
  | Element _ _ kids => kids
  | _ => []
  end.

Definition firstChild (n : Node) : option Node := head (childNodes n).

Definition isElement (n : Node) : bool :=
  match n with Element _ _ _ => true | _ => false end.

(** [parent.children]: the element children. *)
Definition children (n : Node) : list Node := List.filter isElement (childNodes n).

Definition lastElementChild (n : Node) : option Node := last (children n).

(** [getAttribute(name)]: [None] stands for [null]. *)
Fixpoint getAttribute (name : jsstring) (attrs : list (jsstring * jsstring))
  : option jsstring :=
  match attrs with
  | [] => None
  | (k, v) :: rest => if JS.eqb k name then Some v else getAttribute name rest
  end.

(** [textContent]: the data of a text or comment node; for an element the
    concatenated text of its descendants, comments left out. *)
Fixpoint descendantText (n : Node) : jsstring :=
  match n with
  | Text v => v
  | Comment _ => []
  | Element _ _ kids =>
      (fix all (l : list Node) : jsstring :=
         match l with
         | [] => []
         | k :: l' => descendantText k ++ all l'
         end) kids
  end.

Definition textContent (n : Node) : jsstring :=
  match n with
  | Comment v => v
  | _ => descendantText n
  end.

(** [getElementsByTagName(tagName).length]: the number of descendant
    elements of that name. *)
Fixpoint countDescendants (tagName : jsstring) (n : Node) : nat :=
  match n with
  | Element _ _ kids =>
      (fix all (l : list Node) : nat :=
         match l with
         | [] => 0
         | k :: l' =>
             (if isElement k && JS.eqb (nodeName k) tagName then 1 else 0)
             + countDescendants tagName k + all l'
         end) kids
  | _ => 0
  end.

Definition parentNode (n : Located) : option Located :=
  match ancestors n with
  | [] => None
  | f :: up =>
      Some {| self := Element (parentName f) (parentAttributes f)
                              (rev (before f) ++ self n :: after f);
              ancestors := up |}
  end.

Definition previousSibling (n : Located) : option Located :=
  match ancestors n with
  | {| parentName := pn; parentAttributes := pa;
       before := p :: earlier; after := later |} :: up =>
      Some {| self := p;
              ancestors := {| parentName := pn; parentAttributes := pa;
                              before := earlier;
                              after := self n :: later |} :: up |}
  | _ => None
  end.

Definition nextSibling (n : Located) : option Located :=
  match ancestors n with
  | {| parentName := pn; parentAttributes := pa;
       before := earlier; after := x :: later |} :: up =>
      Some {| self := x;
              ancestors := {| parentName := pn; parentAttributes := pa;
                              before := self n :: earlier;
                              after := later |} :: up |}
  | _ => None
  end.

(** The name of the parent, when there is one. *)
Definition parentNodeName (n : Located) : option jsstring :=
  parentName <$> head (ancestors n).

(** ** node.ts and index.ts: classified nodes and options *)

Record FlankingWhitespace := { leading : jsstring; trailing : jsstring }.

Record ExtendedNode := {
  located : Located;
  isBlock : bool;
  isCode : bool;
  isBlank : bool;
  flankingWhitespace : FlankingWhitespace
}.

Inductive HeadingStyle := setext | atx.
Inductive ListItemIndent := tab | space.
Inductive CodeBlockStyle := indented | fenced.
Inductive LinkStyle := inlined | referenced.
Inductive LinkReferenceStyle := full | collapsed | shortcut.
Inductive LinkReferenceDeduplication := dedupNone | dedupFull.
Inductive HtmlRetentionMode := standard | preserveAll | markdownIncludingHtml.

(** [TurnishOptions].  The [rules] entry is given to the rule table
    separately, see [newRules]. *)
Record Options := {
  headingStyle : HeadingStyle;
  hr : jsstring;
  bulletListMarker : jsstring;
  listMarkerSpaceCount : nat;
  listItemIndent : ListItemIndent;
  listItemIndentSpaceCount : nat;
  codeBlockStyle : CodeBlockStyle;
  fence : jsstring;
  emDelimiter : jsstring;
  strongDelimiter : jsstring;
  linkStyle : LinkStyle;
  linkReferenceStyle : LinkReferenceStyle;
  linkReferenceDeduplication : LinkReferenceDeduplication;
  br : jsstring;
  preformattedCode : bool;
  htmlRetentionMode : HtmlRetentionMode;
  blankReplacement : jsstring -> ExtendedNode -> jsstring;
  keepReplacement : jsstring -> ExtendedNode -> jsstring;
  markdownIncludingHtmlReplacement : jsstring -> ExtendedNode -> jsstring;
  defaultReplacement : jsstring -> ExtendedNode -> jsstring
}.

(** ** utilities.ts: tag tables *)

Definition blockElements : list jsstring := map lit [
  "ADDRESS"; "ARTICLE"; "ASIDE"; "AUDIO"; "BLOCKQUOTE"; "BODY"; "CANVAS";
  "CENTER"; "DD"; "DIR"; "DIV"; "DL"; "DT"; "FIELDSET"; "FIGCAPTION"; "FIGURE";
  "FOOTER"; "FORM"; "FRAMESET"; "H1"; "H2"; "H3"; "H4"; "H5"; "H6"; "HEADER";
  "HGROUP"; "HR"; "HTML"; "ISINDEX"; "LI"; "MAIN"; "MENU"; "NAV"; "NOFRAMES";
  "NOSCRIPT"; "OL"; "OUTPUT"; "P"; "PRE"; "SECTION"; "TABLE"; "TBODY"; "TD";
  "TFOOT"; "TH"; "THEAD"; "TR"; "UL"
]%string.

Definition voidElements : list jsstring := map lit [
  "AREA"; "BASE"; "BR"; "COL"; "COMMAND"; "EMBED"; "HR"; "IMG"; "INPUT";
  "KEYGEN"; "LINK"; "META"; "PARAM"; "SOURCE"; "TRACK"; "WBR"
]%string.

Definition meaningfulWhenBlankElements : list jsstring := map lit [
  "A"; "TABLE"; "THEAD"; "TBODY"; "TFOOT"; "TH"; "TD"; "IFRAME"; "SCRIPT";
  "AUDIO"; "VIDEO"
]%string.

Definition standardMarkdownElements : list jsstring := map lit [
  "P"; "BR"; "H1"; "H2"; "H3"; "H4"; "H5"; "H6"; "BLOCKQUOTE";
  "UL"; "OL"; "LI"; "PRE"; "CODE"; "HR"; "A"; "EM"; "I"; "STRONG";
  "B"; "IMG"; "DIV"; "SPAN"; "TABLE"; "THEAD"; "TBODY"; "TR"; "TH"; "TD"
]%string.

(** [array.indexOf(x) >= 0] *)
Definition includes (x : jsstring) (l : list jsstring) : bool :=
  existsb (JS.eqb x) l.

(** [is(node, tagNames)] *)
Definition isOneOf (n : Node) (tagNames : list jsstring) : bool :=
  includes (nodeName n) tagNames.

(** [has(node, tagNames)] *)
Definition hasOneOf (n : Node) (tagNames : list jsstring) : bool :=
  existsb (fun tagName =>
             if negb (N.eqb (nodeType n) NodeTypes.Element) then false
             else negb (countDescendants tagName n =? 0))
          tagNames.

(** [isBlock(node)]; [isBlock] names the field of a classified node here. *)
Definition isBlockNode (n : Node) : bool := isOneOf n blockElements.
Definition isVoid (n : Node) : bool := isOneOf n voidElements.
Definition hasVoid (n : Node) : bool := hasOneOf n voidElements.
Definition isMeaningfulWhenBlank (n : Node) : bool :=
  isOneOf n meaningfulWhenBlankElements.
Definition hasMeaningfulWhenBlank (n : Node) : bool :=
  hasOneOf n meaningfulWhenBlankElements.

(** [string.replace(re, '\n')] where [re], with the flag [g], is a group
    repeated once or more of: newlines (one or more), then white space [\s]
    (any number).  Every maximal stretch that starts with a newline and goes
    on with white space becomes one newline. *)
Fixpoint sanitizeWhitespaceFrom (inMatch : bool) (s : jsstring) : jsstring :=
  match s with
  | [] => []
  | c :: s' =>
      if isChar c LF then
        (if inMatch then [] else [LF]) ++ sanitizeWhitespaceFrom true s'
      else if inMatch && isWhiteSpace c then sanitizeWhitespaceFrom true s'
      else c :: sanitizeWhitespaceFrom false s'
  end.

Definition sanitizeWhitespace (s : jsstring) : jsstring :=
  sanitizeWhitespaceFrom false s.

Definition isTabCrLf (c : char) : bool :=
  ((c =? 9) || (c =? 13) || (c =? 10))%N.

(** [s.replace(/[\t\r\n]+/g, ' ')] *)
Fixpoint collapseTabCrLfFrom (inMatch : bool) (s : jsstring) : jsstring :=
  match s with
  | [] => []
  | c :: s' =>
      if isTabCrLf c then
        (if inMatch then [] else [SPACE]) ++ collapseTabCrLfFrom true s'
      else c :: collapseTabCrLfFrom false s'
  end.

Definition collapseTabCrLf (s : jsstring) : jsstring :=
  collapseTabCrLfFrom false s.

Definition sanitizedLinkTitle (content : jsstring) : jsstring :=
  collapseTabCrLf (sanitizeWhitespace content).

(** ** node.ts *)

(** [/^\s*$/.test(s)] *)
Definition isWhiteSpaceOnly (s : jsstring) : bool := forallb isWhiteSpace s.

(** [isBlank(node)] *)
Definition isBlankNode (n : Node) : bool :=
  negb (isVoid n) &&
  negb (isMeaningfulWhenBlank n) &&
  isWhiteSpaceOnly (textContent n) &&
  negb (hasVoid n) &&
  negb (hasMeaningfulWhenBlank n).

Record EdgeWhitespace := {
  edgeLeading : jsstring;
  leadingAscii : jsstring;
  leadingNonAscii : jsstring;
  edgeTrailing : jsstring;
  trailingNonAscii : jsstring;
  trailingAscii : jsstring
}.

(** The match of the pattern of [edgeWhitespace], anchored at both ends:
    group 1 is made of group 2, ASCII white space [[ \t\r\n]] taken
    greedily, and group 3, white space [\s] taken greedily; an optional
    middle starts at a character that is not white space and ends at one;
    group 4 is made of group 5, white space taken lazily, and group 6, ASCII
    white space taken greedily up to the end.  So group 2 is the longest prefix of ASCII white space, group 3 the rest of
    the leading white space; when a character that is not white space follows,
    the middle runs up to the last such character, and of the trailing white
    space group 6 is the longest suffix of ASCII white space and group 5 what
    precedes it.  The pattern matches every string. *)
Definition edgeWhitespace (s : jsstring) : EdgeWhitespace :=
  let lead := takeWhile isWhiteSpace s in
  let rest := dropWhile isWhiteSpace s in
  let trail := rev (takeWhile isWhiteSpace (rev rest)) in
  let trailAscii := rev (takeWhile isAsciiWhiteSpace (rev trail)) in
  {| edgeLeading := lead;
     leadingAscii := takeWhile isAsciiWhiteSpace lead;
     leadingNonAscii := dropWhile isAsciiWhiteSpace lead;
     edgeTrailing := trail;
     trailingNonAscii := take (length trail - length trailAscii) trail;
     trailingAscii := trailAscii |}.

Inductive Side := onLeft | onRight.

Definition endsWithSpace (s : jsstring) : bool :=
  match last s with Some c => isChar c SPACE | None => false end.

Definition startsWithSpace (s : jsstring) : bool :=
  match s with c :: _ => isChar c SPACE | [] => false end.

Definition isFlankedByWhitespace (side : Side) (n : Located)
    (preformatted : bool) : bool :=
  let sibling :=
    match side with onLeft => previousSibling n | onRight => nextSibling n end in
  let regExp :=
    match side with onLeft => endsWithSpace | onRight => startsWithSpace end in
  match sibling with
  | Some sib =>
      if N.eqb (nodeType (self sib)) 3 then
        regExp (default [] (nodeValue (self sib)))
      else if preformatted && JS.eqb (nodeName (self sib)) (lit "CODE") then
        false
      else if N.eqb (nodeType (self sib)) 1 && negb (isBlockNode (self sib)) then
        regExp (textContent (self sib))
      else false
  | None => false
  end.

Definition nonEmpty (s : jsstring) : bool :=
  match s with [] => false | _ => true end.

(** [flankingWhitespace(node, options)] *)
Definition computeFlankingWhitespace (n : Located) (block code : bool)
    (preformatted : bool) : FlankingWhitespace :=
  if block || (preformatted && code) then {| leading := []; trailing := [] |}
  else
    let edges := edgeWhitespace (textContent (self n)) in
    let lead :=
      if nonEmpty (leadingAscii edges) && isFlankedByWhitespace onLeft n preformatted
      then leadingNonAscii edges else edgeLeading edges in
    let trail :=
      if nonEmpty (trailingAscii edges) && isFlankedByWhitespace onRight n preformatted
      then trailingNonAscii edges else edgeTrailing edges in
    {| leading := lead; trailing := trail |}.

(** [ExtendedNode(node, options)].  The field [isCode] of the parent was set
    when the parent was classified; it is [parentIsCode] here. *)
Definition extend (n : Located) (parentIsCode : bool) (options : Options)
  : ExtendedNode :=
  let block := isBlockNode (self n) in
  let code := JS.eqb (nodeName (self n)) (lit "CODE") || parentIsCode in
  {| located := n;
     isBlock := block;
     isCode := code;
     isBlank := isBlankNode (self n);
     flankingWhitespace :=
       computeFlankingWhitespace n block code (preformattedCode options) |}.

(** ** rules.ts *)

(** The accumulator of the reference-link rule: the pending reference
    definitions in insertion order and the map from [href + title] to the
    assigned id. *)
Record ReferenceState := {
  references : list jsstring;
  urlReferenceIdMap : gmap jsstring nat
}.

Definition emptyReferences : ReferenceState :=
  {| references := []; urlReferenceIdMap := ∅ |}.

(** What is thrown: a [TypeError] or [SyntaxError] of the engine or of the
    language, or anything else that code outside this development throws,
    by its description. *)
Inductive Error :=
| TypeError (message : jsstring)
| SyntaxError (message : jsstring)
| OtherThrown (description : jsstring).

Inductive Completion (A : Type) :=
| Normal (a : A)
| Throw (e : Error).
Arguments Normal {A} a.
Arguments Throw {A} e.

(** Computations of the engine: they read and update the accumulator and
    either return or throw; what was written before a throw stays written. *)
Definition M (A : Type) : Type := ReferenceState -> Completion A * ReferenceState.

Definition ret {A} (a : A) : M A := fun st => (Normal a, st).
Definition throw {A} (e : Error) : M A := fun st => (Throw e, st).
Definition lift {A} (c : Completion A) : M A := fun st => (c, st).
Definition bind {A B} (m : M A) (k : A -> M B) : M B :=
  fun st =>
    match m st with
    | (Normal a, st') => k a st'
    | (Throw e, st') => (Throw e, st')
    end.

Notation "'do' x <- m ; k" := (bind m (fun x => k))
  (at level 10, x name, m at level 100, k at level 200).

Inductive RuleFilter :=
| FilterString (tag : jsstring)
| FilterArray (tags : list jsstring)
| FilterFunction (f : ExtendedNode -> Options -> bool).

(** [filter] is [None] when the rule has no filter, or one that is neither a
    string, an array nor a function. *)
Record Rule := {
  filter : option RuleFilter;
  replacement : jsstring -> ExtendedNode -> Options -> M jsstring;
  append : option (Options -> M jsstring)
}.

(** A replacement function without effects. *)
Definition pure (f : jsstring -> ExtendedNode -> jsstring)
  : jsstring -> ExtendedNode -> Options -> M jsstring :=
  fun content node _ => ret (f content node).

(** [String.prototype.toLowerCase] on strings of ASCII code units, where
    the letters A to Z change and nothing else.  Code units beyond ASCII are
    left as they are here; the function of the source changes letters among
    them too, so the model is the source on ASCII names only. *)
Definition toLowerCase (s : jsstring) : jsstring :=
  map (fun c => if ((65 <=? c) && (c <=? 90))%N then (c + 32)%N else c) s.

Definition filterValue (rule : Rule) (node : ExtendedNode) (options : Options)
  : Completion bool :=
  match filter rule with
  | Some (FilterString tag) =>
      Normal (JS.eqb tag (toLowerCase (nodeName (self (located node)))))
  | Some (FilterArray tags) =>
      Normal (includes (toLowerCase (nodeName (self (located node)))) tags)
  | Some (FilterFunction f) => Normal (f node options)
  | None =>
      Throw (TypeError (lit "`filter` needs to be a string, array, or function"))
  end.

Fixpoint findRule (rules : list Rule) (node : ExtendedNode) (options : Options)
  : Completion (option Rule) :=
  match rules with
  | [] => Normal None
  | rule :: rest =>
      match filterValue rule node options with
      | Normal true => Normal (Some rule)
      | Normal false => findRule rest node options
      | Throw e => Throw e
      end
  end.

Record Rules := {
  options : Options;
  _keep : list Rule;
  _remove : list Rule;
  blankRule : Rule;
  rulesKeepReplacement : jsstring -> ExtendedNode -> jsstring;
  rulesMarkdownIncludingHtmlReplacement : jsstring -> ExtendedNode -> jsstring;
  defaultRule : Rule;
  array : list Rule
}.

Definition withArray (r : Rules) (a : list Rule) : Rules :=
  {| options := options r; _keep := _keep r; _remove := _remove r;
     blankRule := blankRule r;
     rulesKeepReplacement := rulesKeepReplacement r;
     rulesMarkdownIncludingHtmlReplacement :=
       rulesMarkdownIncludingHtmlReplacement r;
     defaultRule := defaultRule r; array := a |}.

Definition withKeep (r : Rules) (k : list Rule) : Rules :=
  {| options := options r; _keep := k; _remove := _remove r;
     blankRule := blankRule r;
     rulesKeepReplacement := rulesKeepReplacement r;
     rulesMarkdownIncludingHtmlReplacement :=
       rulesMarkdownIncludingHtmlReplacement r;
     defaultRule := defaultRule r; array := array r |}.

Definition withRemove (r : Rules) (k : list Rule) : Rules :=
  {| options := options r; _keep := _keep r; _remove := k;
     blankRule := blankRule r;
     rulesKeepReplacement := rulesKeepReplacement r;
     rulesMarkdownIncludingHtmlReplacement :=
       rulesMarkdownIncludingHtmlReplacement r;
     defaultRule := defaultRule r; array := array r |}.

(** [this.array.unshift(rule)] *)
Definition add (key : jsstring) (rule : Rule) (r : Rules) : Rules :=
  withArray r (rule :: array r).

Definition keep (f : RuleFilter) (r : Rules) : Rules :=
  withKeep r ({| filter := Some f;
                 replacement := pure (rulesKeepReplacement r);
                 append := None |} :: _keep r).

Definition remove (f : RuleFilter) (r : Rules) : Rules :=
  withRemove r ({| filter := Some f;
                   replacement := pure (fun _ _ => []);
                   append := None |} :: _remove r).

(** [for (...) if (attrName !== allowed...) return true]: some attribute name,
    lower-cased, is outside the allowed ones. *)
Definition hasAttributeOutside (allowed : list jsstring)
    (attrs : list (jsstring * jsstring)) : bool :=
  existsb (fun a => negb (includes (toLowerCase (fst a)) allowed)) attrs.

Definition isUnsupportedElement (node : ExtendedNode) : bool :=
  let n := self (located node) in
  let name := nodeName n in
  let preCode :=
    JS.eqb name (lit "PRE") &&
    match firstChild n with
    | Some child =>
        JS.eqb (nodeName child) (lit "CODE") &&
        hasAttributeOutside [lit "class"] (attributes child)
    | None => false
    end in
  if preCode then true
  else
    let standardName := negb (includes name standardMarkdownElements) in
    match attributes n with
    | [] => standardName
    | attrs =>
        if JS.eqb name (lit "IMG") then
          hasAttributeOutside [lit "src"; lit "alt"; lit "title"] attrs
        else if JS.eqb name (lit "A") then
          hasAttributeOutside [lit "href"; lit "title"] attrs
        else if JS.eqb name (lit "CODE") then
          match parentNodeName (located node) with
          | Some p =>
              if JS.eqb p (lit "PRE") then
                hasAttributeOutside [lit "class"] attrs
              else true
          | None => true
          end
        else true
    end.

Definition forNode (r : Rules) (node : ExtendedNode) : Completion Rule :=
  if isBlank node then Normal (blankRule r)
  else if match htmlRetentionMode (options r) with preserveAll => true | _ => false end
          && isUnsupportedElement node then
    Normal {| filter := None;
              replacement := pure (rulesKeepReplacement r);
              append := None |}
  else if match htmlRetentionMode (options r) with
          | markdownIncludingHtml => true | _ => false end
          && isUnsupportedElement node then
    Normal {| filter := None;
              replacement := pure (rulesMarkdownIncludingHtmlReplacement r);
              append := None |}
  else
    match findRule (array r) node (options r) with
    | Throw e => Throw e
    | Normal (Some rule) => Normal rule
    | Normal None =>
        match findRule (_keep r) node (options r) with
        | Throw e => Throw e
        | Normal (Some rule) => Normal rule
        | Normal None =>
            match findRule (_remove r) node (options r) with
            | Throw e => Throw e
            | Normal (Some rule) => Normal rule
            | Normal None => Normal (defaultRule r)
            end
        end
    end.

(** ** default-rules.ts *)

Definition nodeIs (name : string) (node : ExtendedNode) : bool :=
  JS.eqb (nodeName (self (located node))) (lit name).

Definition paragraph : Rule :=
  {| filter := Some (FilterString (lit "p"));
     replacement := pure (fun content _ => [LF; LF] ++ content ++ [LF; LF]);
     append := None |}.

(** *** Fenced code blocks *)

(** The length of the run of [c] at the start of [s]. *)
Definition runLength (c : char) (s : jsstring) : nat :=
  length (takeWhile (isChar c) s).

(** What [new RegExp('^' + fenceChar + '{3,}', 'gm')] looks for behind the
    [^], by the fence character it is built from: a character that stands for
    itself gives three or more of that character; [.] gives three or more
    characters other than line terminators; a backslash escapes the brace,
    so that the text [{3,}] itself is looked for; with one of the characters
    [^ $ * + ? ( ) [ |] the pattern is not well formed and the constructor
    throws. *)
Inductive FencePattern :=
| RunOf (c : char)
| RunOfAny
| BraceText
| Malformed.

Definition fencePattern (fenceChar : char) : FencePattern :=
  if existsb (N.eqb fenceChar) (lit "^$*+?()[|") then Malformed
  else if isChar fenceChar 46%N then RunOfAny
  else if isChar fenceChar BACKSLASH then BraceText
  else RunOf fenceChar.

(** The length of the match of the pattern at the start of [s]; 0 when there
    is none.  The repetition is greedy. *)
Definition matchLength (p : FencePattern) (s : jsstring) : nat :=
  match p with
  | RunOf c => if 3 <=? runLength c s then runLength c s else 0
  | RunOfAny =>
      let k := length (takeWhile (fun d => negb (isLineTerminator d)) s) in
      if 3 <=? k then k else 0
  | BraceText => if startsWith (lit "{3,}") s then 4 else 0
  | Malformed => 0
  end.

(** The lengths of the successive matches, as the loop over [exec] sees
    them.  A match begins where the previous character is a line terminator
    (or at the start of the input), and the search goes on behind the match.
    [prevLT] tells that the search position follows a line terminator or is
    the start; [inside] counts the characters of the current match that are
    still to be passed. *)
Fixpoint fenceMatches (p : FencePattern) (prevLT : bool) (inside : nat)
    (s : jsstring) : list nat :=
  match s with
  | [] => []
  | d :: s' =>
      match inside with
      | S k => fenceMatches p (isLineTerminator d) k s'
      | 0 =>
          if prevLT && negb (matchLength p s =? 0) then
            matchLength p s
              :: fenceMatches p (isLineTerminator d) (matchLength p s - 1) s'
          else fenceMatches p (isLineTerminator d) 0 s'
      end
  end.

(** The loop
    [while ((match = fenceInCodeRegex.exec(code)))
       if (match[0].length >= fenceSize) fenceSize = match[0].length + 1]. *)
Definition fenceSizeFor (p : FencePattern) (code : jsstring) : nat :=
  fold_left (fun fenceSize len => if fenceSize <=? len then len + 1 else fenceSize)
            (fenceMatches p true 0 code) 3.

(** Group 1 of the first match of [/(?:lang|language)-(\S+)/], or [''] . *)
Fixpoint languageOf (className : jsstring) : jsstring :=
  match className with
  | [] => []
  | _ :: rest =>
      let after (prefix : jsstring) :=
        if startsWith prefix className then
          takeWhile (fun c => negb (isWhiteSpace c))
                    (drop (length prefix) className)
        else [] in
      if nonEmpty (after (lit "lang-")) then after (lit "lang-")
      else if nonEmpty (after (lit "language-")) then after (lit "language-")
      else languageOf rest
  end.

(** [code.replace(/\n$/, '')] *)
Definition dropFinalNewline (code : jsstring) : jsstring :=
  match last code with
  | Some c => if isChar c LF then take (length code - 1) code else code
  | None => code
  end.

(** The element that holds the code: the first child of the [pre] when it is
    a [code] element, the [pre] itself otherwise. *)
Definition codeElemOf (preNode : Node) : Node :=
  match firstChild preNode with
  | Some child =>
      if JS.eqb (nodeName child) (lit "CODE") then child else preNode
  | None => preNode
  end.

(** [options.fence?.charAt(0) || '`'] *)
Definition fenceCharOf (options : Options) : char :=
  match fence options with c :: _ => c | [] => BACKTICK end.

(** The replacement of [fencedCodeBlock]. *)
Definition fencedCodeBlockReplacement (node : ExtendedNode) (options : Options)
  : Completion jsstring :=
  let preNode := self (located node) in
  let codeElem := codeElemOf preNode in
  let className := default [] (getAttribute (lit "class") (attributes codeElem)) in
  let language := languageOf className in
  let code := textContent codeElem in
  let fenceChar := fenceCharOf options in
  match fencePattern fenceChar with
  | Malformed => Throw (SyntaxError (lit "Invalid regular expression"))
  | pattern =>
      let fenceSize := fenceSizeFor pattern code in
      let fence := repeatChar fenceChar fenceSize in
      Normal ([LF; LF] ++ fence ++ language ++ [LF] ++
              dropFinalNewline code ++
              [LF] ++ fence ++ [LF; LF])
  end.

Definition fencedCodeBlock : Rule :=
  {| filter := Some (FilterFunction (fun node options =>
                 match codeBlockStyle options with
                 | fenced => nodeIs "PRE" node
                 | indented => false
                 end));
     replacement := fun _ node options =>
       lift (fencedCodeBlockReplacement node options);
     append := None |}.

(** *** Reference links *)

Definition isTruthy (s : option jsstring) : bool :=
  match s with Some (_ :: _) => true | _ => false end.

(** A value that may be [null], as string concatenation shows it. *)
Definition orNull (s : option jsstring) : jsstring := default (lit "null") s.

Definition referenceLinkFilter (node : ExtendedNode) (options : Options) : bool :=
  match linkStyle options with
  | referenced =>
      nodeIs "A" node &&
      isTruthy (getAttribute (lit "href") (attributes (self (located node))))
  | inlined => false
  end.

(** [references.join('\n')] *)
Fixpoint joinLines (l : list jsstring) : jsstring :=
  match l with
  | [] => []
  | [x] => x
  | x :: rest => x ++ [LF] ++ joinLines rest
  end.

Definition referenceLinkReplacement (content : jsstring) (node : ExtendedNode)
    (options : Options) : M jsstring :=
  fun self_ =>
    let attrs := attributes (self (located node)) in
    let href := orNull (getAttribute (lit "href") attrs) in
    let titleAttr := getAttribute (lit "title") attrs in
    let title :=
      if isTruthy titleAttr then
        lit " " ++ [DQUOTE] ++ sanitizedLinkTitle (default [] titleAttr) ++ [DQUOTE]
      else [] in
    let referenceKey := href ++ title in
    (* the switch *)
    let '(replacement, reference, self1) :=
      match linkReferenceStyle options with
      | collapsed =>
          (lit "[" ++ content ++ lit "][]",
           lit "[" ++ content ++ lit "]: " ++ referenceKey,
           self_)
      | shortcut =>
          (lit "[" ++ content ++ lit "]",
           lit "[" ++ content ++ lit "]: " ++ referenceKey,
           self_)
      | full =>
          let existingKey := urlReferenceIdMap self_ !! referenceKey in
          let reuse :=
            match linkReferenceDeduplication options, existingKey with
            | dedupFull, Some (S k) => Some (S k)
            | _, _ => None
            end in
          match reuse with
          | Some id =>
              let reference := lit "[" ++ ofNat id ++ lit "]: " ++ href ++ title in
              (lit "[" ++ content ++ lit "][" ++ ofNat id ++ lit "]",
               reference, self_)
          | None =>
              let id := length (references self_) + 1 in
              let reference := lit "[" ++ ofNat id ++ lit "]: " ++ href ++ title in
              (lit "[" ++ content ++ lit "][" ++ ofNat id ++ lit "]",
               reference,
               {| references := references self_ ++ [reference];
                  urlReferenceIdMap := <[referenceKey := id]> (urlReferenceIdMap self_) |})
          end
      end in
    let self2 :=
      match linkReferenceStyle options with
      | full => self1
      | _ =>
          match linkReferenceDeduplication options with
          | dedupFull =>
              match urlReferenceIdMap self1 !! referenceKey with
              | None =>
                  {| references := references self1 ++ [reference];
                     urlReferenceIdMap := <[referenceKey := 1]> (urlReferenceIdMap self1) |}
              | Some _ => self1
              end
          | dedupNone =>
              {| references := references self1 ++ [reference];
                 urlReferenceIdMap := urlReferenceIdMap self1 |}
          end
      end in
    (Normal replacement, self2).

Definition referenceLinkAppend (options : Options) : M jsstring :=
  fun self_ =>
    match references self_ with
    | [] => (Normal [], self_)
    | refs =>
        (Normal ([LF; LF] ++ joinLines refs ++ [LF; LF]), emptyReferences)
    end.

Definition referenceLink : Rule :=
  {| filter := Some (FilterFunction referenceLinkFilter);
     replacement := referenceLinkReplacement;
     append := Some referenceLinkAppend |}.

(** *** Emphasis, strong, inline code *)

Definition delimited (delimiter : jsstring) (content : jsstring) : jsstring :=
  let content := trim content in
  if negb (nonEmpty content) then []
  else delimiter ++ content ++ delimiter.

Definition emphasis : Rule :=
  {| filter := Some (FilterArray [lit "em"; lit "i"]);
     replacement := fun content _ options =>
       ret (delimited (emDelimiter options) content);
     append := None |}.

Definition strong : Rule :=
  {| filter := Some (FilterArray [lit "strong"; lit "b"]);
     replacement := fun content _ options =>
       ret (delimited (strongDelimiter options) content);
     append := None |}.

Definition isSome {A} (o : option A) : bool :=
  match o with Some _ => true | None => false end.

Definition codeFilter (node : ExtendedNode) (_ : Options) : bool :=
  let hasSiblings :=
    isSome (previousSibling (located node))
    || isSome (nextSibling (located node)) in
  let isCodeBlock :=
    match parentNodeName (located node) with
    | Some p => JS.eqb p (lit "PRE")
    | None => false
    end && negb hasSiblings in
  nodeIs "CODE" node && negb isCodeBlock.

(** [content.replace(/\r?\n|\r/g, ' ')] *)
Fixpoint newlinesToSpaces (s : jsstring) : jsstring :=
  match s with
  | [] => []
  | c :: s' =>
      if isChar c CR then
        match s' with
        | d :: s'' =>
            if isChar d LF then SPACE :: newlinesToSpaces s''
            else SPACE :: newlinesToSpaces s'
        | [] => [SPACE]
        end
      else if isChar c LF then SPACE :: newlinesToSpaces s'
      else c :: newlinesToSpaces s'
  end.

(** The second alternative of the test for the extra space:
    a space, then lazily any characters but line terminators, then a
    character that is not a space, then any characters but line terminators,
    then a space at the end. *)
Definition isPaddedText (s : jsstring) : bool :=
  match s with
  | c0 :: rest =>
      isChar c0 SPACE &&
      endsWithSpace rest &&
      let mid := take (length rest - 1) rest in
      existsb (fun i =>
                 match mid !! i with
                 | Some c =>
                     negb (isChar c SPACE) &&
                     forallb (fun d => negb (isLineTerminator d)) (take i mid) &&
                     forallb (fun d => negb (isLineTerminator d)) (drop (S i) mid)
                 | None => false
                 end)
              (seq 0 (length mid))
  | [] => false
  end.

(** [/^`|^ .*?[^ ].* $|`$/.test(trimmed)] *)
Definition needsExtraSpace (trimmed : jsstring) : bool :=
  match trimmed with c :: _ => isChar c BACKTICK | [] => false end
  || isPaddedText trimmed
  || match last trimmed with Some c => isChar c BACKTICK | None => false end.

(** [trimmed.match(/`+/gm) || []]: the maximal runs of backticks, in order.
    [run] is the length of the run being read. *)
Fixpoint backtickRuns (run : nat) (s : jsstring) : list jsstring :=
  let flush := match run with 0 => [] | _ => [repeatChar BACKTICK run] end in
  match s with
  | [] => flush
  | c :: s' =>
      if isChar c BACKTICK then backtickRuns (S run) s'
      else flush ++ backtickRuns 0 s'
  end.

(** [while (matches.includes(delimiter)) delimiter = delimiter + '`'] *)
Fixpoint growDelimiter (fuel : nat) (matches : list jsstring)
    (delimiter : jsstring) : jsstring :=
  match fuel with
  | 0 => delimiter
  | S fuel' =>
      if includes delimiter matches
      then growDelimiter fuel' matches (delimiter ++ [BACKTICK])
      else delimiter
  end.

(** The delimiter of inline code; the loop makes at most as many rounds as
    there are matches. *)
Definition codeDelimiter (trimmed : jsstring) : jsstring :=
  let matches := backtickRuns 0 trimmed in
  growDelimiter (S (length matches)) matches [BACKTICK].

Definition codeReplacement (content : jsstring) : jsstring :=
  let trimmed := newlinesToSpaces content in
  let extraSpace := if needsExtraSpace trimmed then [SPACE] else [] in
  let delimiter := codeDelimiter trimmed in
  delimiter ++ extraSpace ++ trimmed ++ extraSpace ++ delimiter.

Definition code : Rule :=
  {| filter := Some (FilterFunction codeFilter);
     replacement := fun content _ _ => ret (codeReplacement content);
     append := None |}.

(** ** rules.ts: the constructor *)

(** Modelled from the spec: [createReferenceLinkRule] of default-rules.ts,
    which rules.ts imports and the sources at hand do not have.  The
    specification gives the reference-link rule one accumulator per engine
    instance, filled during a render and flushed by the append hook (its
    sections 3 and 5).  Here the accumulator is the state threaded through
    the computations of an instance, so the rule made for an instance is
    [referenceLink] with that state. *)
Definition createReferenceLinkRule : Rule := referenceLink.

(** The constructor.  [rules] is the [rules] entry of the options, in the
    order of its keys.  The constructor puts [createReferenceLinkRule ()] in
    the place of the default reference-link rule, which is the same rule
    here. *)
Definition newRules (options : Options) (rules : list (jsstring * Rule)) : Rules :=
  {| options := options;
     _keep := [];
     _remove := [];
     blankRule := {| filter := None;
                     replacement := pure (blankReplacement options);
                     append := None |};
     rulesKeepReplacement := keepReplacement options;
     rulesMarkdownIncludingHtmlReplacement :=
       markdownIncludingHtmlReplacement options;
     defaultRule := {| filter := None;
                       replacement := pure (defaultReplacement options);
                       append := None |};
     array := map snd rules |}.

(** ** index.ts *)

(** *** escape *)

Definition ch (s : string) : char :=
  match lit s with c :: _ => c | [] => 0%N end.

(** A replacement anchored by [^] under the flag [g] alone: it applies at the
    start of the text, when the pattern matches there, and puts a backslash
    in front. *)
Definition escapeAtStart (matches : jsstring -> bool) (s : jsstring) : jsstring :=
  if matches s then BACKSLASH :: s else s.

(** [/^(#{1,6}) /] *)
Definition startsWithHashes (s : jsstring) : bool :=
  let k := runLength (ch "#") s in
  (1 <=? k) && (k <=? 6) &&
  match s !! k with Some c => isChar c SPACE | None => false end.

(** The replacement of every span from a [<] to the next [>] (flag [g]) by
    the same span with a backslash before each of the two brackets.  A [<] is
    the start of a match when a [>] follows somewhere; the match ends at the
    first [>].  [inside] tells that a match is open. *)
Fixpoint escapeAngles (inside : bool) (s : jsstring) : jsstring :=
  match s with
  | [] => []
  | c :: s' =>
      if inside then
        if isChar c (ch ">") then [BACKSLASH; ch ">"] ++ escapeAngles false s'
        else c :: escapeAngles true s'
      else if isChar c (ch "<") && existsb (isChar (ch ">")) s' then
        [BACKSLASH; ch "<"] ++ escapeAngles true s'
      else c :: escapeAngles false s'
  end.

(** [s.replace(/^(\d+)\. /g, '$1\\. ')] *)
Definition escapeOrdinal (s : jsstring) : jsstring :=
  let k := length (takeWhile isDigit s) in
  if (1 <=? k) && startsWith (lit ". ") (drop k s)
  then take k s ++ BACKSLASH :: drop k s
  else s.

Definition escapes : list (jsstring -> jsstring) := [
  replaceChar BACKSLASH [BACKSLASH; BACKSLASH];
  replaceChar (ch "*") [BACKSLASH; ch "*"];
  replaceChar (ch "_") [BACKSLASH; ch "_"];
  escapeAtStart (startsWith (lit "-"));
  escapeAtStart (startsWith (lit "+ "));
  escapeAtStart (startsWith (lit "="));
  escapeAtStart startsWithHashes;
  replaceChar BACKTICK [BACKSLASH; BACKTICK];
  escapeAtStart (startsWith (lit "~~~"));
  replaceChar (ch "[") [BACKSLASH; ch "["];
  replaceChar (ch "]") [BACKSLASH; ch "]"];
  escapeAngles false;
  escapeAtStart (startsWith (lit ">"));
  escapeOrdinal
].

Definition escape (s : jsstring) : jsstring :=
  fold_left (fun accumulator e => e accumulator) escapes s.

(** *** The walk *)

(** The text of a text node: white space at its start is dropped behind a
    checkbox; the text is escaped unless it is inside code. *)
Definition textReplacement (extended : ExtendedNode) : jsstring :=
  let value := default [] (nodeValue (self (located extended))) in
  let value :=
    match previousSibling (located extended) with
    | Some prev =>
        if isElement (self prev)
           && JS.eqb (nodeName (self prev)) (lit "INPUT")
           && bool_decide (getAttribute (lit "type") (attributes (self prev))
                           = Some (lit "checkbox"))
        then dropWhile isWhiteSpace value
        else value
    | None => value
    end in
  if isCode extended then value else escape value.

(** [replacementForNode(node)], given the computation [processNode] that
    converts the children of the node. *)
Definition replacementForNode (rules : Rules) (processNode : M jsstring)
    (node : ExtendedNode) : M jsstring :=
  do rule <- lift (forNode rules node);
  do content <- processNode;
  let whitespace := flankingWhitespace node in
  let content :=
    if nonEmpty (leading whitespace) || nonEmpty (trailing whitespace)
    then trim content else content in
  do text <- replacement rule content node (options rules);
  ret (leading whitespace ++ text ++ trailing whitespace).

(** [Array.from(parentNode.childNodes).reduce(callback, '')]: the callback
    gets the output so far and the child, here with the siblings before it
    (the nearest first) and after it. *)
Fixpoint reduceNodes
    (callback : jsstring -> list Node -> Node -> list Node -> M jsstring)
    (earlier later : list Node) (output : jsstring) : M jsstring :=
  match later with
  | [] => ret output
  | n :: later' =>
      do output' <- callback output earlier n later';
      reduceNodes callback (n :: earlier) later' output'
  end.

(** [process(parentNode)]: the children of [parent] are converted from left
    to right and their replacements joined.  [up] is the way from the parent
    to the root and [parentIsCode] the field [isCode] of the parent. *)
Fixpoint process (rules : Rules) (parent : Node) (up : list Frame)
    (parentIsCode : bool) {struct parent} : M jsstring :=
  match parent with
  | Element name attrs kids =>
      reduceNodes
        (fun output earlier n later =>
           let here :=
             {| self := n;
                ancestors := {| parentName := name; parentAttributes := attrs;
                                before := earlier; after := later |} :: up |} in
           let extended := extend here parentIsCode (options rules) in
           do replacement <-
             match n with
             | Text _ => ret (textReplacement extended)
             | Element _ _ _ =>
                 replacementForNode rules
                   (process rules n (ancestors here) (isCode extended))
                   extended
             | Comment _ => ret []
             end;
           ret (join output replacement))
        [] kids []
  | _ => ret []
  end.

(** The loop of [postProcess] over the rules with an [append] hook. *)
Fixpoint appendAll (rules : list Rule) (options : Options) (output : jsstring)
  : M jsstring :=
  match rules with
  | [] => ret output
  | rule :: rest =>
      match append rule with
      | Some hook =>
          do text <- hook options;
          appendAll rest options (join output text)
      | None => appendAll rest options output
      end
  end.

(** The two replacements that end [postProcess]: the first removes the
    leading run of tabs, carriage returns and newlines, the second the
    trailing run of white space. *)
Definition trimOutput (output : jsstring) : jsstring :=
  dropWhileEnd isWhiteSpace (dropWhile isTabCrLf output).

Definition postProcess (rules : Rules) (output : jsstring) : M jsstring :=
  do output <- appendAll (array rules) (options rules) output;
  ret (trimOutput output).

(** *** render *)

(** The values [render] may be called with, as far as [canConvert] and the
    error message tell them apart.  A primitive other than a string or a
    symbol (a number, a boolean, a bigint) is given by the string it converts
    to; a symbol by its description; an object by its property [nodeType],
    when that is a number, and by what its conversion to a string gives: a
    string, or what the conversion throws (an object without [toString] and
    [valueOf], or with ones that throw).  [nodeType] is taken as a data
    property: reading it has no effect. *)
Inductive JSValue :=
| JSNull
| JSUndefined
| JSString (s : jsstring)
| JSPrimitive (shown : jsstring)
| JSSymbol (description : jsstring)
| JSObject (nodeTypeProperty : option N) (shown : Completion jsstring).

Definition canConvert (input : JSValue) : bool :=
  match input with
  | JSNull | JSUndefined => false
  | JSString _ => true
  | JSPrimitive _ => false
  | JSSymbol _ => false
  | JSObject (Some t) _ => ((t =? 1) || (t =? 9) || (t =? 11))%N
  | JSObject None _ => false
  end.

(** [input + '...'] converts the input to a string first; the conversion of
    a symbol throws a [TypeError], that of an object gives what its own
    methods give. *)
Definition toString (input : JSValue) : Completion jsstring :=
  match input with
  | JSNull => Normal (lit "null")
  | JSUndefined => Normal (lit "undefined")
  | JSString s => Normal s
  | JSPrimitive shown => Normal shown
  | JSSymbol _ =>
      Throw (TypeError (lit "Cannot convert a Symbol value to a string"))
  | JSObject _ shown => shown
  end.

Section Render.

(** [RootNode(input, options)] of root-node.ts parses a string, or takes
    the given node, and collapses white space; it is code outside this
    development and a parameter here.  The root it returns carries no
    [isCode] field. *)
Variable RootNode : JSValue -> Options -> Node.

Definition render (rules : Rules) (input : JSValue) : M jsstring :=
  if negb (canConvert input) then
    match toString input with
    | Normal shown =>
        throw (TypeError
                 (shown ++
                  lit " is not a string, or an element/document/fragment node."))
    | Throw e => throw e
    end
  else
    match input with
    | JSString [] => ret []
    | _ =>
        do output <- process rules (RootNode input (options rules)) [] false;
        postProcess rules output
    end.

End Render.

(** *** Default options *)

(** [outerHTML] is the serialisation of a node by the DOM implementation, a
    parameter here. *)
Definition defaultOptions (outerHTML : Node -> jsstring) : Options :=
  {| headingStyle := atx;
     hr := lit "---";
     bulletListMarker := lit "-";
     listMarkerSpaceCount := 1;
     listItemIndent := space;
     listItemIndentSpaceCount := 4;
     codeBlockStyle := fenced;
     fence := lit "```";
     emDelimiter := lit "*";
     strongDelimiter := lit "**";
     linkStyle := inlined;
     linkReferenceStyle := full;
     linkReferenceDeduplication := dedupFull;
     br := lit "  ";
     preformattedCode := false;
     htmlRetentionMode := standard;
     blankReplacement := fun content node =>
       if isBlock node then [LF; LF] else [];
     keepReplacement := fun content node =>
       if isBlock node
       then [LF; LF] ++ outerHTML (self (located node)) ++ [LF; LF]
       else outerHTML (self (located node));
     markdownIncludingHtmlReplacement := fun content node =>
       let tagName := toLowerCase (nodeName (self (located node))) in
       let attrs :=
         match attributes (self (located node)) with
         | [] => []
         | l =>
             lit " " ++
             (fix joined (l : list (jsstring * jsstring)) : jsstring :=
                match l with
                | [] => []
                | [(k, v)] => k ++ lit "=" ++ [DQUOTE] ++ v ++ [DQUOTE]
                | (k, v) :: rest =>
                    k ++ lit "=" ++ [DQUOTE] ++ v ++ [DQUOTE] ++ lit " " ++ joined rest
                end) l
         end ++ lit " markdown=" ++ [DQUOTE] ++ lit "1" ++ [DQUOTE] in
       let openTag := lit "<" ++ tagName ++ attrs ++ lit ">" in
       let closeTag := lit "</" ++ tagName ++ lit ">" in
       let html := openTag ++ [LF] ++ trim content ++ [LF] ++ closeTag in
       if isBlock node then [LF; LF] ++ html ++ [LF; LF] else html;
     defaultReplacement := fun content node =>
       if isBlock node then [LF; LF] ++ content ++ [LF; LF] else content |}.


(** ** Notions used to state the properties *)

(** The length of the longest run of [c] in a text; [cur] is the length of
    the run being read. *)
Fixpoint longestRunFrom (c : char) (cur : nat) (s : jsstring) : nat :=
  match s with
  | [] => cur
  | d :: s' =>
      if isChar d c then longestRunFrom c (S cur) s'
      else Nat.max cur (longestRunFrom c 0 s')
  end.

Definition longestRun (c : char) (s : jsstring) : nat := longestRunFrom c 0 s.

(** [s] has a maximal run of exactly [k] characters [c]: the run is not
    preceded and not followed by another [c]. *)
Definition hasMaximalRun (c : char) (k : nat) (s : jsstring) : Prop :=
  exists u v, s = u ++ replicate k c ++ v /\
              last u <> Some c /\ head v <> Some c.

(** The number of matches that have at least [j] characters. *)
Definition atLeast (j : nat) (l : list jsstring) : nat :=
  length (List.filter (fun m => j <=? length m) l).



(** The lines of a text: the pieces between line terminators. *)
Fixpoint lines (s : jsstring) : list jsstring :=
  match s with
  | [] => [[]]
  | c :: s' =>
      if isLineTerminator c then [] :: lines s'
      else
        match lines s' with
        | l :: ls => (c :: l) :: ls
        | [] => [[c]]
        end
  end.

(** The longest run of [c] at the start of a line of [code]. *)
Definition longestLineStartRun (c : char) (code : jsstring) : nat :=
  foldr Nat.max 0 (map (runLength c) (lines code)).

(** The fence length as the specification words it: 3 when no line starts
    with three or more fence characters, otherwise one more than the longest
    run of them at the start of a line. *)
Definition specifiedFenceLength (c : char) (code : jsstring) : nat :=
  if longestLineStartRun c code <? 3 then 3
  else 1 + longestLineStartRun c code.

(** The syntax characters of patterns. *)
Definition isSyntaxCharacter (c : char) : bool :=
  existsb (N.eqb c) (lit "^$\.*+?()[]{}|").


(** The [href] and [title] attributes of a node, [None] when absent. *)
Definition hrefOf (node : ExtendedNode) : option jsstring :=
  getAttribute (lit "href") (attributes (self (located node))).

Definition titleOf (node : ExtendedNode) : option jsstring :=
  getAttribute (lit "title") (attributes (self (located node))).


(** Retention applies: the mode is not [standard] and the element is
    unsupported. *)
Definition retains (r : Rules) (node : ExtendedNode) : bool :=
  match htmlRetentionMode (options r) with
  | standard => false
  | _ => isUnsupportedElement node
  end.



(** The characters a line-anchored substitution of [escapes] can start
    with: [-], [+], [=], [#], [~], [>] and the digits. *)
Definition startsAnchoredPattern (c : char) : bool :=
  existsb (N.eqb c) (lit "-+=#~>") || isDigit c.

(** The substitutions of [escapes] that are not anchored, in their order. *)
Definition escapeUnanchored (s : jsstring) : jsstring :=
  escapeAngles false
    (replaceChar (ch "]") [BACKSLASH; ch "]"]
       (replaceChar (ch "[") [BACKSLASH; ch "["]
          (replaceChar BACKTICK [BACKSLASH; BACKTICK]
             (replaceChar (ch "_") [BACKSLASH; ch "_"]
                (replaceChar (ch "*") [BACKSLASH; ch "*"]
                   (replaceChar BACKSLASH [BACKSLASH; BACKSLASH] s)))))).

(** A text is safe when it does not start with a character of an anchored
    pattern. *)
Definition safeStart (s : jsstring) : Prop :=
  match s with
  | [] => True
  | c :: _ => startsAnchoredPattern c = false
  end.



(** The inputs [render] accepts in the words of the specification: a string,
    or a node of type element (1), document (9) or fragment (11). *)
Definition isStringOrNode (input : JSValue) : Prop :=
  match input with
  | JSString _ => True
  | JSObject (Some t) _ => t = 1%N \/ t = 9%N \/ t = 11%N
  | _ => False
  end.


(** A rule that leaves the accumulator alone, in its replacement and in its
    append hook. *)
Definition stateless (rule : Rule) : Prop :=
  (forall content node o st, snd (replacement rule content node o st) = st) /\
  (forall hook, append rule = Some hook -> forall o st, snd (hook o st) = st).

(** A rule table in which the reference-link rule, in the rule list, is the
    only rule that writes the accumulator. *)
Definition onlyReferenceLinkWrites (r : Rules) : Prop :=
  Forall (fun rule => rule = referenceLink \/ stateless rule) (array r) /\
  Forall stateless (_keep r) /\
  Forall stateless (_remove r) /\
  stateless (blankRule r) /\
  stateless (defaultRule r).

(** The map of ids is empty whenever the list of references is. *)
Definition consistent (st : ReferenceState) : Prop :=
  references st = [] -> urlReferenceIdMap st = ∅.

(** What the walk may do to the accumulator between two points: it keeps a
    consistent accumulator consistent, and it changes the accumulator only
    if the reference-link rule is in the rule list. *)
Definition walkStep (r : Rules) (st st' : ReferenceState) : Prop :=
  (consistent st -> consistent st') /\
  (st' = st \/ In referenceLink (array r)).


(** ** utilities.ts: link texts *)

(** [s.replace(/ {2,}/g, ' ')]: every run of two or more spaces becomes one
    space.  [inRun] tells that the previous character was a space. *)
Fixpoint collapseSpacesFrom (inRun : bool) (s : jsstring) : jsstring :=
  match s with
  | [] => []
  | c :: s' =>
      if isChar c SPACE then
        (if inRun then [] else [SPACE]) ++ collapseSpacesFrom true s'
      else c :: collapseSpacesFrom false s'
  end.

Definition collapseSpaces (s : jsstring) : jsstring := collapseSpacesFrom false s.

Definition sanitizedLinkContent (content : jsstring) : jsstring :=
  trim (collapseSpaces (collapseTabCrLf (sanitizeWhitespace content))).

(** ** default-rules.ts: the other rules *)

Definition lineBreak : Rule :=
  {| filter := Some (FilterString (lit "br"));
     replacement := fun _ _ options => ret (br options ++ [LF]);
     append := None |}.

(** [Number(node.nodeName.charAt(1))]: the character at index 1, or the
    empty string, as a number.  The empty string and a white-space character
    give 0, a digit gives its value, any other character gives [NaN], which is
    [None] here. *)
Definition hLevelOf (name : jsstring) : option nat :=
  match name !! 1 with
  | None => Some 0
  | Some c =>
      if isDigit c then Some (N.to_nat (c - 48))
      else if isWhiteSpace c then Some 0
      else None
  end.

(** The replacement of [heading].  With the level [NaN] the test
    [hLevel < 3] fails and [repeat('#', NaN)] throws a [RangeError]: the
    result is [None] then. *)
Definition headingReplacement (content : jsstring) (node : ExtendedNode)
    (options : Options) : option jsstring :=
  match hLevelOf (nodeName (self (located node))) with
  | None => None
  | Some hLevel =>
      match headingStyle options with
      | setext =>
          if hLevel <? 3 then
            let underline :=
              repeatChar (if hLevel =? 1 then ch "=" else ch "-") (length content) in
            Some ([LF; LF] ++ content ++ [LF] ++ underline ++ [LF; LF])
          else
            Some ([LF; LF] ++ repeatChar (ch "#") hLevel ++ lit " " ++ content
                  ++ [LF; LF])
      | atx =>
          Some ([LF; LF] ++ repeatChar (ch "#") hLevel ++ lit " " ++ content
                ++ [LF; LF])
      end
  end.

Definition headingFilter : RuleFilter :=
  FilterArray [lit "h1"; lit "h2"; lit "h3"; lit "h4"; lit "h5"; lit "h6"].

(** [s.replace(/^/gm, '> ')]: the prefix is put at the start of the text and
    behind every line terminator.  [atStart] tells that the position follows
    a line terminator or is the start. *)
Fixpoint prefixLines (prefix : jsstring) (atStart : bool) (s : jsstring)
  : jsstring :=
  (if atStart then prefix else []) ++
  match s with
  | [] => []
  | c :: s' => c :: prefixLines prefix (isLineTerminator c) s'
  end.

Definition blockquoteReplacement (content : jsstring) : jsstring :=
  let content := prefixLines (lit "> ") true (trimNewlines content) in
  [LF; LF] ++ content ++ [LF; LF].

Definition blockquote : Rule :=
  {| filter := Some (FilterString (lit "blockquote"));
     replacement := fun content _ _ => ret (blockquoteReplacement content);
     append := None |}.

(** The siblings before and after a node, the nearest first. *)
Definition siblingsBefore (n : Located) : list Node :=
  match ancestors n with f :: _ => before f | [] => [] end.

Definition siblingsAfter (n : Located) : list Node :=
  match ancestors n with f :: _ => after f | [] => [] end.

(** [parent.lastElementChild === node] for an element [node]: no element
    follows it. *)
Definition isLastElementChild (n : Located) : bool :=
  isElement (self n) && negb (existsb isElement (siblingsAfter n)).

Definition listReplacement (content : jsstring) (node : ExtendedNode) : jsstring :=
  if bool_decide (parentNodeName (located node) = Some (lit "LI"))
     && isLastElementChild (located node)
  then [LF] ++ content
  else [LF; LF] ++ content ++ [LF; LF].

(** [defaultRules.list] *)
Definition listRule : Rule :=
  {| filter := Some (FilterArray [lit "ul"; lit "ol"]);
     replacement := fun content node _ => ret (listReplacement content node);
     append := None |}.

(** The value of a string of one to fifteen decimal digits, the strings for
    which [Number] is modelled here. *)
Definition decimalValue (s : jsstring) : option nat :=
  if nonEmpty s && forallb isDigit s && (length s <=? 15)
  then Some (fold_left (fun acc c => 10 * acc + N.to_nat (c - 48)) s 0)
  else None.

(** [Array.prototype.indexOf.call(parent.children, node)] for a child
    element: the number of elements before it. *)
Definition elementIndex (n : Located) : nat :=
  length (List.filter isElement (siblingsBefore n)).

(** The marker of a list item.  In an ordered list whose [start] attribute
    is not empty the number is [Number(start) + index]; the result is [None]
    when [start] is not a string of decimal digits, for which [Number] is not
    modelled. *)
Definition listItemPrefix (node : ExtendedNode) (options : Options)
  : option jsstring :=
  let spaces := repeatChar SPACE (listMarkerSpaceCount options) in
  if bool_decide (parentNodeName (located node) = Some (lit "OL")) then
    let start :=
      match parentNode (located node) with
      | Some p => getAttribute (lit "start") (attributes (self p))
      | None => None
      end in
    let index := elementIndex (located node) in
    if isTruthy start then
      match decimalValue (default [] start) with
      | Some first => Some (ofNat (first + index) ++ lit "." ++ spaces)
      | None => None
      end
    else Some (ofNat (index + 1) ++ lit "." ++ spaces)
  else Some (bulletListMarker options ++ spaces).

(** The lookahead of [listMarkerRegex], at the text behind a newline: white
    space, then digits, a dot and a white-space character, or one of
    [-], [+], [*] and a white-space character. *)
Definition startsListMarker (s : jsstring) : bool :=
  let r := dropWhile isWhiteSpace s in
  let k := length (takeWhile isDigit r) in
  ((1 <=? k) &&
   match r !! k, r !! (S k) with
   | Some dot, Some w => isChar dot (ch ".") && isWhiteSpace w
   | _, _ => false
   end)
  || match r with
     | m :: w :: _ => existsb (N.eqb m) (lit "-+*") && isWhiteSpace w
     | _ => false
     end.

(** [content.replace(listMarkerRegex, '\n' + oneIndent)]: the indent is put
    behind every newline that is not followed by a list marker. *)
Fixpoint indentContinuation (oneIndent : jsstring) (s : jsstring) : jsstring :=
  match s with
  | [] => []
  | c :: s' =>
      if isChar c LF && negb (startsListMarker s')
      then LF :: oneIndent ++ indentContinuation oneIndent s'
      else c :: indentContinuation oneIndent s'
  end.

Definition isListName (name : jsstring) : bool :=
  JS.eqb name (lit "UL") || JS.eqb name (lit "OL").

(** The loop over the ancestors: the lists whose parent is a list item are
    counted.  [names] are the names of the ancestors from the parent up. *)
Fixpoint nestingLevelOf (names : list jsstring) : nat :=
  match names with
  | [] => 0
  | name :: up =>
      (if isListName name
          && match up with
             | grandparent :: _ => JS.eqb grandparent (lit "LI")
             | [] => false
             end
       then 1 else 0) + nestingLevelOf up
  end.

Definition hasOnlyNestedList (n : Node) : bool :=
  negb (length (childNodes n) =? 0) &&
  forallb (fun child =>
             match child with
             | Text v => isWhiteSpaceOnly v
             | Element name _ _ => isListName name
             | Comment _ => false
             end)
          (childNodes n).

Definition oneIndentOf (options : Options) : jsstring :=
  match listItemIndent options with
  | tab => [TAB]
  | space => repeatChar SPACE (listItemIndentSpaceCount options)
  end.

(** The replacement of [listItem], [None] as for [listItemPrefix]. *)
Definition listItemReplacement (content : jsstring) (node : ExtendedNode)
    (options : Options) : option jsstring :=
  match listItemPrefix node options with
  | None => None
  | Some prefix =>
      let isParagraph :=
        match last content with Some c => isChar c LF | None => false end in
      let content := trimNewlines content ++ (if isParagraph then [LF] else []) in
      let newline :=
        if isSome (nextSibling (located node)) then [LF] else [] in
      if hasOnlyNestedList (self (located node)) && nonEmpty (trim content)
      then Some (content ++ newline)
      else
        let nestingLevel :=
          nestingLevelOf (map parentName (ancestors (located node))) in
        let oneIndent := oneIndentOf options in
        let indent := repeatString oneIndent nestingLevel in
        let content := indentContinuation oneIndent content in
        Some (indent ++ prefix ++ content ++ newline)
  end.

Definition listItemFilter : RuleFilter := FilterString (lit "li").

Definition indentedCodeBlockFilter (node : ExtendedNode) (options : Options)
  : bool :=
  match codeBlockStyle options with
  | indented =>
      nodeIs "PRE" node &&
      match firstChild (self (located node)) with
      | Some child => JS.eqb (nodeName child) (lit "CODE")
      | None => false
      end
  | fenced => false
  end.

Definition indentedCodeBlockReplacement (node : ExtendedNode) : jsstring :=
  match firstChild (self (located node)) with
  | None => []
  | Some child =>
      [LF; LF] ++ lit "    " ++
      replaceChar LF ([LF] ++ lit "    ") (textContent child) ++
      [LF; LF]
  end.

Definition indentedCodeBlock : Rule :=
  {| filter := Some (FilterFunction indentedCodeBlockFilter);
     replacement := fun _ node _ => ret (indentedCodeBlockReplacement node);
     append := None |}.

Definition horizontalRule : Rule :=
  {| filter := Some (FilterString (lit "hr"));
     replacement := fun _ _ options => ret ([LF; LF] ++ hr options ++ [LF; LF]);
     append := None |}.

Definition inlineLinkFilter (node : ExtendedNode) (options : Options) : bool :=
  match linkStyle options with
  | inlined =>
      nodeIs "A" node &&
      isTruthy (getAttribute (lit "href") (attributes (self (located node))))
  | referenced => false
  end.

(** [href.replace(/([()])/g, '\\$1')] *)
Fixpoint escapeParentheses (s : jsstring) : jsstring :=
  match s with
  | [] => []
  | c :: s' =>
      (if isChar c (ch "(") || isChar c (ch ")") then [BACKSLASH; c] else [c])
      ++ escapeParentheses s'
  end.

Definition inlineLinkReplacement (content : jsstring) (node : ExtendedNode)
  : jsstring :=
  let attrs := attributes (self (located node)) in
  let sanitizedContent := sanitizedLinkContent content in
  let href :=
    match getAttribute (lit "href") attrs with
    | Some h => escapeParentheses h
    | None => lit "undefined"
    end in
  let titleAttr := getAttribute (lit "title") attrs in
  let title :=
    if isTruthy titleAttr then
      lit " " ++ [DQUOTE] ++
      replaceChar DQUOTE [BACKSLASH; DQUOTE]
        (sanitizedLinkTitle (default [] titleAttr)) ++
      [DQUOTE]
    else [] in
  lit "[" ++ sanitizedContent ++ lit "](" ++ href ++ title ++ lit ")".

Definition inlineLink : Rule :=
  {| filter := Some (FilterFunction inlineLinkFilter);
     replacement := fun content node _ => ret (inlineLinkReplacement content node);
     append := None |}.

Definition imageReplacement (node : ExtendedNode) : jsstring :=
  let attrs := attributes (self (located node)) in
  let altAttr := getAttribute (lit "alt") attrs in
  let alt := if isTruthy altAttr then sanitizedLinkTitle (default [] altAttr) else [] in
  let src := default [] (getAttribute (lit "src") attrs) in
  let titleAttr := getAttribute (lit "title") attrs in
  let title :=
    if isTruthy titleAttr then sanitizedLinkTitle (default [] titleAttr) else [] in
  let titlePart :=
    if nonEmpty title then lit " " ++ [DQUOTE] ++ title ++ [DQUOTE] else [] in
  if nonEmpty src
  then lit "![" ++ alt ++ lit "](" ++ src ++ titlePart ++ lit ")"
  else [].

Definition image : Rule :=
  {| filter := Some (FilterString (lit "img"));
     replacement := fun _ node _ => ret (imageReplacement node);
     append := None |}.


(** ** Notions used to state further properties *)

(** A block-level result: the content between two pairs of newlines. *)
Definition asBlock (content : jsstring) : jsstring :=
  [LF; LF] ++ content ++ [LF; LF].

(** The text without its newlines. *)
Definition withoutNewlines (s : jsstring) : jsstring :=
  List.filter (fun c => negb (isChar c LF)) s.

(** Markdown's reading of backslashes: a backslash before an ASCII
    punctuation character stands for that character, read literally; any
    other backslash is a backslash. *)
Definition isAsciiPunctuation (c : char) : bool :=
  ((33 <=? c) && (c <=? 47) || (58 <=? c) && (c <=? 64)
   || (91 <=? c) && (c <=? 96) || (123 <=? c) && (c <=? 126))%N.

(** The characters a Markdown reader sees in a text, each with the mark of
    having been written behind an escaping backslash.  [pending] tells that
    the character before was a backslash that is still to be read. *)
Fixpoint readFrom (pending : bool) (s : jsstring) : list (bool * char) :=
  match s with
  | [] => if pending then [(false, BACKSLASH)] else []
  | c :: s' =>
      if pending then
        if isAsciiPunctuation c then (true, c) :: readFrom false s'
        else (false, BACKSLASH) :: (false, c) :: readFrom false s'
      else if isChar c BACKSLASH then readFrom true s'
      else (false, c) :: readFrom false s'
  end.

Definition unescape (s : jsstring) : jsstring := map snd (readFrom false s).

(** The characters with which Markdown marks emphasis, code and links. *)
Definition inlineMarkers : jsstring := lit "\*_`[]".

(** Two readings of the same characters, the second with escapes added
    before some characters of [added] only. *)
Definition escapesAdded (added : jsstring) (a b : bool * char) : Prop :=
  snd a = snd b /\
  (fst a = true -> fst b = true) /\
  (fst b = true -> fst a = true \/ In (snd a) added).

(** [t] reads as the text [s], with escapes before characters of [A] only
    and before every character of [M]. *)
Definition readsAs (s A M t : jsstring) : Prop :=
  map snd (readFrom false t) = s /\
  (forall tok, In tok (readFrom false t) -> fst tok = true -> In (snd tok) A) /\
  (forall tok, In tok (readFrom false t) -> In (snd tok) M -> fst tok = true).

(** [d] is below [n] in the tree. *)
Inductive descendant : Node -> Node -> Prop :=
| descendant_child (name : jsstring) (attrs : list (jsstring * jsstring))
    (kids : list Node) (k : Node) :
    In k kids -> descendant k (Element name attrs kids)
| descendant_deeper (name : jsstring) (attrs : list (jsstring * jsstring))
    (kids : list Node) (k d : Node) :
    In k kids -> descendant d k -> descendant d (Element name attrs kids).

(** A computation that returns, from every accumulator. *)
Definition returnsValue {A} (m : M A) : Prop :=
  forall st, exists a st', m st = (Normal a, st').

(** A rule whose replacement and append hook return, under the options. *)
Definition neverThrows (o : Options) (rule : Rule) : Prop :=
  (forall content node, returnsValue (replacement rule content node o)) /\
  (forall hook, append rule = Some hook -> returnsValue (hook o)).

(** A rule table whose rules all have a filter that [filterValue] accepts
    and never throw. *)
Definition soundRules (r : Rules) : Prop :=
  Forall (fun rule => filter rule <> None /\ neverThrows (options r) rule)
         (array r ++ _keep r ++ _remove r) /\
  neverThrows (options r) (blankRule r) /\
  neverThrows (options r) (defaultRule r).

(** The key under which the reference-link rule files a link: the address
    followed, when the link has a title, by the title between quotes (the
    [referenceKey] of its replacement). *)
Definition referenceKeyOf (node : ExtendedNode) : jsstring :=
  orNull (hrefOf node) ++
  (if isTruthy (titleOf node) then
     lit " " ++ [DQUOTE] ++ sanitizedLinkTitle (default [] (titleOf node)) ++ [DQUOTE]
   else []).

(** The definition with the id [i + 1]. *)
Definition referenceDefinition (i : nat) (key : jsstring) : jsstring :=
  lit "[" ++ ofNat (i + 1) ++ lit "]: " ++ key.

(** The keys of a list that are not in [seen] and not earlier in the list,
    in the order of the list. *)
Fixpoint firstOccurrencesFrom (seen keys : list jsstring) : list jsstring :=
  match keys with
  | [] => []
  | key :: keys' =>
      if includes key seen then firstOccurrencesFrom seen keys'
      else key :: firstOccurrencesFrom (seen ++ [key]) keys'
  end.

(** The replacement of the reference-link rule applied to links in document
    order: their replacements and the accumulator at the end. *)
Fixpoint replaceEach (options : Options) (links : list (jsstring * ExtendedNode))
    (st : ReferenceState) : list (Completion jsstring) * ReferenceState :=
  match links with
  | [] => ([], st)
  | (content, node) :: links' =>
      let '(text, st1) := referenceLinkReplacement content node options st in
      let '(texts, st2) := replaceEach options links' st1 in
      (text :: texts, st2)
  end.

(** The accumulator holds the definitions of the keys [ks], numbered from 1
    in their order, and the map gives each key its number. *)
Definition numbered (ks : list jsstring) (st : ReferenceState) : Prop :=
  NoDup ks /\
  references st = imap referenceDefinition ks /\
  (forall key id, urlReferenceIdMap st !! key = Some id <->
                  exists i, id = S i /\ ks !! i = Some key).

(** The links of a list whose key is not in [seen] and not the key of an
    earlier link of the list. *)
Fixpoint firstLinksFrom (seen : list jsstring)
    (links : list (jsstring * ExtendedNode)) : list (jsstring * ExtendedNode) :=
  match links with
  | [] => []
  | link :: links' =>
      if includes (referenceKeyOf (snd link)) seen then firstLinksFrom seen links'
      else link :: firstLinksFrom (seen ++ [referenceKeyOf (snd link)]) links'
  end.

(** The definition of a link in the collapsed and shortcut styles, labelled
    with the text of the link. *)
Definition labelledDefinition (link : jsstring * ExtendedNode) : jsstring :=
  lit "[" ++ fst link ++ lit "]: " ++ referenceKeyOf (snd link).

(** The replacement of a link in the collapsed and shortcut styles. *)
Definition labelledMarker (style : LinkReferenceStyle)
    (link : jsstring * ExtendedNode) : jsstring :=
  match style with
  | collapsed => lit "[" ++ fst link ++ lit "][]"
  | _ => lit "[" ++ fst link ++ lit "]"
  end.

(** The pieces of a text between the characters that satisfy [p]. *)
Fixpoint splitWhere (p : char -> bool) (s : jsstring) : list jsstring :=
  match s with
  | [] => [[]]
  | c :: s' =>
      if p c then [] :: splitWhere p s'
      else
        match splitWhere p s' with
        | l :: ls => (c :: l) :: ls
        | [] => [[c]]
        end
  end.

(** The pieces of a text between newlines. *)
Definition splitOnNewline (s : jsstring) : list jsstring :=
  splitWhere (fun c => isChar c LF) s.

(** A string of ASCII code units.  On such strings the lower case of the
    source changes the letters A to Z and nothing else. *)
Definition isAsciiString (s : jsstring) : bool :=
  forallb (fun c => c <? 128)%N s.

(** A tag name with a letter from A to Z. *)
Definition hasUpperCase (tag : jsstring) : bool :=
  existsb (fun c => (65 <=? c) && (c <=? 90))%N tag.


(** ** Documents of text and links *)

Definition isTextNode (n : Node) : bool :=
  match n with Text _ => true | _ => false end.

(** An anchor with an address and with text only inside. *)
Definition isPlainLink (n : Node) : bool :=
  match n with
  | Element name attrs kids =>
      JS.eqb name (lit "A") && isTruthy (getAttribute (lit "href") attrs)
      && forallb isTextNode kids
  | _ => false
  end.

(** The data of the text nodes of a list of nodes. *)
Definition textsOf (kids : list Node) : list jsstring :=
  omap (fun n => match n with Text v => Some v | _ => None end) kids.

(** The text of a link as [process] gives it: the escaped texts joined. *)
Definition labelOf (n : Node) : jsstring :=
  fold_left join (map escape (textsOf (childNodes n))) [].

(** The key of a link, by its node: the address and, between quotes, the
    title when there is one. *)
Definition targetOf (n : Node) : jsstring :=
  orNull (getAttribute (lit "href") (attributes n)) ++
  (if isTruthy (getAttribute (lit "title") (attributes n)) then
     lit " " ++ [DQUOTE] ++
     sanitizedLinkTitle (default [] (getAttribute (lit "title") (attributes n)))
     ++ [DQUOTE]
   else []).

(** A piece of output that is the marker with the id [id] of the link [n]:
    the text of the link, trimmed or not, in brackets and the id in brackets,
    with nothing but white space before and behind. *)
Definition isMarkerOf (id : nat) (n : Node) (piece : jsstring) : Prop :=
  exists lead content trail,
    piece = lead ++ lit "[" ++ content ++ lit "][" ++ ofNat id ++ lit "]" ++ trail /\
    Forall (fun c => isWhiteSpace c = true) lead /\
    Forall (fun c => isWhiteSpace c = true) trail /\
    (content = labelOf n \/ content = trim (labelOf n)).

(** What a child of the root gives to the output in a document of text and
    links: a text node its escaped text, a link its marker, with the id that
    [idOf] gives. *)
Definition pieceOf (idOf : Node -> nat) (n : Node) (piece : jsstring) : Prop :=
  match n with
  | Text v => piece = escape v
  | _ => isMarkerOf (idOf n) n piece
  end.


(** ** Sample documents and options *)

Module Sample.

(** Options as the constructor builds them from [defaultOptions]; the
    serialiser is not exercised by the samples. *)
Definition options : Options := defaultOptions (fun _ => []).

Definition withLinks (dedup : LinkReferenceDeduplication) : Options :=
  {| headingStyle := atx; hr := lit "---"; bulletListMarker := lit "-";
     listMarkerSpaceCount := 1; listItemIndent := space;
     listItemIndentSpaceCount := 4; codeBlockStyle := fenced;
     fence := lit "```"; emDelimiter := lit "*"; strongDelimiter := lit "**";
     linkStyle := referenced; linkReferenceStyle := full;
     linkReferenceDeduplication := dedup;
     br := lit "  "; preformattedCode := false; htmlRetentionMode := standard;
     blankReplacement := blankReplacement options;
     keepReplacement := keepReplacement options;
     markdownIncludingHtmlReplacement := markdownIncludingHtmlReplacement options;
     defaultReplacement := defaultReplacement options |}.

(** The rules of this development, in the order of default-rules.ts. *)
Definition rules : list (jsstring * Rule) := [
  (lit "paragraph", paragraph);
  (lit "fencedCodeBlock", fencedCodeBlock);
  (lit "referenceLink", referenceLink);
  (lit "emphasis", emphasis);
  (lit "strong", strong);
  (lit "code", code)
].

(** The root element the parser wraps a markup string in. *)
Definition root (kids : list Node) : Node :=
  Element (lit "X-TURNISH") [(lit "id", lit "turnish-root")] kids.

(** A child of the root, classified. *)
Definition child (opts : Options) (earlier : list Node) (n : Node)
    (later : list Node) : ExtendedNode :=
  extend {| self := n;
            ancestors := [ {| parentName := lit "X-TURNISH";
                              parentAttributes := [(lit "id", lit "turnish-root")];
                              before := earlier; after := later |} ] |}
         false opts.

(** [<pre><code>```\nCode\n```\n</code></pre>] *)
Definition fencedPre : Node :=
  Element (lit "PRE") []
    [Element (lit "CODE") []
       [Text (lit "```" ++ [LF] ++ lit "Code" ++ [LF] ++ lit "```" ++ [LF])]].

Definition anchor (href label : string) : Node :=
  Element (lit "A") [(lit "href", lit href)] [Text (lit label)].

(** Three links to the addresses a, b, a, separated by spaces. *)
Definition threeLinks : list Node := [
  anchor "http://example.com/a" "Reference Link 1"; Text (lit " ");
  anchor "http://example.com/b" "Reference Link 2"; Text (lit " ");
  anchor "http://example.com/a" "Reference Link 3"
].

(** A rule added by the user for [em] elements. *)
Definition userEmphasis : Rule :=
  {| filter := Some (FilterString (lit "em"));
     replacement := pure (fun content _ => lit "~" ++ content ++ lit "~");
     append := None |}.

(** [<em>x</em>] *)
Definition emNode : ExtendedNode :=
  child options [] (Element (lit "EM") [] [Text (lit "x")]) [].

(** What [RootNode] returns for the markup of the three links. *)
Definition parsedThreeLinks : JSValue -> Options -> Node :=
  fun _ _ => root threeLinks.

Definition threeLinksMarkup : JSValue :=
  JSString (lit "<a href=http://example.com/a>Reference Link 1</a> ...").

(** A text whose first line is plain and whose later lines start with the
    anchored patterns. *)
Definition laterLines : jsstring :=
  lit "a" ++ [LF] ++ lit "- b" ++ [LF] ++ lit "+ c" ++ [LF] ++ lit "== d"
  ++ [LF] ++ lit "## e" ++ [LF] ++ lit "~~~" ++ [LF] ++ lit "> f"
  ++ [LF] ++ lit "1. g".

(** A text node that starts with a no-break space, under the root. *)
Definition parsedNoBreakSpace : JSValue -> Options -> Node :=
  fun _ _ => root [Text (160%N :: lit "1. First")].

End Sample.

(** Rendering the children of a root with the rules of this development. *)
Module Checks.

Definition rendered (opts : Options) (kids : list Node) : Completion jsstring :=
  fst (render (fun _ _ => Sample.root kids) (newRules opts Sample.rules)
              (JSString (lit "markup")) emptyReferences).

Definition element (name : string) (kids : list Node) : Node :=
  Element (lit name) [] kids.

End Checks.


(** ** Further sample inputs *)

Module More.

Definition preserving : Options :=
  {| headingStyle := atx; hr := lit "---"; bulletListMarker := lit "-";
     listMarkerSpaceCount := 1; listItemIndent := space;
     listItemIndentSpaceCount := 4; codeBlockStyle := fenced;
     fence := lit "```"; emDelimiter := lit "*"; strongDelimiter := lit "**";
     linkStyle := inlined; linkReferenceStyle := full;
     linkReferenceDeduplication := dedupFull;
     br := lit "  "; preformattedCode := false;
     htmlRetentionMode := preserveAll;
     blankReplacement := blankReplacement Sample.options;
     keepReplacement := keepReplacement Sample.options;
     markdownIncludingHtmlReplacement :=
       markdownIncludingHtmlReplacement Sample.options;
     defaultReplacement := defaultReplacement Sample.options |}.

Definition video : Located :=
  {| self := Element (lit "VIDEO") [(lit "src", lit "a.mp4")] [Text (lit "x")];
     ancestors := [] |}.

Definition link (opts : Options) (label href : string)
  : jsstring * ExtendedNode :=
  (lit label, Sample.child opts [] (Sample.anchor href label) []).

(** Four links, the third to the address of the first. *)
Definition fourLinks (opts : Options) : list (jsstring * ExtendedNode) :=
  [link opts "one" "/a"; link opts "two" "/b"; link opts "three" "/a";
   link opts "four" "/c"].

Definition collapsing : Options :=
  {| headingStyle := atx; hr := lit "---"; bulletListMarker := lit "-";
     listMarkerSpaceCount := 1; listItemIndent := space;
     listItemIndentSpaceCount := 4; codeBlockStyle := fenced;
     fence := lit "```"; emDelimiter := lit "*"; strongDelimiter := lit "**";
     linkStyle := referenced; linkReferenceStyle := collapsed;
     linkReferenceDeduplication := dedupFull;
     br := lit "  "; preformattedCode := false;
     htmlRetentionMode := standard;
     blankReplacement := blankReplacement Sample.options;
     keepReplacement := keepReplacement Sample.options;
     markdownIncludingHtmlReplacement :=
       markdownIncludingHtmlReplacement Sample.options;
     defaultReplacement := defaultReplacement Sample.options |}.

(** The item [Nested item] of
    [<ul><li>Root item<ul><li>Nested item</li></ul></li></ul>] under the
    root. *)
Definition nestedItem : ExtendedNode :=
  extend
    {| self := Element (lit "LI") [] [Text (lit "Nested item")];
       ancestors :=
         [ {| parentName := lit "UL"; parentAttributes := [];
              before := []; after := [] |};
           {| parentName := lit "LI"; parentAttributes := [];
              before := [Text (lit "Root item")]; after := [] |};
           {| parentName := lit "UL"; parentAttributes := [];
              before := []; after := [] |};
           {| parentName := lit "X-TURNISH";
              parentAttributes := [(lit "id", lit "turnish-root")];
              before := []; after := [] |} ] |}
    false Sample.options.

(** The default rules that are rules of this development, in the order
    of default-rules.ts. *)
Definition rules : list (jsstring * Rule) := [
  (lit "paragraph", paragraph);
  (lit "lineBreak", lineBreak);
  (lit "blockquote", blockquote);
  (lit "list", listRule);
  (lit "indentedCodeBlock", indentedCodeBlock);
  (lit "fencedCodeBlock", fencedCodeBlock);
  (lit "horizontalRule", horizontalRule);
  (lit "inlineLink", inlineLink);
  (lit "referenceLink", referenceLink);
  (lit "emphasis", emphasis);
  (lit "strong", strong);
  (lit "code", code);
  (lit "image", image)
].

Definition rendered (opts : Options) (kids : list Node) : Completion jsstring :=
  fst (render (fun _ _ => Sample.root kids) (newRules opts rules)
              (JSString (lit "markup")) emptyReferences).

Definition paragraphOf (text : string) : Node :=
  Checks.element "P" [Text (lit text)].

(** The second item of [<ol start=42>] with three items. *)
Definition secondItem : ExtendedNode :=
  extend
    {| self := Checks.element "LI" [Text (lit "Ordered list item 43")];
       ancestors :=
         [ {| parentName := lit "OL";
              parentAttributes := [(lit "start", lit "42")];
              before := [Checks.element "LI" [Text (lit "Ordered list item 42")]];
              after := [Checks.element "LI" [Text (lit "Ordered list item 44")]] |};
           {| parentName := lit "X-TURNISH";
              parentAttributes := [(lit "id", lit "turnish-root")];
              before := []; after := [] |} ] |}
    false Sample.options.

(** The default options with another fence. *)
Definition withFence (f : jsstring) : Options :=
  {| headingStyle := atx; hr := lit "---"; bulletListMarker := lit "-";
     listMarkerSpaceCount := 1; listItemIndent := space;
     listItemIndentSpaceCount := 4; codeBlockStyle := fenced;
     fence := f; emDelimiter := lit "*"; strongDelimiter := lit "**";
     linkStyle := inlined; linkReferenceStyle := full;
     linkReferenceDeduplication := dedupFull;
     br := lit "  "; preformattedCode := false;
     htmlRetentionMode := standard;
     blankReplacement := blankReplacement Sample.options;
     keepReplacement := keepReplacement Sample.options;
     markdownIncludingHtmlReplacement :=
       markdownIncludingHtmlReplacement Sample.options;
     defaultReplacement := defaultReplacement Sample.options |}.

(** [<pre><code>abcd</code></pre>] *)
Definition plainPre : Node :=
  Checks.element "PRE" [Checks.element "CODE" [Text (lit "abcd")]].

(** The anchors of a list of nodes and of what they hold, in document
    order. *)
Fixpoint anchorsIn (n : Node) : list Node :=
  match n with
  | Element name _ kids =>
      (if JS.eqb name (lit "A") then [n] else []) ++ flat_map anchorsIn kids
  | _ => []
  end.

Definition anchorsOf (kids : list Node) : list Node := flat_map anchorsIn kids.

(** A document whose first link lies in a code block:
    [<pre><a href=a>One</a></pre><a href=b>Two</a> <a href=a>Three</a>]. *)
Definition linkInCodeBlock : list Node := [
  Checks.element "PRE" [Sample.anchor "http://example.com/a" "One"];
  Sample.anchor "http://example.com/b" "Two"; Text (lit " ");
  Sample.anchor "http://example.com/a" "Three"
].

End More.

(** * Properties *)

(** ** The model against the test suite of the repository *)

(** [<p>Lorem ipsum</p>] *)
Example parses_p_tag :
  Checks.rendered Sample.options
    [Checks.element "P" [Text (lit "Lorem ipsum")]]
  = Normal (lit "Lorem ipsum").
Proof. vm_compute. reflexivity. Qed.

Example code_containing_a_backtick :
  Checks.rendered Sample.options
    [Checks.element "CODE" [Text (lit "There is a literal backtick (`) here")]]
  = Normal (lit "``There is a literal backtick (`) here``").
Proof. vm_compute. reflexivity. Qed.

Example code_containing_three_or_more_backticks :
  Checks.rendered Sample.options
    [Checks.element "CODE"
       [Text (lit "here are three ``` here are four ```` that's it")]]
  = Normal (lit "`here are three ``` here are four ```` that's it`").
Proof. vm_compute. reflexivity. Qed.

Example code_containing_one_or_more_backticks :
  Checks.rendered Sample.options
    [Checks.element "CODE"
       [Text (lit "here are three ``` here are four ```` here is one ` that's it")]]
  = Normal (lit "``here are three ``` here are four ```` here is one ` that's it``").
Proof. vm_compute. reflexivity. Qed.

Example code_starting_with_a_backtick :
  Checks.rendered Sample.options
    [Checks.element "CODE" [Text (lit "`starting with a backtick")]]
  = Normal (lit "`` `starting with a backtick ``").
Proof. vm_compute. reflexivity. Qed.

Example escaping_inside_em :
  Checks.rendered Sample.options
    [Checks.element "EM" [Text (lit "test_italics")]]
  = Normal (lit "*test\_italics*").
Proof. vm_compute. reflexivity. Qed.

Example escaping_inside_strong :
  Checks.rendered Sample.options
    [Checks.element "STRONG" [Text (lit "**test")]]
  = Normal (lit "**\*\*test**").
Proof. vm_compute. reflexivity. Qed.

Example blank_inline_element_with_br :
  Checks.rendered Sample.options
    [Checks.element "STRONG" [Checks.element "BR" []]]
  = Normal [].
Proof. vm_compute. reflexivity. Qed.

Example triple_ticks_inside_code :
  Checks.rendered Sample.options [Sample.fencedPre]
  = Normal (lit "````" ++ [LF] ++ lit "```" ++ [LF] ++ lit "Code" ++ [LF]
            ++ lit "```" ++ [LF] ++ lit "````").
Proof. vm_compute. reflexivity. Qed.

Example references_without_deduplication :
  Checks.rendered (Sample.withLinks dedupNone) Sample.threeLinks
  = Normal (lit "[Reference Link 1][1] [Reference Link 2][2] [Reference Link 3][3]"
            ++ [LF; LF] ++ lit "[1]: http://example.com/a"
            ++ [LF] ++ lit "[2]: http://example.com/b"
            ++ [LF] ++ lit "[3]: http://example.com/a").
Proof. vm_compute. reflexivity. Qed.

Example escaping_ol_markdown :
  escape (lit "1984. by George Orwell") = lit "1984\. by George Orwell".
Proof. vm_compute. reflexivity. Qed.

Example escaping_headings :
  escape (lit "### This is not a heading") = lit "\### This is not a heading".
Proof. vm_compute. reflexivity. Qed.

Example escaping_angle_brackets :
  escape (lit "This is bad > <malicious> < This is bad")
  = lit "This is bad > \<malicious\> < This is bad".
Proof. vm_compute. reflexivity. Qed.

Example escaping_hr_with_dashes : escape (lit "- - -") = lit "\- - -".
Proof. vm_compute. reflexivity. Qed.

Example escaping_multiple_asterisks :
  escape (lit "* * ** It aims to be*") = lit "\* \* \*\* It aims to be\*".
Proof. vm_compute. reflexivity. Qed.

Example not_escaping_plus : escape (lit "+1 and another +") = lit "+1 and another +".
Proof. vm_compute. reflexivity. Qed.

Example whitespace_between_blocks :
  Checks.rendered Sample.options
    [Checks.element "DIV"
       [Checks.element "DIV" [Text (lit "Content in a nested div")]];
     Checks.element "DIV" [Text (lit "Content in another div")]]
  = Normal (lit "Content in a nested div" ++ [LF; LF]
            ++ lit "Content in another div").
Proof. vm_compute. reflexivity. Qed.

Example whitespace_between_inline_elements :
  Checks.rendered Sample.options
    [Checks.element "P"
       [Text (lit "I "); Checks.element "EM" [Text (lit "need")];
        Text (lit " "); Checks.element "STRONG" [Text (lit "more")];
        Text (lit " spaces!")]]
  = Normal (lit "I *need* **more** spaces!").
Proof. vm_compute. reflexivity. Qed.

Example trailing_no_break_space_in_element :
  Checks.rendered Sample.options
    [Checks.element "I" [Text (lit "foo" ++ [160%N])]; Text (lit "bar")]
  = Normal (lit "*foo*" ++ [160%N] ++ lit "bar").
Proof. vm_compute. reflexivity. Qed.

Example spaces_around_no_break_space_in_element :
  Checks.rendered Sample.options
    [Checks.element "P"
       [Text (lit "Foo");
        Checks.element "SPAN" [Text (lit " " ++ [160%N] ++ lit " ")];
        Text (lit "Bar")]]
  = Normal (lit "Foo " ++ [160%N] ++ lit " Bar").
Proof. vm_compute. reflexivity. Qed.

Example code_containing_markdown_in_a_span :
  Checks.rendered Sample.options
    [Checks.element "CODE" [Checks.element "SPAN" [Text (lit "_emphasis_")]]]
  = Normal (lit "`_emphasis_`").
Proof. vm_compute. reflexivity. Qed.

Example preformatted_code_with_newlines :
  codeReplacement ([LF; LF] ++ lit " nasty" ++ [LF] ++ lit "code" ++ [LF; LF])
  = lit "`    nasty code   `".
Proof. vm_compute. reflexivity. Qed.

Example decimal_ids : map ofNat [0; 7; 10; 123] = map lit ["0"; "7"; "10"; "123"]%string.
Proof. vm_compute. reflexivity. Qed.

(** The rules modelled beside those of the claims, on cases of the same
    suite. *)
Example blockquote_of_two_paragraphs :
  More.rendered Sample.options
    [Checks.element "BLOCKQUOTE"
       [More.paragraphOf "This is a paragraph within a blockquote.";
        More.paragraphOf "This is another paragraph within a blockquote."]]
  = Normal (lit "> This is a paragraph within a blockquote." ++ [LF] ++ lit "> "
            ++ [LF] ++ lit "> This is another paragraph within a blockquote.").
Proof. vm_compute. reflexivity. Qed.

Example nested_blockquotes :
  More.rendered Sample.options
    [Checks.element "BLOCKQUOTE"
       [More.paragraphOf "This is the first level of quoting.";
        Checks.element "BLOCKQUOTE"
          [More.paragraphOf "This is a paragraph in a nested blockquote."];
        More.paragraphOf "Back to the first level."]]
  = Normal (lit "> This is the first level of quoting." ++ [LF] ++ lit "> "
            ++ [LF] ++ lit "> > This is a paragraph in a nested blockquote."
            ++ [LF] ++ lit "> " ++ [LF] ++ lit "> Back to the first level.").
Proof. vm_compute. reflexivity. Qed.

Example a_with_quotes_in_title :
  More.rendered Sample.options
    [Element (lit "A")
       [(lit "href", lit "http://example.com");
        (lit "title", [DQUOTE] ++ lit "hello" ++ [DQUOTE])]
       [Text (lit "An anchor")]]
  = Normal (lit "[An anchor](http://example.com " ++ [DQUOTE] ++ lit "\"
            ++ [DQUOTE] ++ lit "hello\" ++ [DQUOTE; DQUOTE] ++ lit ")").
Proof. vm_compute. reflexivity. Qed.

Example a_with_parenthesis_in_query :
  More.rendered Sample.options
    [Sample.anchor "http://example.com?(query)" "An anchor"]
  = Normal (lit "[An anchor](http://example.com?\(query\))").
Proof. vm_compute. reflexivity. Qed.

Example a_without_a_src :
  More.rendered Sample.options
    [Element (lit "A") [(lit "id", lit "about-anchor")]
       [Text (lit "Anchor without a title")]]
  = Normal (lit "Anchor without a title").
Proof. vm_compute. reflexivity. Qed.

Example no_newline_in_the_text_of_a_link :
  More.rendered Sample.options
    [Element (lit "A") [(lit "href", lit "http://example.com")]
       [More.paragraphOf "Example Link"]]
  = Normal (lit "[Example Link](http://example.com)") /\
  More.rendered Sample.options
    [Element (lit "A") [(lit "href", lit "http://example.com")]
       [Checks.element "SPAN"
          [Text (lit "Example"); Checks.element "BR" []; Text (lit "Link")]]]
  = Normal (lit "[Example Link](http://example.com)").
Proof. split; vm_compute; reflexivity. Qed.

Example img_with_a_new_line_in_alt :
  More.rendered Sample.options
    [Element (lit "IMG")
       [(lit "src", lit "logo.png");
        (lit "alt", lit "img with" ++ [LF] ++ lit "    alt")] []]
  = Normal (lit "![img with alt](logo.png)").
Proof. vm_compute. reflexivity. Qed.

Example br_and_hr :
  More.rendered Sample.options
    [Text (lit "More"); Checks.element "BR" []; Text (lit "after the break")]
  = Normal (lit "More  " ++ [LF] ++ lit "after the break") /\
  More.rendered Sample.options [Checks.element "HR" []] = Normal (lit "---").
Proof. split; vm_compute; reflexivity. Qed.

Example a_reference_with_collapsed_style :
  More.rendered More.collapsing
    [Sample.anchor "http://example.com" "Reference link with collapsed style"]
  = Normal (lit "[Reference link with collapsed style][]" ++ [LF; LF]
            ++ lit "[Reference link with collapsed style]: http://example.com").
Proof. vm_compute. reflexivity. Qed.

Example h2_as_atx_and_invalid_heading :
  headingReplacement (lit "Level Two Heading")
    (Sample.child Sample.options []
       (Checks.element "H2" [Text (lit "Level Two Heading")]) [])
    Sample.options
  = Some ([LF; LF] ++ lit "## Level Two Heading" ++ [LF; LF]) /\
  includes (toLowerCase (lit "H7"))
           [lit "h1"; lit "h2"; lit "h3"; lit "h4"; lit "h5"; lit "h6"] = false.
Proof. split; vm_compute; reflexivity. Qed.

Example ol_with_start :
  listItemReplacement (lit "Ordered list item 43") More.secondItem Sample.options
  = Some (lit "43. Ordered list item 43" ++ [LF]).
Proof. vm_compute. reflexivity. Qed.

Example nested_item_of_a_ul :
  listItemReplacement (lit "Nested item") More.nestedItem Sample.options
  = Some (lit "    - Nested item").
Proof. vm_compute. reflexivity. Qed.


(** ** Strings *)

Section StringFacts.

Variable p : char -> bool.

Lemma takeWhile_dropWhile (s : jsstring) : takeWhile p s ++ dropWhile p s = s.
Proof.
  induction s as [|c s IH]; simpl; [reflexivity|].
  destruct (p c); simpl; [now rewrite IH | reflexivity].
Qed.

Lemma takeWhile_Forall (s : jsstring) :
  Forall (fun c => p c = true) (takeWhile p s).
Proof.
  induction s as [|c s IH]; simpl; [constructor|].
  destruct (p c) eqn:E; [constructor; assumption | constructor].
Qed.

Lemma dropWhile_head (s : jsstring) (c : char) :
  head (dropWhile p s) = Some c -> p c = false.
Proof.
  induction s as [|d s IH]; simpl; [discriminate|].
  destruct (p d) eqn:E; [exact IH|].
  simpl. intros [= <-]. exact E.
Qed.

Lemma dropWhile_app_stop (u v : jsstring) (c : char) :
  Forall (fun d => p d = true) u -> p c = false ->
  dropWhile p (u ++ c :: v) = c :: v.
Proof.
  induction 1 as [|d u Hd _ IH]; simpl; intros Hc.
  - now rewrite Hc.
  - rewrite Hd. now apply IH.
Qed.

Lemma dropWhile_all (u : jsstring) :
  Forall (fun d => p d = true) u -> dropWhile p u = [].
Proof.
  induction 1 as [|d u Hd _ IH]; simpl; [reflexivity|]. now rewrite Hd.
Qed.

Lemma dropWhile_id (s : jsstring) :
  (forall c, head s = Some c -> p c = false) -> dropWhile p s = s.
Proof.
  destruct s as [|c s]; simpl; [reflexivity|].
  intros H. now rewrite (H c eq_refl).
Qed.

(** What [dropWhileEnd] leaves does not end with a character of the set. *)
Lemma dropWhileEnd_last (s : jsstring) (c : char) :
  last (dropWhileEnd p s) = Some c -> p c = false.
Proof.
  unfold dropWhileEnd. intros H.
  apply (dropWhile_head (rev s)).
  destruct (dropWhile p (rev s)) as [|d t]; simpl in *; [discriminate|].
  rewrite last_snoc in H. exact H.
Qed.

Lemma dropWhileEnd_split (s : jsstring) :
  s = dropWhileEnd p s ++ rev (takeWhile p (rev s)).
Proof.
  unfold dropWhileEnd. rewrite <- rev_app_distr, takeWhile_dropWhile.
  now rewrite rev_involutive.
Qed.

Lemma dropWhileEnd_app_stop (u v : jsstring) :
  (forall c, last u = Some c -> p c = false) ->
  Forall (fun d => p d = true) v ->
  dropWhileEnd p (u ++ v) = u.
Proof.
  intros Hu Hv. unfold dropWhileEnd. rewrite rev_app_distr.
  destruct u as [|c u _] using rev_ind.
  - simpl. rewrite app_nil_r, dropWhile_all; [reflexivity|].
    now apply List.Forall_rev.
  - rewrite rev_app_distr. simpl.
    rewrite dropWhile_app_stop.
    + simpl. now rewrite rev_involutive.
    + now apply List.Forall_rev.
    + apply Hu. now rewrite last_snoc.
Qed.

End StringFacts.

Lemma Forall_isChar_replicate (c : char) (s : jsstring) :
  Forall (fun d => isChar c d = true) s -> s = replicate (length s) c.
Proof.
  induction 1 as [|d s Hd _ IH]; simpl; [reflexivity|].
  apply N.eqb_eq in Hd. now rewrite <- Hd, <- IH.
Qed.

Lemma Forall_isLF_replicate (s : jsstring) :
  Forall (fun c => isChar LF c = true) s -> s = replicate (length s) LF.
Proof. apply Forall_isChar_replicate. Qed.

Lemma Forall_replicate_isLF (n : nat) :
  Forall (fun c => isChar LF c = true) (replicate n LF).
Proof. induction n; simpl; constructor; [reflexivity | assumption]. Qed.

(** ** C1: join *)

Lemma trailingNewlinesIndex_run (x : jsstring) (a n : nat) :
  (forall c, last x = Some c -> c <> LF) ->
  n <= a ->
  trailingNewlinesIndex (x ++ replicate a LF) (length x + n) = length x.
Proof.
  intros Hx. induction n as [|n IH]; intros Hn.
  - rewrite Nat.add_0_r.
    destruct x as [|c x _] using rev_ind; [reflexivity|].
    rewrite length_app. simpl. rewrite Nat.add_1_r. simpl.
    rewrite <- app_assoc. rewrite lookup_app_r by lia.
    rewrite Nat.sub_diag. simpl.
    specialize (Hx c (last_snoc _ _)).
    unfold isChar. destruct (N.eqb_spec c LF); [contradiction | reflexivity].
  - rewrite Nat.add_succ_r. simpl.
    rewrite lookup_app_r by lia.
    replace (length x + n - length x) with n by lia.
    rewrite lookup_replicate_2 by lia.
    simpl. apply IH. lia.
Qed.

Lemma trimTrailingNewlines_run (x : jsstring) (a : nat) :
  (forall c, last x = Some c -> c <> LF) ->
  trimTrailingNewlines (x ++ replicate a LF) = x.
Proof.
  intros Hx. unfold trimTrailingNewlines, substring0.
  rewrite length_app, length_replicate.
  rewrite trailingNewlinesIndex_run by (auto; lia).
  now rewrite take_app_length.
Qed.

(** The loop of [trimTrailingNewlines] removes the trailing run of newlines. *)
Lemma trimTrailingNewlines_dropWhileEnd (s : jsstring) :
  trimTrailingNewlines s = dropWhileEnd (isChar LF) s.
Proof.
  rewrite (dropWhileEnd_split (isChar LF) s) at 1.
  rewrite (Forall_isLF_replicate (rev (takeWhile (isChar LF) (rev s)))).
  - apply trimTrailingNewlines_run.
    intros c Hc E. apply dropWhileEnd_last in Hc. subst c. discriminate.
  - apply List.Forall_rev, takeWhile_Forall.
Qed.

Lemma join_runs (x y : jsstring) (a b : nat) :
  (forall c, last x = Some c -> c <> LF) ->
  (forall c, head y = Some c -> c <> LF) ->
  join (x ++ replicate a LF) (replicate b LF ++ y)
  = x ++ replicate (Nat.min 2 (Nat.max a b)) LF ++ y.
Proof.
  intros Hx Hy. unfold join.
  rewrite trimTrailingNewlines_run by assumption.
  assert (trimLeadingNewlines (replicate b LF ++ y) = y) as ->.
  { unfold trimLeadingNewlines. destruct y as [|c y].
    - rewrite app_nil_r. apply dropWhile_all, Forall_replicate_isLF.
    - apply dropWhile_app_stop; [apply Forall_replicate_isLF|].
      specialize (Hy c eq_refl). unfold isChar.
      destruct (N.eqb_spec LF c); congruence. }
  rewrite !length_app, !length_replicate.
  replace (length x + a - length x) with a by lia.
  replace (b + length y - length y) with b by lia.
  unfold substring0.
  destruct (Nat.max a b) as [|[|[|m]]]; reflexivity.
Qed.

(** C1.  Every output [o] is a text [s1] that does not end with a newline
    followed by [a] newlines, every replacement [r] is [b] newlines followed
    by a text [s2] that does not start with one, [s1] and [s2] being what
    [join] keeps of them; [join o r] is [s1], then [min 2 (max a b)]
    newlines, then [s2].  The seam never has more than two newlines, and has
    exactly two as soon as one side brought two or more, as block-level
    results do. *)
Theorem join_seam (o r : jsstring) :
  let s1 := trimTrailingNewlines o in
  let s2 := trimLeadingNewlines r in
  let a := length o - length s1 in
  let b := length r - length s2 in
  let seam := replicate (Nat.min 2 (Nat.max a b)) LF in
  o = s1 ++ replicate a LF /\
  last s1 <> Some LF /\
  r = replicate b LF ++ s2 /\
  head s2 <> Some LF /\
  join o r = s1 ++ seam ++ s2 /\
  length seam <= 2 /\
  (2 <= a \/ 2 <= b -> seam = [LF; LF]).
Proof.
  intros s1 s2 a b seam.
  assert (Ho : o = s1 ++ replicate a LF).
  { subst a s1. rewrite trimTrailingNewlines_dropWhileEnd.
    pose proof (dropWhileEnd_split (isChar LF) o) as H.
    rewrite (Forall_isLF_replicate (rev (takeWhile (isChar LF) (rev o)))) in H.
    - rewrite H at 1. f_equal. f_equal.
      apply (f_equal (@length _)) in H. rewrite length_app, length_replicate in H.
      lia.
    - apply List.Forall_rev, takeWhile_Forall. }
  assert (Hs1 : last s1 <> Some LF).
  { subst s1. rewrite trimTrailingNewlines_dropWhileEnd. intros E.
    apply dropWhileEnd_last in E. discriminate. }
  assert (Hr : r = replicate b LF ++ s2).
  { subst b s2. unfold trimLeadingNewlines.
    pose proof (takeWhile_dropWhile (isChar LF) r) as H.
    rewrite (Forall_isLF_replicate (takeWhile (isChar LF) r)) in H
      by apply takeWhile_Forall.
    rewrite <- H at 1. f_equal. f_equal.
    apply (f_equal (@length _)) in H. rewrite length_app, length_replicate in H.
    lia. }
  assert (Hs2 : head s2 <> Some LF).
  { subst s2. unfold trimLeadingNewlines. intros E.
    apply dropWhile_head in E. discriminate. }
  repeat split; try assumption.
  - rewrite Ho at 1. rewrite Hr at 1. apply join_runs.
    + intros c Hc ->. contradiction.
    + intros c Hc ->. contradiction.
  - subst seam. rewrite length_replicate. lia.
  - intros H. subst seam.
    replace (Nat.min 2 (Nat.max a b)) with 2 by lia. reflexivity.
Qed.

Lemma join_seam_witness :
  join (lit "a" ++ [LF; LF; LF]) ([LF; LF; LF; LF] ++ lit "b")
  = lit "a" ++ [LF; LF] ++ lit "b".
Proof.
  exact (proj1 (proj2 (proj2 (proj2 (proj2
           (join_seam (lit "a" ++ [LF; LF; LF]) ([LF; LF; LF; LF] ++ lit "b"))))))).
Defined.

(** ** C2: the delimiter of inline code *)

Lemma backtickRuns_pending (a r : nat) (s : jsstring) :
  backtickRuns a (replicate r BACKTICK ++ s) = backtickRuns (a + r) s.
Proof.
  revert a. induction r as [|r IH]; intros a; simpl.
  - now rewrite Nat.add_0_r.
  - rewrite IH. f_equal. lia.
Qed.

Lemma hasMaximalRun_length c k s : hasMaximalRun c k s -> k <= length s.
Proof.
  intros (u & v & -> & _). rewrite !length_app, length_replicate. lia.
Qed.

(** A text that starts with a run of [r] characters [c] followed by another
    character: its maximal runs are that run and those of the rest. *)
Lemma hasMaximalRun_run_cons c k r d s :
  d <> c -> 1 <= k ->
  hasMaximalRun c k (replicate r c ++ d :: s) <->
  k = r \/ hasMaximalRun c k s.
Proof.
  intros Hd Hk. split.
  - intros (u & v & E & Hu & Hv).
    destruct u as [|x u].
    + (* the run found starts the text *)
      left. simpl in E.
      assert (forall a b (t1 t2 : jsstring),
                 replicate a c ++ d :: t1 = replicate b c ++ t2 ->
                 head t2 <> Some c -> a = b) as Hsame.
      { clear -Hd. induction a as [|a IH]; intros [|b] t1 t2; simpl.
        - reflexivity.
        - intros [= E _]. congruence.
        - intros E Ht. destruct t2 as [|y t2]; [discriminate|].
          injection E as <- _. now contradiction Ht.
        - intros [= E] Ht. f_equal. eapply IH; eassumption. }
      symmetry. eapply Hsame; eassumption.
    + (* the run found starts later: it lies behind [d] *)
      right.
      assert (forall a (w t : jsstring),
                 last w <> Some c -> w <> [] ->
                 replicate a c ++ d :: s = w ++ replicate k c ++ t ->
                 exists w', s = w' ++ replicate k c ++ t /\ last w' <> Some c)
        as Hlater.
      { clear -Hd Hk. induction a as [|a IH]; intros w t Hw Hne; simpl.
        - destruct w as [|y w]; [contradiction|].
          intros [= <- E]. exists w. split; [exact E|].
          destruct w as [|z w]; [discriminate|]. exact Hw.
        - destruct w as [|y w]; [contradiction|].
          intros [= <- E].
          destruct w as [|z w].
          + now contradiction Hw.
          + apply (IH (z :: w) t); [exact Hw | discriminate | exact E]. }
      destruct (Hlater r (x :: u) v Hu ltac:(discriminate) E) as (w' & E' & Hw').
      exists w', v. auto.
  - intros [-> | (u & v & -> & Hu & Hv)].
    + exists [], (d :: s). repeat split; simpl; [discriminate | congruence].
    + exists (replicate r c ++ d :: u), v. repeat split.
      * now rewrite <- app_assoc.
      * rewrite last_app, last_cons.
        destruct (last u) eqn:E; [exact Hu | congruence].
      * exact Hv.
Qed.

Lemma hasMaximalRun_run_nil c k r :
  1 <= k -> hasMaximalRun c k (replicate r c) <-> k = r.
Proof.
  intros Hk. split.
  - intros (u & v & E & Hu & Hv).
    assert (Forall (fun x => x = c) (replicate r c)) as Hall
      by (apply Forall_forall; intros x Hx; now apply elem_of_replicate in Hx).
    rewrite E in Hall. apply Forall_app in Hall as [Hall_u Hall].
    apply Forall_app in Hall as [_ Hall_v].
    destruct u as [|x u _] using rev_ind.
    + destruct v as [|y v].
      * apply (f_equal (@length _)) in E.
        rewrite !length_app, !length_replicate in E. simpl in E. lia.
      * inversion Hall_v; subst. now contradiction Hv.
    + apply Forall_app in Hall_u as [_ Hx]. inversion Hx; subst.
      rewrite last_snoc in Hu. now contradiction Hu.
  - intros ->. exists [], []. rewrite app_nil_r. repeat split; discriminate.
Qed.

Lemma includes_In (x : jsstring) (l : list jsstring) :
  includes x l = true <-> In x l.
Proof.
  unfold includes, JS.eqb. rewrite existsb_exists. split.
  - intros (y & Hy & E). apply bool_decide_eq_true in E. now subst.
  - intros H. exists x. split; [exact H | now apply bool_decide_eq_true].
Qed.

(** The matches of the pattern for runs of backticks are the maximal runs. *)
Lemma backtickRuns_spec (s : jsstring) (run : nat) (m : jsstring) :
  In m (backtickRuns run s) <->
  exists k, 1 <= k /\ m = replicate k BACKTICK /\
            hasMaximalRun BACKTICK k (replicate run BACKTICK ++ s).
Proof.
  revert run. induction s as [|c s IH]; intros run.
  - rewrite app_nil_r. simpl. destruct run as [|run]; simpl.
    + split; [contradiction|].
      intros (k & Hk & _ & H). apply hasMaximalRun_length in H. simpl in H. lia.
    + split.
      * intros [<- | []]. exists (S run). repeat split; [lia|].
        apply (hasMaximalRun_run_nil BACKTICK (S run) (S run)); [lia | reflexivity].
      * intros (k & Hk & -> & H).
        apply (hasMaximalRun_run_nil BACKTICK k (S run)) in H; [|exact Hk].
        subst k. now left.
  - cbn [backtickRuns]. unfold isChar. destruct (N.eqb_spec c BACKTICK) as [->|Hc].
    + rewrite IH.
      replace (replicate (S run) BACKTICK ++ s)
        with (replicate run BACKTICK ++ BACKTICK :: s); [reflexivity|].
      clear. induction run; simpl; [reflexivity | now f_equal].
    + rewrite in_app_iff, IH. simpl (replicate 0 _ ++ _).
      split.
      * intros [H | (k & Hk & -> & H)].
        -- destruct run as [|run]; [contradiction|].
           destruct H as [<- | []].
           exists (S run). repeat split; [lia|].
           apply hasMaximalRun_run_cons; [exact Hc | lia | now left].
        -- exists k. repeat split; [exact Hk|].
           apply hasMaximalRun_run_cons; [exact Hc | exact Hk | now right].
      * intros (k & Hk & -> & H).
        apply hasMaximalRun_run_cons in H; [|exact Hc | exact Hk].
        destruct H as [-> | H].
        -- left. destruct run as [|run]; [lia | now left].
        -- right. exists k. auto.
Qed.

(** Every match is at most as long as the longest run. *)
Lemma backtickRuns_longest (s : jsstring) (run : nat) (m : jsstring) :
  In m (backtickRuns run s) -> length m <= longestRunFrom BACKTICK run s.
Proof.
  revert run. induction s as [|c s IH]; intros run; simpl.
  - destruct run; [contradiction|]. intros [<- | []].
    unfold repeatChar. now rewrite length_replicate.
  - destruct (isChar c BACKTICK); [apply IH|].
    rewrite in_app_iff. intros [H | H].
    + destruct run; [contradiction|]. destruct H as [<- | []].
      unfold repeatChar. rewrite length_replicate. lia.
    + apply IH in H. lia.
Qed.

Lemma atLeast_le j l : atLeast j l <= length l.
Proof.
  unfold atLeast. induction l as [|m l IH]; cbn [List.filter length]; [lia|].
  destruct (j <=? length m); cbn [length]; lia.
Qed.

Lemma atLeast_mono j l : atLeast (S j) l <= atLeast j l.
Proof.
  unfold atLeast. induction l as [|x l IH]; cbn [List.filter length]; [lia|].
  destruct (Nat.leb_spec (S j) (length x)), (Nat.leb_spec j (length x));
    cbn [length]; lia.
Qed.

Lemma atLeast_step j l :
  In (replicate j BACKTICK) l -> atLeast (S j) l < atLeast j l.
Proof.
  induction l as [|m l IH]; [contradiction|].
  pose proof (atLeast_mono j l) as Hmono.
  unfold atLeast in *. cbn [List.filter In].
  intros [-> | H].
  - rewrite length_replicate.
    destruct (Nat.leb_spec (S j) j); [lia|].
    rewrite Nat.leb_refl. cbn [length]. lia.
  - specialize (IH H).
    destruct (Nat.leb_spec (S j) (length m)), (Nat.leb_spec j (length m));
      cbn [length]; lia.
Qed.

(** The loop stops within its fuel, on the first length from [j] on that is
    the length of no match. *)
Lemma growDelimiter_spec (matches : list jsstring) (fuel j : nat) :
  atLeast j matches < fuel ->
  exists n, growDelimiter fuel matches (replicate j BACKTICK) = replicate n BACKTICK /\
            j <= n /\
            ~ In (replicate n BACKTICK) matches /\
            forall k, j <= k < n -> In (replicate k BACKTICK) matches.
Proof.
  revert j. induction fuel as [|fuel IH]; intros j Hfuel; [lia|].
  simpl. destruct (includes (replicate j BACKTICK) matches) eqn:E.
  - apply includes_In in E.
    replace (replicate j BACKTICK ++ [BACKTICK]) with (replicate (S j) BACKTICK)
      by (clear; induction j; simpl; [reflexivity | now f_equal]).
    destruct (IH (S j)) as (n & Hn & Hle & Hnot & Hall).
    { pose proof (atLeast_step j matches E). lia. }
    exists n. repeat split; [exact Hn | lia | exact Hnot |].
    intros k Hk. destruct (Nat.eq_dec k j) as [-> | Hne]; [exact E|].
    apply Hall. lia.
  - exists j. repeat split; [lia | | intros k Hk; lia].
    intros H. apply includes_In in H. congruence.
Qed.

(** C2, as the code has it.  The delimiter of inline code is made of [n]
    backticks on each side of the content (newlines turned into spaces, and
    padded with a space where needed), where [n] is the least length from 1 on
    that is the length of no maximal run of backticks in the content: every
    shorter length is the length of such a run.  So [n] is 1 when the content
    has no backtick, and [n] is at most one more than the longest run. *)
Theorem code_delimiter_least (content : jsstring) :
  let trimmed := newlinesToSpaces content in
  let extraSpace := if needsExtraSpace trimmed then [SPACE] else [] in
  exists n,
    codeReplacement content
    = replicate n BACKTICK ++ extraSpace ++ trimmed ++ extraSpace
      ++ replicate n BACKTICK /\
    1 <= n /\
    ~ hasMaximalRun BACKTICK n trimmed /\
    (forall k, 1 <= k < n -> hasMaximalRun BACKTICK k trimmed) /\
    n <= 1 + longestRun BACKTICK trimmed /\
    (~ In BACKTICK trimmed -> n = 1).
Proof.
  intros trimmed extraSpace.
  destruct (growDelimiter_spec (backtickRuns 0 trimmed)
              (S (length (backtickRuns 0 trimmed))) 1)
    as (n & Hn & Hle & Hnot & Hall).
  { pose proof (atLeast_le 1 (backtickRuns 0 trimmed)). lia. }
  assert (Hruns : forall k, 1 <= k ->
            In (replicate k BACKTICK) (backtickRuns 0 trimmed) <->
            hasMaximalRun BACKTICK k trimmed).
  { intros k Hk. rewrite backtickRuns_spec. simpl. split.
    - intros (k' & _ & E & H).
      apply (f_equal (@length _)) in E. rewrite !length_replicate in E.
      now subst k'.
    - intros H. exists k. auto. }
  exists n. repeat split.
  - unfold codeReplacement, codeDelimiter. fold trimmed. fold extraSpace.
    change [BACKTICK] with (replicate 1 BACKTICK). now rewrite Hn.
  - exact Hle.
  - intros H. apply Hnot. now apply Hruns.
  - intros k Hk. apply Hruns; [lia|]. now apply Hall.
  - destruct (Nat.eq_dec n 1) as [-> | Hne]; [lia|].
    assert (In (replicate (n - 1) BACKTICK) (backtickRuns 0 trimmed)) as H
      by (apply Hall; lia).
    apply backtickRuns_longest in H. rewrite length_replicate in H.
    unfold longestRun. lia.
  - intros Hno. destruct (Nat.eq_dec n 1) as [-> | Hne]; [reflexivity|].
    exfalso. apply Hno.
    assert (hasMaximalRun BACKTICK 1 trimmed) as (u & v & E & _)
      by (apply Hruns; [lia | apply Hall; lia]).
    rewrite E. apply in_or_app. right. now left.
Qed.

(** C2 as it is worded fails: a content whose longest run has three
    backticks is delimited by one backtick, not by four. *)
Lemma code_delimiter_not_longest_plus_one :
  let content := lit "a```b" in
  codeReplacement content = lit "`a```b`" /\
  codeDelimiter (newlinesToSpaces content) = lit "`" /\
  longestRun BACKTICK (newlinesToSpaces content) = 3 /\
  length (codeDelimiter (newlinesToSpaces content))
  <> 1 + longestRun BACKTICK (newlinesToSpaces content).
Proof. vm_compute. repeat split; discriminate. Qed.

Lemma code_delimiter_least_witness :
  exists n,
    codeReplacement (lit "a`b")
    = replicate n BACKTICK ++ [] ++ lit "a`b" ++ [] ++ replicate n BACKTICK /\
    1 <= n /\
    ~ hasMaximalRun BACKTICK n (lit "a`b") /\
    (forall k, 1 <= k < n -> hasMaximalRun BACKTICK k (lit "a`b")) /\
    n <= 1 + longestRun BACKTICK (lit "a`b") /\
    (~ In BACKTICK (lit "a`b") -> n = 1).
Proof. exact (code_delimiter_least (lit "a`b")). Defined.

(** ** C3: the length of the fence *)

Section Fence.

Variable c : char.
Hypothesis c_not_LT : isLineTerminator c = false.

Local Abbreviation long := (List.filter (fun n => 3 <=? n)).

Lemma lines_cons (d : char) (s : jsstring) :
  lines (d :: s) =
  if isLineTerminator d then [] :: lines s
  else (d :: hd [] (lines s)) :: tl (lines s).
Proof.
  simpl. destruct (isLineTerminator d); [reflexivity|].
  destruct (lines s); reflexivity.
Qed.

Lemma runLength_first_line (s : jsstring) :
  runLength c (hd [] (lines s)) = runLength c s.
Proof.
  induction s as [|d s IH]; [reflexivity|].
  rewrite lines_cons. unfold runLength in *.
  destruct (isLineTerminator d) eqn:E; simpl.
  - unfold isChar. destruct (N.eqb_spec c d) as [->|]; [congruence | reflexivity].
  - destruct (isChar c d); simpl; [now rewrite IH | reflexivity].
Qed.

Lemma lines_split (s : jsstring) : lines s = hd [] (lines s) :: tl (lines s).
Proof. destruct s as [|d s]; [reflexivity|]. rewrite lines_cons.
       destruct (isLineTerminator d); reflexivity. Qed.

(** The matches found by the loop are the runs of three or more fence
    characters at the start of the lines: from a line start all lines
    count, from the middle of a line the following ones, and inside a
    match the lines that follow the one of the match. *)
Lemma fenceMatches_lines (s : jsstring) :
  fenceMatches (RunOf c) true 0 s = long (map (runLength c) (lines s)) /\
  fenceMatches (RunOf c) false 0 s = long (map (runLength c) (tl (lines s))) /\
  forall prevLT k,
    take (S k) s = replicate (S k) c ->
    fenceMatches (RunOf c) prevLT (S k) s
    = long (map (runLength c) (tl (lines s))).
Proof.
  induction s as [|d s (IHstart & IHmid & IHin)].
  - repeat split; reflexivity.
  - assert (Hmid : fenceMatches (RunOf c) (isLineTerminator d) 0 s
                   = long (map (runLength c) (tl (lines (d :: s))))).
    { rewrite lines_cons. destruct (isLineTerminator d); simpl tl.
      - exact IHstart.
      - exact IHmid. }
    repeat split.
    + (* at a line start *)
      cbn [fenceMatches matchLength]. rewrite andb_true_l.
      rewrite (lines_split (d :: s)). cbn [map List.filter].
      rewrite runLength_first_line.
      destruct (Nat.leb_spec 3 (runLength c (d :: s))) as [Hlong | Hshort].
      * replace (runLength c (d :: s) =? 0) with false
          by (symmetry; apply Nat.eqb_neq; lia).
        cbn [negb]. f_equal.
        assert (d = c /\ runLength c (d :: s) = S (runLength c s)) as [-> Hrun].
        { unfold runLength in *. simpl in *. unfold isChar in *.
          destruct (N.eqb_spec c d); simpl in *; [auto | lia]. }
        rewrite Hrun.
        destruct (runLength c s) as [|k] eqn:Ek; [lia|].
        replace (S (S k) - 1) with (S k) by lia.
        rewrite c_not_LT. rewrite IHin.
        -- rewrite lines_cons, c_not_LT. reflexivity.
        -- unfold runLength in Ek.
           rewrite <- (takeWhile_dropWhile (isChar c) s) at 1.
           rewrite take_app_length' by (symmetry; exact Ek).
           rewrite <- Ek.
           apply Forall_isChar_replicate, takeWhile_Forall.
      * rewrite Nat.eqb_refl. cbn [negb]. exact Hmid.
    + (* in the middle of a line *)
      exact Hmid.
    + (* inside a match *)
      intros prevLT k Hk. cbn [fenceMatches].
      simpl in Hk. injection Hk as -> Hk.
      rewrite c_not_LT, lines_cons, c_not_LT. simpl tl.
      destruct k as [|k].
      * exact IHmid.
      * now apply IHin.
Qed.

Lemma fenceSize_fold (xs : list nat) (a : nat) :
  3 <= a ->
  fold_left (fun fenceSize len => if fenceSize <=? len then len + 1 else fenceSize)
            (long xs) a
  = Nat.max a (if foldr Nat.max 0 xs <? 3 then 0 else 1 + foldr Nat.max 0 xs).
Proof.
  revert a. induction xs as [|x xs IH]; intros a Ha;
    cbn [List.filter fold_left foldr].
  - simpl. lia.
  - destruct (Nat.leb_spec 3 x); cbn [fold_left].
    + rewrite IH by (destruct (Nat.leb_spec a x); lia).
      destruct (Nat.leb_spec a x), (Nat.ltb_spec (foldr Nat.max 0 xs) 3),
        (Nat.ltb_spec (Nat.max x (foldr Nat.max 0 xs)) 3); lia.
    + rewrite IH by exact Ha.
      destruct (Nat.ltb_spec (foldr Nat.max 0 xs) 3),
        (Nat.ltb_spec (Nat.max x (foldr Nat.max 0 xs)) 3); lia.
Qed.

(** The loop computes the specified length. *)
Lemma fenceSizeFor_specified (code : jsstring) :
  fenceSizeFor (RunOf c) code = specifiedFenceLength c code.
Proof.
  unfold fenceSizeFor, specifiedFenceLength, longestLineStartRun.
  destruct (fenceMatches_lines code) as (-> & _).
  rewrite fenceSize_fold by lia.
  destruct (Nat.ltb_spec (foldr Nat.max 0 (map (runLength c) (lines code))) 3); lia.
Qed.

Lemma line_run_below_specified (code line : jsstring) :
  In line (lines code) -> runLength c line < specifiedFenceLength c code.
Proof.
  intros Hin. unfold specifiedFenceLength, longestLineStartRun.
  assert (runLength c line <= foldr Nat.max 0 (map (runLength c) (lines code))).
  { induction (lines code) as [|l ls IH]; [contradiction|].
    simpl. destruct Hin as [-> | Hin]; [lia|]. specialize (IH Hin). lia. }
  destruct (Nat.ltb_spec (foldr Nat.max 0 (map (runLength c) (lines code))) 3); lia.
Qed.

End Fence.

Lemma fencePattern_ordinary (c : char) :
  isSyntaxCharacter c = false -> fencePattern c = RunOf c.
Proof.
  unfold isSyntaxCharacter, fencePattern, isChar, BACKSLASH.
  let all := eval vm_compute in (lit "^$\.*+?()[]{}|") in
  change (lit "^$\.*+?()[]{}|") with all.
  let some := eval vm_compute in (lit "^$*+?()[|") in
  change (lit "^$*+?()[|") with some.
  cbn [existsb].
  intros H. repeat (apply orb_false_elim in H as [? H]).
  repeat match goal with E : (c =? _)%N = false |- _ => rewrite E; clear E end.
  reflexivity.
Qed.

(** The length of the fence where the fence character stands for itself.
    With a fence option that starts with the character [c], a character
    that stands for itself in a pattern and is no line terminator (as the
    backtick and the tilde are), the replacement of a fenced code block opens
    and closes with [c] repeated [L] times, where [L] is 3 when no line of the
    code starts with three or more [c], and one more than the longest run of
    [c] at the start of a line otherwise; every run of [c] at the start of a
    line of the code is shorter than [L]. *)
Theorem fenced_fence_length (node : ExtendedNode) (options : Options)
    (c : char) (rest : jsstring) :
  fence options = c :: rest ->
  isSyntaxCharacter c = false ->
  isLineTerminator c = false ->
  let codeElem := codeElemOf (self (located node)) in
  let code := textContent codeElem in
  let language :=
    languageOf (default [] (getAttribute (lit "class") (attributes codeElem))) in
  let L := specifiedFenceLength c code in
  (forall content st,
      replacement fencedCodeBlock content node options st
      = (Normal ([LF; LF] ++ replicate L c ++ language ++ [LF] ++
                 dropFinalNewline code ++
                 [LF] ++ replicate L c ++ [LF; LF]), st)) /\
  (forall line, In line (lines code) -> runLength c line < L).
Proof.
  intros Hfence Hsyntax HLT codeElem code language L. split.
  - intros content st. cbn [replacement fencedCodeBlock]. unfold lift.
    unfold fencedCodeBlockReplacement, fenceCharOf. rewrite Hfence.
    rewrite (fencePattern_ordinary c Hsyntax).
    rewrite (fenceSizeFor_specified c HLT). reflexivity.
  - intros line Hline. now apply line_run_below_specified.
Qed.

Lemma fenced_fence_length_witness :
  replacement fencedCodeBlock []
    (Sample.child Sample.options [] Sample.fencedPre []) Sample.options
    emptyReferences
  = (Normal ([LF; LF] ++ lit "````" ++ [LF] ++
             lit "```" ++ [LF] ++ lit "Code" ++ [LF] ++ lit "```" ++
             [LF] ++ lit "````" ++ [LF; LF]),
     emptyReferences).
Proof.
  exact (proj1 (fenced_fence_length
                  (Sample.child Sample.options [] Sample.fencedPre [])
                  Sample.options BACKTICK (lit "``")
                  eq_refl eq_refl eq_refl) [] emptyReferences).
Defined.

(** C3, on a fence whose first character has a meaning in a pattern.  The
    character goes into the pattern as it is.  With the fence of three dots
    the pattern takes any three or more characters at the start of a line: for
    the code [abcd], in which no line starts with a dot, the fences are five
    dots where the specification gives three.  With the fence of three
    asterisks the pattern is not well formed and the replacement throws. *)
Theorem fenced_fence_character_unescaped :
  specifiedFenceLength (ch ".") (lit "abcd") = 3 /\
  fencedCodeBlockReplacement
    (Sample.child (More.withFence (lit "...")) [] More.plainPre [])
    (More.withFence (lit "..."))
  = Normal ([LF; LF] ++ lit "....." ++ [LF] ++ lit "abcd" ++ [LF] ++ lit "....."
            ++ [LF; LF]) /\
  Checks.rendered (More.withFence (lit "...")) [More.plainPre]
  = Normal (lit "....." ++ [LF] ++ lit "abcd" ++ [LF] ++ lit ".....") /\
  Checks.rendered (More.withFence (lit "***")) [More.plainPre]
  = Throw (SyntaxError (lit "Invalid regular expression")).
Proof. repeat split; vm_compute; reflexivity. Qed.

(** ** C5: the precedence of rule resolution *)

Lemma findRule_app (l1 l2 : list Rule) (node : ExtendedNode) (o : Options) :
  findRule (l1 ++ l2) node o =
  match findRule l1 node o with
  | Normal None => findRule l2 node o
  | found => found
  end.
Proof.
  induction l1 as [|rule l1 IH]; simpl; [reflexivity|].
  destruct (filterValue rule node o) as [[|]|e]; auto.
Qed.

(** [findRule] returns the first rule whose filter matches. *)
Lemma findRule_first (rules : list Rule) (node : ExtendedNode) (o : Options)
    (rule : Rule) :
  findRule rules node o = Normal (Some rule) <->
  exists earlier later,
    rules = earlier ++ rule :: later /\
    Forall (fun x => filterValue x node o = Normal false) earlier /\
    filterValue rule node o = Normal true.
Proof.
  induction rules as [|x rules IH]; simpl.
  - split; [discriminate|]. intros (earlier & later & E & _).
    destruct earlier; discriminate.
  - destruct (filterValue x node o) as [[|]|e] eqn:Hx.
    + split.
      * intros [= <-]. exists [], rules. auto.
      * intros ([|y earlier] & later & E & Hall & Hrule).
        -- now injection E as -> _.
        -- injection E as <- _. inversion Hall; congruence.
    + rewrite IH. split.
      * intros (earlier & later & -> & Hall & Hrule).
        exists (x :: earlier), later. auto.
      * intros ([|y earlier] & later & E & Hall & Hrule).
        -- injection E as <- _. congruence.
        -- injection E as <- ->. inversion Hall; subst.
           exists earlier, later. auto.
    + split; [discriminate|].
      intros ([|y earlier] & later & E & Hall & Hrule).
      * injection E as <- _. congruence.
      * injection E as <- _. inversion Hall; congruence.
Qed.

(** With a filter on every rule the search does not throw. *)
Lemma findRule_total (rules : list Rule) (node : ExtendedNode) (o : Options) :
  Forall (fun x => filter x <> None) rules ->
  exists found, findRule rules node o = Normal found.
Proof.
  induction 1 as [|x rules Hx _ (found & IH)]; simpl; [eauto|].
  unfold filterValue. destruct (filter x) as [[tag|tags|f]|]; [| | |contradiction].
  - destruct (JS.eqb _ _); eauto.
  - destruct (includes _ _); eauto.
  - destruct (f node o); eauto.
Qed.

Lemma forNode_chain (r : Rules) (node : ExtendedNode) :
  isBlank node = false -> retains r node = false ->
  forNode r node =
  match findRule (array r ++ _keep r ++ _remove r) node (options r) with
  | Normal (Some rule) => Normal rule
  | Normal None => Normal (defaultRule r)
  | Throw e => Throw e
  end.
Proof.
  intros Hblank Hret. unfold forNode, retains in *. rewrite Hblank.
  rewrite !findRule_app.
  destruct (htmlRetentionMode (options r)); cbn [andb] in *;
    try rewrite Hret; cbn [andb];
    destruct (findRule (array r) node (options r)) as [[?|]|?]; try reflexivity;
    destruct (findRule (_keep r) node (options r)) as [[?|]|?]; try reflexivity;
    destruct (findRule (_remove r) node (options r)) as [[?|]|?]; reflexivity.
Qed.

(** C5.  Rule resolution follows one fixed precedence: the blank rule for a
    blank node; else the retention replacement of the mode for an unsupported
    element when retention is on; else the first rule whose filter matches
    among the rule list, then the keep rules, then the remove rules; else the
    default rule.  [add] puts a rule in front of the rule list, [keep] and
    [remove] put theirs in front of their lists, so that an added rule whose
    filter matches is chosen before every rule that was there.  With a filter
    on every rule, resolution returns a rule. *)
Theorem forNode_precedence (r : Rules) (node : ExtendedNode) :
  (isBlank node = true -> forNode r node = Normal (blankRule r)) /\
  (isBlank node = false -> htmlRetentionMode (options r) = preserveAll ->
   isUnsupportedElement node = true ->
   forNode r node = Normal {| filter := None;
                              replacement := pure (rulesKeepReplacement r);
                              append := None |}) /\
  (isBlank node = false -> htmlRetentionMode (options r) = markdownIncludingHtml ->
   isUnsupportedElement node = true ->
   forNode r node
   = Normal {| filter := None;
               replacement := pure (rulesMarkdownIncludingHtmlReplacement r);
               append := None |}) /\
  (isBlank node = false -> retains r node = false ->
   forNode r node =
   match findRule (array r ++ _keep r ++ _remove r) node (options r) with
   | Normal (Some rule) => Normal rule
   | Normal None => Normal (defaultRule r)
   | Throw e => Throw e
   end) /\
  (forall rules rule,
      findRule rules node (options r) = Normal (Some rule) <->
      exists earlier later,
        rules = earlier ++ rule :: later /\
        Forall (fun x => filterValue x node (options r) = Normal false) earlier /\
        filterValue rule node (options r) = Normal true) /\
  (forall key rule,
      array (add key rule r) = rule :: array r /\
      _keep (add key rule r) = _keep r /\ _remove (add key rule r) = _remove r) /\
  (forall key rule,
      isBlank node = false -> retains r node = false ->
      filterValue rule node (options r) = Normal true ->
      forNode (add key rule r) node = Normal rule) /\
  (forall f,
      exists kept, _keep (keep f r) = kept :: _keep r /\ filter kept = Some f /\
                   array (keep f r) = array r /\ _remove (keep f r) = _remove r) /\
  (forall f,
      exists removed, _remove (remove f r) = removed :: _remove r /\
                      filter removed = Some f /\
                      array (remove f r) = array r /\ _keep (remove f r) = _keep r) /\
  (Forall (fun x => filter x <> None) (array r ++ _keep r ++ _remove r) ->
   exists rule, forNode r node = Normal rule).
Proof.
  repeat apply conj.
  - intros H. unfold forNode. now rewrite H.
  - intros H Hmode Hun. unfold forNode. now rewrite H, Hmode, Hun.
  - intros H Hmode Hun. unfold forNode. now rewrite H, Hmode, Hun.
  - apply forNode_chain.
  - intros rules rule. apply findRule_first.
  - intros key rule. repeat split.
  - intros key rule Hblank Hret Hrule.
    rewrite forNode_chain by assumption.
    cbn [add withArray array options app findRule]. now rewrite Hrule.
  - intros f. eexists. repeat split.
  - intros f. eexists. repeat split.
  - intros Hall. unfold forNode.
    destruct (isBlank node); [eauto|].
    destruct (_ && _); [eauto|]. destruct (_ && _); [eauto|].
    apply Forall_app in Hall as [Ha Hall]. apply Forall_app in Hall as [Hk Hr].
    destruct (findRule_total (array r) node (options r) Ha) as ([x|] & ->); [eauto|].
    destruct (findRule_total (_keep r) node (options r) Hk) as ([x|] & ->); [eauto|].
    destruct (findRule_total (_remove r) node (options r) Hr) as ([x|] & ->); eauto.
Qed.

Lemma forNode_precedence_witness :
  forNode (add (lit "userEmphasis") Sample.userEmphasis
               (newRules Sample.options Sample.rules)) Sample.emNode
  = Normal Sample.userEmphasis.
Proof.
  refine (proj1 (proj2 (proj2 (proj2 (proj2 (proj2 (proj2
            (forNode_precedence (newRules Sample.options Sample.rules)
                                Sample.emNode)))))))
            (lit "userEmphasis") Sample.userEmphasis _ _ _);
    reflexivity.
Defined.

(** ** C6: the anchored substitutions of escape *)

Lemma safeStart_backslash (s : jsstring) : safeStart (BACKSLASH :: s).
Proof. reflexivity. Qed.

Lemma replaceChar_safeStart (c d : char) (s : jsstring) :
  safeStart s -> safeStart (replaceChar c [BACKSLASH; d] s).
Proof.
  destruct s as [|x s]; simpl; [auto|].
  destruct (isChar x c); simpl; [reflexivity | auto].
Qed.

Lemma escapeAngles_safeStart (s : jsstring) :
  safeStart s -> safeStart (escapeAngles false s).
Proof.
  destruct s as [|x s]; simpl; [auto|].
  destruct (isChar x (ch "<") && _); simpl; [reflexivity | auto].
Qed.

Lemma safeStart_first (s : jsstring) (l : jsstring) :
  safeStart s ->
  Forall (fun c => startsAnchoredPattern c = true) l ->
  l <> [] ->
  startsWith l s = false.
Proof.
  intros Hs Hl Hne. unfold startsWith. apply bool_decide_eq_false.
  destruct l as [|c l]; [contradiction|]. inversion Hl; subst.
  destruct s as [|x s]; simpl; [discriminate|].
  intros [= -> _]. simpl in Hs. congruence.
Qed.

Lemma escapeAtStart_safe (l : jsstring) (s : jsstring) :
  safeStart s ->
  Forall (fun c => startsAnchoredPattern c = true) l -> l <> [] ->
  escapeAtStart (startsWith l) s = s.
Proof.
  intros Hs Hl Hne. unfold escapeAtStart. now rewrite safeStart_first.
Qed.

Lemma escapeHashes_safe (s : jsstring) :
  safeStart s -> escapeAtStart startsWithHashes s = s.
Proof.
  intros Hs. unfold escapeAtStart, startsWithHashes, runLength.
  destruct s as [|x s]; [reflexivity|]. cbn [takeWhile safeStart] in *.
  destruct (isChar (ch "#") x) eqn:E; [|reflexivity].
  apply N.eqb_eq in E. subst x. vm_compute in Hs. discriminate Hs.
Qed.

Lemma escapeOrdinal_safe (s : jsstring) :
  safeStart s -> escapeOrdinal s = s.
Proof.
  intros Hs. unfold escapeOrdinal.
  destruct s as [|x s]; [reflexivity|]. cbn [takeWhile safeStart] in *.
  unfold startsAnchoredPattern in Hs. apply orb_false_elim in Hs as [_ Hd].
  now rewrite Hd.
Qed.

Lemma escape_unfold (s : jsstring) :
  escape s
  = escapeOrdinal
      (escapeAtStart (startsWith (lit ">"))
         (escapeAngles false
            (replaceChar (ch "]") [BACKSLASH; ch "]"]
               (replaceChar (ch "[") [BACKSLASH; ch "["]
                  (escapeAtStart (startsWith (lit "~~~"))
                     (replaceChar BACKTICK [BACKSLASH; BACKTICK]
                        (escapeAtStart startsWithHashes
                           (escapeAtStart (startsWith (lit "="))
                              (escapeAtStart (startsWith (lit "+ "))
                                 (escapeAtStart (startsWith (lit "-"))
                                    (replaceChar (ch "_") [BACKSLASH; ch "_"]
                                       (replaceChar (ch "*") [BACKSLASH; ch "*"]
                                          (replaceChar BACKSLASH
                                             [BACKSLASH; BACKSLASH] s))))))))))))).
Proof. reflexivity. Qed.

Lemma escapePlus_safe (t : jsstring) :
  safeStart t -> escapeAtStart (startsWith (lit "+ ")) t = t.
Proof.
  destruct t as [|x t]; intros Ht; [reflexivity|].
  unfold escapeAtStart, startsWith.
  rewrite bool_decide_eq_false_2; [reflexivity|].
  cbn [safeStart] in Ht. intros E. destruct t; [discriminate|].
  injection E as -> _. discriminate Ht.
Qed.

(** From a safe text on, the rest of the substitutions reduces to the
    unanchored ones. *)
Lemma escape_safe (s : jsstring) :
  safeStart s -> escape s = escapeUnanchored s.
Proof.
  intros Hs. rewrite escape_unfold. unfold escapeUnanchored.
  pose proof (replaceChar_safeStart BACKSLASH BACKSLASH s Hs) as H1.
  pose proof (replaceChar_safeStart (ch "*") (ch "*") _ H1) as H2.
  pose proof (replaceChar_safeStart (ch "_") (ch "_") _ H2) as H3.
  rewrite (escapeAtStart_safe (lit "-") _ H3)
    by (repeat constructor || discriminate).
  rewrite (escapePlus_safe _ H3).
  rewrite (escapeAtStart_safe (lit "=") _ H3)
    by (repeat constructor || discriminate).
  rewrite (escapeHashes_safe _ H3).
  pose proof (replaceChar_safeStart BACKTICK BACKTICK _ H3) as H4.
  rewrite (escapeAtStart_safe (lit "~~~") _ H4)
    by (repeat constructor || discriminate).
  pose proof (replaceChar_safeStart (ch "[") (ch "[") _ H4) as H5.
  pose proof (replaceChar_safeStart (ch "]") (ch "]") _ H5) as H6.
  pose proof (escapeAngles_safeStart _ H6) as H7.
  rewrite (escapeAtStart_safe (lit ">") _ H7)
    by (repeat constructor || discriminate).
  now rewrite (escapeOrdinal_safe _ H7).
Qed.

(** How one substitution passes over a first character that it does not
    touch, and what an anchored one does with the start it looks at. *)
Lemma replaceChar_cons_ne (c d : char) (r s : jsstring) :
  isChar d c = false -> replaceChar c r (d :: s) = d :: replaceChar c r s.
Proof. intros H. cbn [replaceChar]. now rewrite H. Qed.

Lemma escapeAngles_cons_ne (d : char) (s : jsstring) :
  isChar d (ch "<") = false ->
  escapeAngles false (d :: s) = d :: escapeAngles false s.
Proof. intros H. cbn [escapeAngles]. now rewrite H. Qed.

Lemma escapeAtStart_hit (matches : jsstring -> bool) (s : jsstring) :
  matches s = true -> escapeAtStart matches s = BACKSLASH :: s.
Proof. intros H. unfold escapeAtStart. now rewrite H. Qed.

Lemma escapeAtStart_miss (matches : jsstring -> bool) (s : jsstring) :
  matches s = false -> escapeAtStart matches s = s.
Proof. intros H. unfold escapeAtStart. now rewrite H. Qed.

Lemma escapeOrdinal_backslash (s : jsstring) :
  escapeOrdinal (BACKSLASH :: s) = BACKSLASH :: s.
Proof. reflexivity. Qed.

(** The substitutions one after the other over a text whose first
    characters are given: each passes over the characters it does not touch
    and the anchored ones fire or not by what they find at the start. *)
Ltac pass_start :=
  repeat first
    [ rewrite replaceChar_cons_ne by reflexivity
    | rewrite escapeAngles_cons_ne by reflexivity
    | rewrite escapeAtStart_hit by reflexivity
    | rewrite escapeAtStart_miss by reflexivity
    | rewrite escapeOrdinal_backslash ].

Lemma escape_leading_dash (rest : jsstring) :
  escape (lit "-" ++ rest) = lit "\-" ++ escapeUnanchored rest.
Proof.
  rewrite escape_unfold. unfold escapeUnanchored. cbn [app lit map
    list_ascii_of_string]. pass_start. reflexivity.
Qed.

Lemma escape_leading_plus (rest : jsstring) :
  escape (lit "+ " ++ rest) = lit "\+ " ++ escapeUnanchored rest.
Proof.
  rewrite escape_unfold. unfold escapeUnanchored.
  change (lit "+ " ++ rest) with (ch "+" :: SPACE :: rest).
  pass_start. reflexivity.
Qed.

Lemma escape_leading_equals (rest : jsstring) :
  escape (lit "=" ++ rest) = lit "\=" ++ escapeUnanchored rest.
Proof.
  rewrite escape_unfold. unfold escapeUnanchored.
  change (lit "=" ++ rest) with (ch "=" :: rest).
  pass_start. reflexivity.
Qed.

Lemma escape_leading_tildes (rest : jsstring) :
  escape (lit "~~~" ++ rest) = lit "\~~~" ++ escapeUnanchored rest.
Proof.
  rewrite escape_unfold. unfold escapeUnanchored.
  change (lit "~~~" ++ rest) with (ch "~" :: ch "~" :: ch "~" :: rest).
  pass_start. reflexivity.
Qed.

Lemma escape_leading_greater (rest : jsstring) :
  escape (lit ">" ++ rest) = lit "\>" ++ escapeUnanchored rest.
Proof.
  rewrite escape_unfold. unfold escapeUnanchored.
  change (lit ">" ++ rest) with (ch ">" :: rest).
  pass_start. reflexivity.
Qed.

Lemma escape_leading_hashes (k : nat) (rest : jsstring) :
  1 <= k <= 6 ->
  escape (replicate k (ch "#") ++ lit " " ++ rest)
  = lit "\" ++ replicate k (ch "#") ++ lit " " ++ escapeUnanchored rest.
Proof.
  intros Hk. rewrite escape_unfold. unfold escapeUnanchored.
  change (lit " " ++ rest) with (SPACE :: rest).
  change (lit " " ++ ?x) with (SPACE :: x).
  destruct k as [|[|[|[|[|[|[|k]]]]]]]; try lia;
    cbn [replicate app]; pass_start; reflexivity.
Qed.

Lemma replaceChar_app_absent (c : char) (r p s : jsstring) :
  ~ In c p -> replaceChar c r (p ++ s) = p ++ replaceChar c r s.
Proof.
  induction p as [|d p IH]; intros H; [reflexivity|].
  cbn [app replaceChar].
  destruct (isChar d c) eqn:E.
  - apply N.eqb_eq in E. subst d. exfalso. apply H. now left.
  - cbn [app]. f_equal. apply IH. intros Hin. apply H. now right.
Qed.

Lemma escapeAngles_app_absent (p s : jsstring) :
  ~ In (ch "<") p -> escapeAngles false (p ++ s) = p ++ escapeAngles false s.
Proof.
  induction p as [|d p IH]; intros H; [reflexivity|].
  cbn [app escapeAngles].
  destruct (isChar d (ch "<")) eqn:E.
  - apply N.eqb_eq in E. subst d. exfalso. apply H. now left.
  - cbn [andb]. f_equal. apply IH. intros Hin. apply H. now right.
Qed.

Lemma digits_without (c : char) (digits : jsstring) :
  isDigit c = false -> Forall (fun d => isDigit d = true) digits -> ~ In c digits.
Proof.
  intros Hc Hd Hin. rewrite List.Forall_forall in Hd.
  specialize (Hd c Hin). congruence.
Qed.

Lemma startsWith_digit_miss (p : jsstring) (d : char) (s : jsstring) :
  isDigit d = true ->
  match p with c :: _ => isDigit c | [] => true end = false ->
  escapeAtStart (startsWith p) (d :: s) = d :: s.
Proof.
  intros Hd Hc. destruct p as [|c l]; [discriminate|].
  unfold escapeAtStart, startsWith.
  rewrite bool_decide_eq_false_2; [reflexivity|].
  cbn [length take]. intros [= -> _]. congruence.
Qed.

Lemma startsWithHashes_digit_miss (d : char) (s : jsstring) :
  isDigit d = true -> escapeAtStart startsWithHashes (d :: s) = d :: s.
Proof.
  intros Hd. unfold escapeAtStart, startsWithHashes, runLength.
  cbn [takeWhile].
  destruct (isChar (ch "#") d) eqn:E; [|reflexivity].
  apply N.eqb_eq in E. subst d. discriminate Hd.
Qed.

Lemma takeWhile_app_stop (p : char -> bool) (u : jsstring) (c : char)
    (v : jsstring) :
  Forall (fun d => p d = true) u -> p c = false ->
  takeWhile p (u ++ c :: v) = u.
Proof.
  induction 1 as [|d u Hd _ IH]; intros Hc; cbn [app takeWhile].
  - now rewrite Hc.
  - rewrite Hd. f_equal. now apply IH.
Qed.

Lemma escapeOrdinal_hit (digits rest : jsstring) :
  digits <> [] -> Forall (fun d => isDigit d = true) digits ->
  escapeOrdinal (digits ++ lit ". " ++ rest)
  = digits ++ lit "\. " ++ rest.
Proof.
  intros Hne Hd. unfold escapeOrdinal.
  change (lit ". " ++ rest) with (ch "." :: SPACE :: rest).
  rewrite (takeWhile_app_stop isDigit digits) by (exact Hd || reflexivity).
  rewrite drop_app_length, take_app_length.
  assert ((1 <=? length digits) = true) as ->.
  { apply Nat.leb_le. destruct digits; [contradiction | cbn; lia]. }
  reflexivity.
Qed.

Lemma escape_leading_ordinal (digits rest : jsstring) :
  digits <> [] -> Forall (fun d => isDigit d = true) digits ->
  escape (digits ++ lit ". " ++ rest)
  = digits ++ lit "\. " ++ escapeUnanchored rest.
Proof.
  intros Hne Hd. rewrite escape_unfold. unfold escapeUnanchored.
  destruct digits as [|d digits]; [contradiction|].
  inversion Hd as [|? ? Hd1 Hd2]; subst.
  change (lit ". " ++ rest) with (ch "." :: SPACE :: rest).
  change (lit "\. " ++ ?x) with (BACKSLASH :: ch "." :: SPACE :: x).
  cbn [app].
  rewrite (replaceChar_cons_ne BACKSLASH d)
    by (unfold isChar; apply N.eqb_neq; intros ->; discriminate Hd1).
  rewrite (replaceChar_app_absent BACKSLASH)
    by (now apply digits_without).
  pass_start.
  rewrite (replaceChar_cons_ne (ch "*") d)
    by (unfold isChar; apply N.eqb_neq; intros ->; discriminate Hd1).
  rewrite (replaceChar_app_absent (ch "*")) by (now apply digits_without).
  pass_start.
  rewrite (replaceChar_cons_ne (ch "_") d)
    by (unfold isChar; apply N.eqb_neq; intros ->; discriminate Hd1).
  rewrite (replaceChar_app_absent (ch "_")) by (now apply digits_without).
  pass_start.
  rewrite !startsWith_digit_miss by (exact Hd1 || reflexivity).
  rewrite startsWithHashes_digit_miss by exact Hd1.
  rewrite (replaceChar_cons_ne BACKTICK d)
    by (unfold isChar; apply N.eqb_neq; intros ->; discriminate Hd1).
  rewrite (replaceChar_app_absent BACKTICK) by (now apply digits_without).
  pass_start.
  rewrite !startsWith_digit_miss by (exact Hd1 || reflexivity).
  rewrite (replaceChar_cons_ne (ch "[") d)
    by (unfold isChar; apply N.eqb_neq; intros ->; discriminate Hd1).
  rewrite (replaceChar_app_absent (ch "[")) by (now apply digits_without).
  pass_start.
  rewrite (replaceChar_cons_ne (ch "]") d)
    by (unfold isChar; apply N.eqb_neq; intros ->; discriminate Hd1).
  rewrite (replaceChar_app_absent (ch "]")) by (now apply digits_without).
  pass_start.
  rewrite (escapeAngles_cons_ne d)
    by (unfold isChar; apply N.eqb_neq; intros ->; discriminate Hd1).
  rewrite escapeAngles_app_absent by (now apply digits_without).
  pass_start.
  rewrite !startsWith_digit_miss by (exact Hd1 || reflexivity).
  change (d :: digits ++ ch "." :: SPACE :: ?x)
    with ((d :: digits) ++ lit ". " ++ x).
  rewrite escapeOrdinal_hit by (discriminate || exact Hd).
  reflexivity.
Qed.




(** ** C7: the inputs of render *)

Lemma canConvert_isStringOrNode (input : JSValue) :
  canConvert input = true <-> isStringOrNode input.
Proof.
  destruct input as [| |s|shown|description|[t|] shown]; simpl;
    try (split; [discriminate | contradiction]); try tauto.
  rewrite !orb_true_iff, !N.eqb_eq. tauto.
Qed.

(** C7, as the code has it.  For an input that is neither a string nor a
    node of type element, document or fragment, [render] throws before
    anything else runs: nothing is returned and the accumulator is not
    touched.  What is thrown is a type error whose message starts with the
    input converted to a string, when the input converts to a string, as
    [null], [undefined], numbers and booleans do; when the conversion throws,
    as it does for a symbol, what it throws.  For the empty string [render]
    returns the empty string, whatever the parser and the rules are, without
    touching the accumulator. *)
Theorem render_input_check (RootNode : JSValue -> Options -> Node)
    (rules : Rules) (input : JSValue) (st : ReferenceState) :
  ~ isStringOrNode input ->
  render RootNode rules input st
  = (match toString input with
     | Normal shown =>
         Throw (TypeError
                  (shown ++
                   lit " is not a string, or an element/document/fragment node."))
     | Throw e => Throw e
     end, st) /\
  (forall output st', render RootNode rules input st <> (Normal output, st')) /\
  toString JSNull = Normal (lit "null") /\
  toString JSUndefined = Normal (lit "undefined") /\
  (forall shown, toString (JSPrimitive shown) = Normal shown) /\
  (forall description,
      toString (JSSymbol description)
      = Throw (TypeError (lit "Cannot convert a Symbol value to a string"))) /\
  (forall RootNode' rules' st',
      render RootNode' rules' (JSString []) st' = (Normal [], st')).
Proof.
  intros Hinput.
  assert (canConvert input = false) as Hcan.
  { destruct (canConvert input) eqn:E; [|reflexivity].
    apply canConvert_isStringOrNode in E. contradiction. }
  assert (Hrender :
            render RootNode rules input st
            = (match toString input with
               | Normal shown =>
                   Throw (TypeError
                            (shown ++
                             lit " is not a string, or an element/document/fragment node."))
               | Throw e => Throw e
               end, st)).
  { unfold render. rewrite Hcan. cbn [negb].
    destruct (toString input); reflexivity. }
  split; [exact Hrender|].
  split; [|repeat split].
  intros output st'. rewrite Hrender.
  destruct (toString input); discriminate.
Qed.

Lemma render_input_check_witness :
  render Sample.parsedThreeLinks (newRules Sample.options Sample.rules)
         JSNull emptyReferences
  = (Throw (TypeError
              (lit "null is not a string, or an element/document/fragment node.")),
     emptyReferences).
Proof.
  exact (proj1 (render_input_check Sample.parsedThreeLinks
                  (newRules Sample.options Sample.rules) JSNull emptyReferences
                  (fun H => H))).
Defined.

(** C7 as it is worded fails: for a symbol the message of the error does
    not name the value. *)
Lemma render_symbol_not_named :
  render Sample.parsedThreeLinks (newRules Sample.options Sample.rules)
         (JSSymbol (lit "s")) emptyReferences
  = (Throw (TypeError (lit "Cannot convert a Symbol value to a string")),
     emptyReferences) /\
  render Sample.parsedThreeLinks (newRules Sample.options Sample.rules)
         (JSSymbol (lit "s")) emptyReferences
  <> (Throw (TypeError
               (lit "Symbol(s) is not a string, or an element/document/fragment node.")),
      emptyReferences).
Proof. split; [reflexivity | discriminate]. Qed.

(** ** C8: the end of postProcess *)

Lemma dropWhileEnd_head (p : char -> bool) (s : jsstring) (c : char) :
  head (dropWhileEnd p s) = Some c -> head s = Some c.
Proof.
  intros H. rewrite (dropWhileEnd_split p s).
  destruct (dropWhileEnd p s); [discriminate | exact H].
Qed.

(** C8, as the code has it.  After the texts of the append hooks are joined
    to the output, [postProcess] removes the leading run of tabs, carriage
    returns and newlines and the trailing run of white space: what it
    returns does not start with a tab, a carriage return or a newline and
    does not end with white space. *)
Theorem postProcess_trims (rules : Rules) (output : jsstring)
    (st : ReferenceState) :
  postProcess rules output st
  = match appendAll (array rules) (options rules) output st with
    | (Normal appended, st') => (Normal (trimOutput appended), st')
    | (Throw e, st') => (Throw e, st')
    end /\
  forall appended,
    let s := trimOutput appended in
    (exists removedStart removedEnd,
        appended = removedStart ++ s ++ removedEnd /\
        Forall (fun c => isTabCrLf c = true) removedStart /\
        Forall (fun c => isWhiteSpace c = true) removedEnd) /\
    match head s with Some c => isTabCrLf c = false | None => True end /\
    match last s with Some c => isWhiteSpace c = false | None => True end.
Proof.
  split; [reflexivity|].
  intros appended s. subst s. unfold trimOutput. repeat split.
  - exists (takeWhile isTabCrLf appended),
           (rev (takeWhile isWhiteSpace (rev (dropWhile isTabCrLf appended)))).
    repeat split.
    + rewrite <- dropWhileEnd_split. now rewrite takeWhile_dropWhile.
    + apply takeWhile_Forall.
    + apply List.Forall_rev, takeWhile_Forall.
  - destruct (head _) as [c|] eqn:E; [|exact I].
    apply dropWhileEnd_head in E. now apply dropWhile_head in E.
  - destruct (last _) as [c|] eqn:E; [|exact I].
    now apply dropWhileEnd_last in E.
Qed.

(** C8 as it is worded fails: a space at the start of the output is kept,
    and so is a no-break space at the start of a rendered text. *)
Lemma postProcess_keeps_leading_space :
  postProcess (newRules Sample.options Sample.rules) (lit " a") emptyReferences
  = (Normal (lit " a"), emptyReferences) /\
  render Sample.parsedNoBreakSpace (newRules Sample.options Sample.rules)
         (JSString (lit "&nbsp;1. First")) emptyReferences
  = (Normal (160%N :: lit "1. First"), emptyReferences) /\
  isWhiteSpace 160 = true.
Proof. vm_compute. repeat split. Qed.

(** ** C9: emphasis and strong with empty content *)

Lemma dropWhile_nil_Forall (p : char -> bool) (s : jsstring) :
  dropWhile p s = [] -> Forall (fun c => p c = true) s.
Proof.
  induction s as [|c s IH]; simpl; [constructor|].
  destruct (p c) eqn:E; [|discriminate]. intros H. constructor; auto.
Qed.

(** The trimmed content is empty exactly when the content is white space
    only. *)
Lemma trim_empty (content : jsstring) :
  nonEmpty (trim content) = negb (isWhiteSpaceOnly content).
Proof.
  unfold trim, isWhiteSpaceOnly.
  destruct (forallb isWhiteSpace content) eqn:E.
  - rewrite forallb_forall in E.
    rewrite dropWhile_all; [reflexivity|].
    apply List.Forall_forall. exact E.
  - destruct (dropWhileEnd isWhiteSpace (dropWhile isWhiteSpace content))
      as [|c t] eqn:Hd; [|reflexivity].
    exfalso.
    assert (dropWhile isWhiteSpace content = []) as Hnil.
    { unfold dropWhileEnd in Hd.
      apply (f_equal (@rev _)) in Hd. rewrite rev_involutive in Hd. simpl in Hd.
      apply dropWhile_nil_Forall in Hd.
      destruct (dropWhile isWhiteSpace content) as [|x m] eqn:Hm; [reflexivity|].
      pose proof (dropWhile_head isWhiteSpace content x) as Hx.
      rewrite Hm in Hx. specialize (Hx eq_refl).
      apply List.Forall_rev in Hd. rewrite rev_involutive in Hd.
      inversion Hd; congruence. }
    apply dropWhile_nil_Forall in Hnil.
    rewrite List.Forall_forall in Hnil.
    assert (forallb isWhiteSpace content = true) by now apply forallb_forall.
    congruence.
Qed.

(** C9.  The rules for [em]/[i] and for [strong]/[b] trim the converted
    content: the content is white space, then the trimmed content, which
    neither starts nor ends with white space, then white space.  When the
    trimmed content is empty, which is when the content is white space only,
    the replacement is the empty string, without any delimiter; otherwise it
    is the trimmed content between two copies of the configured delimiter. *)
Theorem emphasis_strong_replacement (content : jsstring) (node : ExtendedNode)
    (options : Options) (st : ReferenceState) :
  exists lead middle trail,
    content = lead ++ middle ++ trail /\
    Forall (fun c => isWhiteSpace c = true) lead /\
    Forall (fun c => isWhiteSpace c = true) trail /\
    (forall c, head middle = Some c -> isWhiteSpace c = false) /\
    (forall c, last middle = Some c -> isWhiteSpace c = false) /\
    (middle = [] <-> isWhiteSpaceOnly content = true) /\
    replacement emphasis content node options st
    = (Normal match middle with
              | [] => []
              | _ => emDelimiter options ++ middle ++ emDelimiter options
              end, st) /\
    replacement strong content node options st
    = (Normal match middle with
              | [] => []
              | _ => strongDelimiter options ++ middle ++ strongDelimiter options
              end, st) /\
    filterValue emphasis node options
    = Normal (includes (toLowerCase (nodeName (self (located node))))
                       [lit "em"; lit "i"]) /\
    filterValue strong node options
    = Normal (includes (toLowerCase (nodeName (self (located node))))
                       [lit "strong"; lit "b"]).
Proof.
  exists (takeWhile isWhiteSpace content), (trim content),
         (rev (takeWhile isWhiteSpace (rev (dropWhile isWhiteSpace content)))).
  split; [|split; [|split; [|split; [|split; [|split; [|split; [|split;
    [|split]]]]]]]]; try reflexivity.
  - unfold trim. rewrite <- dropWhileEnd_split. now rewrite takeWhile_dropWhile.
  - apply takeWhile_Forall.
  - apply List.Forall_rev, takeWhile_Forall.
  - intros c Hc. unfold trim in Hc. apply dropWhileEnd_head in Hc.
    now apply dropWhile_head in Hc.
  - intros c Hc. unfold trim in Hc. now apply dropWhileEnd_last in Hc.
  - pose proof (trim_empty content) as H.
    destruct (trim content); destruct (isWhiteSpaceOnly content);
      cbn in H; try discriminate; split; congruence.
  - cbn [replacement emphasis]. unfold delimited, ret.
    destruct (trim content); reflexivity.
  - cbn [replacement strong]. unfold delimited, ret.
    destruct (trim content); reflexivity.
Qed.

(** ** C10: the accumulator across renders *)

Lemma Node_induction (P : Node -> Prop) :
  (forall v, P (Text v)) ->
  (forall v, P (Comment v)) ->
  (forall name attrs kids, Forall P kids -> P (Element name attrs kids)) ->
  forall n, P n.
Proof.
  intros Htext Hcomment Helem. fix IH 1.
  intros [v|v|name attrs kids]; [apply Htext | apply Hcomment |].
  apply Helem. induction kids as [|k kids IHkids]; constructor; [apply IH | exact IHkids].
Qed.

Lemma pure_stateless (f : jsstring -> ExtendedNode -> jsstring) :
  stateless {| filter := None; replacement := pure f; append := None |}.
Proof. split; [reflexivity | discriminate]. Qed.

Lemma app_not_nil {A} (l : list A) (x : A) : l ++ [x] <> [].
Proof. destruct l; discriminate. Qed.

(** The replacement of the reference-link rule keeps the accumulator
    consistent. *)
Lemma referenceLinkReplacement_consistent content node o st :
  consistent st -> consistent (snd (referenceLinkReplacement content node o st)).
Proof.
  intros Hst. unfold referenceLinkReplacement, consistent.
  destruct (linkReferenceStyle o), (linkReferenceDeduplication o); cbn;
    repeat match goal with
           | |- context [match ?m !! ?k with _ => _ end] => destruct (m !! k) as [[|?]|]
           end; cbn;
    try exact Hst; intros H; now apply app_not_nil in H.
Qed.

(** The append hook of the reference-link rule empties a consistent
    accumulator. *)
Lemma referenceLinkAppend_empties o st :
  consistent st -> snd (referenceLinkAppend o st) = emptyReferences.
Proof.
  intros Hst. unfold referenceLinkAppend.
  destruct st as [refs map]. unfold consistent in Hst. cbn in *.
  destruct refs; [|reflexivity]. cbn. now rewrite Hst.
Qed.

Lemma consistent_empty : consistent emptyReferences.
Proof. intros _. reflexivity. Qed.

Lemma referenceLink_not_stateless : ~ stateless referenceLink.
Proof.
  intros [_ Hhook].
  specialize (Hhook referenceLinkAppend eq_refl (Sample.options)
                {| references := [[]]; urlReferenceIdMap := ∅ |}).
  discriminate Hhook.
Qed.

Section Walk.

Variable r : Rules.
Hypothesis r_ok : onlyReferenceLinkWrites r.

Local Abbreviation step := (walkStep r).

Lemma step_refl st : step st st.
Proof. split; auto. Qed.


Lemma step_trans st1 st2 st3 : step st1 st2 -> step st2 st3 -> step st1 st3.
Proof.
  intros [H1 H1'] [H2 H2']. split; [auto|].
  destruct H1' as [-> | H]; [exact H2' | now right].
Qed.

Lemma bind_step {A B} (m : M A) (k : A -> M B) st :
  (forall st0, step st0 (snd (m st0))) ->
  (forall a st0, step st0 (snd (k a st0))) ->
  step st (snd (bind m k st)).
Proof.
  intros Hm Hk. unfold bind. specialize (Hm st).
  destruct (m st) as [[a|e] st1]; cbn in *; [|exact Hm].
  eapply step_trans; [exact Hm | apply Hk].
Qed.

Lemma findRule_In rules node o rule :
  findRule rules node o = Normal (Some rule) -> In rule rules.
Proof.
  intros H. apply findRule_first in H as (earlier & later & -> & _).
  apply in_or_app. right. now left.
Qed.

(** The rule chosen for a node is the reference-link rule of the rule
    list, or it is stateless. *)
Lemma forNode_origin node rule :
  forNode r node = Normal rule ->
  (rule = referenceLink /\ In referenceLink (array r)) \/ stateless rule.
Proof.
  destruct r_ok as (Harray & Hkeep & Hremove & Hblank & Hdefault).
  unfold forNode.
  destruct (isBlank node); [intros [= <-]; now right|].
  destruct (_ && _); [intros [= <-]; right; apply pure_stateless|].
  destruct (_ && _); [intros [= <-]; right; apply pure_stateless|].
  destruct (findRule (array r) node (options r)) as [[x|]|e] eqn:Ea;
    [intros [= <-] | | discriminate].
  { apply findRule_In in Ea. rewrite List.Forall_forall in Harray.
    destruct (Harray x Ea) as [-> | H]; [left; auto | now right]. }
  destruct (findRule (_keep r) node (options r)) as [[x|]|e] eqn:Ek;
    [intros [= <-] | | discriminate].
  { apply findRule_In in Ek. rewrite List.Forall_forall in Hkeep.
    right. now apply Hkeep. }
  destruct (findRule (_remove r) node (options r)) as [[x|]|e] eqn:Er;
    [intros [= <-] | | discriminate].
  { apply findRule_In in Er. rewrite List.Forall_forall in Hremove.
    right. now apply Hremove. }
  intros [= <-]. now right.
Qed.

Lemma replacementForNode_step processNode node st :
  (forall st0, step st0 (snd (processNode st0))) ->
  step st (snd (replacementForNode r processNode node st)).
Proof.
  intros Hprocess. unfold replacementForNode.
  unfold bind at 1. unfold lift.
  destruct (forNode r node) as [rule|e] eqn:Erule; [|apply step_refl].
  apply bind_step; [exact Hprocess|]. intros content st1.
  apply bind_step; [|intros; apply step_refl].
  intros st0. destruct (forNode_origin node rule Erule) as [[-> Hin] | [Hrule _]].
  - cbn [replacement referenceLink]. split.
    + apply referenceLinkReplacement_consistent.
    + now right.
  - rewrite Hrule. apply step_refl.
Qed.

Lemma reduceNodes_step callback earlier later output st :
  (forall out before n after st0, In n later ->
      step st0 (snd (callback out before n after st0))) ->
  step st (snd (reduceNodes callback earlier later output st)).
Proof.
  revert earlier output st.
  induction later as [|n later IH]; intros earlier output st Hcb; simpl.
  - apply step_refl.
  - apply bind_step.
    + intros st0. apply Hcb. now left.
    + intros out st0. apply IH. intros. apply Hcb. now right.
Qed.

Lemma process_step parent :
  forall up code st, step st (snd (process r parent up code st)).
Proof.
  induction parent as [v|v|name attrs kids IH] using Node_induction;
    intros up code st; try apply step_refl.
  cbn [process]. apply reduceNodes_step.
  intros out before n after st0 Hn.
  apply bind_step; [|intros; apply step_refl].
  intros st1. destruct n as [v|v|name' attrs' kids'].
  - apply step_refl.
  - apply step_refl.
  - apply replacementForNode_step. intros st2.
    rewrite List.Forall_forall in IH. apply (IH _ Hn).
Qed.

(** When the hooks all return, a consistent accumulator is empty or
    unchanged after them, and empty if the reference-link rule is among
    the rules. *)
Lemma appendAll_flushes (l : list Rule) o output st out st' :
  Forall (fun rule => rule = referenceLink \/ stateless rule) l ->
  consistent st ->
  appendAll l o output st = (Normal out, st') ->
  (st' = emptyReferences \/ st' = st) /\
  (In referenceLink l -> st' = emptyReferences).
Proof.
  intros Hl. revert output st.
  induction Hl as [|rule l Hrule _ IH]; intros output st Hst; simpl.
  - intros [= _ <-]. split; [now right | contradiction].
  - destruct Hrule as [-> | Hless].
    + cbn [append referenceLink]. unfold bind.
      pose proof (referenceLinkAppend_empties o st Hst) as Hflush.
      destruct (referenceLinkAppend o st) as [[text|e] st1] eqn:E;
        cbn in Hflush; subst st1; [|discriminate].
      intros Hrest. apply IH in Hrest; [|apply consistent_empty].
      destruct Hrest as [[-> | ->] _]; auto.
    + assert ((appendAll l o output st = (Normal out, st') \/
               exists text,
                 appendAll l o (join output text) st = (Normal out, st'))
              -> (st' = emptyReferences \/ st' = st) /\
                 (In referenceLink (rule :: l) -> st' = emptyReferences))
        as Hgo.
      { intros Hrest.
        assert ((st' = emptyReferences \/ st' = st) /\
                (In referenceLink l -> st' = emptyReferences)) as [Hor Hin]
          by (destruct Hrest as [Hrest | [text Hrest]];
              apply IH in Hrest; auto).
        split; [exact Hor|].
        intros [-> | H]; [|auto].
        exfalso. now apply referenceLink_not_stateless. }
      destruct Hless as [_ Hhook].
      destruct (append rule) as [hook|] eqn:Ehook.
      * unfold bind. specialize (Hhook hook eq_refl o st).
        destruct (hook o st) as [[text|e] st1]; cbn in Hhook; subst st1;
          [|discriminate].
        intros Hrest. apply Hgo. right. eauto.
      * intros Hrest. apply Hgo. now left.
Qed.

End Walk.

Lemma sample_rules_ok (o : Options) :
  onlyReferenceLinkWrites (newRules o Sample.rules).
Proof.
  assert (forall rule,
             (forall content node o st,
                 snd (replacement rule content node o st) = st) ->
             append rule = None -> stateless rule) as Hless
    by (intros rule H E; split; [exact H | intros hook; rewrite E; discriminate]).
  split; [|split; [|split; [|split]]].
  - cbn.
    repeat (apply List.Forall_cons;
            [first [ now left
                   | right; apply Hless; [intros; reflexivity | reflexivity] ]|]).
    apply List.Forall_nil.
  - apply List.Forall_nil.
  - apply List.Forall_nil.
  - apply pure_stateless.
  - apply pure_stateless.
Qed.

(** C10.  The append hook of the reference-link rule returns the pending
    definitions and empties the list and the map whenever the list is not
    empty.  With a rule table in which no other rule writes the
    accumulator, a render that starts with a consistent accumulator (an empty
    one in particular) and returns leaves the accumulator empty when the
    reference-link rule is in the rule list; so a render on a fresh instance
    leaves the accumulator as it found it, and the same render repeated
    returns the same output. *)
Theorem render_leaves_accumulator_empty (RootNode : JSValue -> Options -> Node)
    (r : Rules) (input : JSValue) (out : jsstring) (st' : ReferenceState) :
  onlyReferenceLinkWrites r ->
  render RootNode r input emptyReferences = (Normal out, st') ->
  st' = emptyReferences /\
  render RootNode r input st' = (Normal out, st') /\
  (forall o st,
      references st <> [] ->
      referenceLinkAppend o st
      = (Normal ([LF; LF] ++ joinLines (references st) ++ [LF; LF]),
         emptyReferences)) /\
  (forall st0 out0 st1,
      consistent st0 -> In referenceLink (array r) ->
      input <> JSString [] ->
      render RootNode r input st0 = (Normal out0, st1) ->
      st1 = emptyReferences).
Proof.
  intros Hr Hrender.
  assert (Hafter : forall st0 out0 st1,
             consistent st0 ->
             render RootNode r input st0 = (Normal out0, st1) ->
             (st1 = emptyReferences \/ st1 = st0) /\
             (In referenceLink (array r) -> input <> JSString [] ->
              st1 = emptyReferences) /\
             (st0 = emptyReferences -> st1 = emptyReferences)).
  { intros st0 out0 st1 Hst0. unfold render.
    destruct (negb (canConvert input));
      [destruct (toString input); discriminate|].
    assert (Hrun :
      (do output <- process r (RootNode input (options r)) [] false;
       postProcess r output) st0 = (Normal out0, st1) ->
      (st1 = emptyReferences \/ st1 = st0) /\
      (In referenceLink (array r) -> st1 = emptyReferences) /\
      (st0 = emptyReferences -> st1 = emptyReferences)).
    { unfold bind at 1.
      pose proof (process_step r Hr (RootNode input (options r)) [] false st0)
        as [Hcons Hchanged].
      destruct (process r (RootNode input (options r)) [] false st0)
        as [[output|e] st2]; [|discriminate]. cbn [snd] in *.
      unfold postProcess, bind.
      destruct (appendAll (array r) (options r) output st2)
        as [[appended|e] st3] eqn:Eappend; [|discriminate].
      intros [= _ <-].
      destruct Hr as (Harray & _).
      destruct (appendAll_flushes (array r) (options r) output st2 appended st3
                  Harray (Hcons Hst0) Eappend) as [Hor Hin].
      destruct Hchanged as [-> | Hmember].
      - repeat split; [destruct Hor; auto | exact Hin |].
        intros ->. destruct Hor; auto.
      - specialize (Hin Hmember). subst st3. auto. }
    destruct input as [| |[|c s]|shown|description|t shown]; try exact (fun H =>
      match Hrun H with conj a (conj b c) => conj a (conj (fun i _ => b i) c) end).
    intros [= _ <-]. repeat split; auto. intros _ H. now contradiction H. }
  assert (st' = emptyReferences) as ->.
  { destruct (Hafter emptyReferences out st' consistent_empty Hrender)
      as (_ & _ & H). now apply H. }
  repeat split.
  - exact Hrender.
  - intros o st Hrefs. unfold referenceLinkAppend.
    destruct (references st); [contradiction | reflexivity].
  - intros st0 out0 st1 Hst0 Hin Hne H.
    destruct (Hafter st0 out0 st1 Hst0 H) as (_ & Hflush & _). now apply Hflush.
Qed.

Lemma render_leaves_accumulator_empty_witness :
  render Sample.parsedThreeLinks
         (newRules (Sample.withLinks dedupFull) Sample.rules)
         Sample.threeLinksMarkup emptyReferences
  = (Normal (lit "[Reference Link 1][1] [Reference Link 2][2] [Reference Link 3][1]"
             ++ [LF; LF] ++ lit "[1]: http://example.com/a"
             ++ [LF] ++ lit "[2]: http://example.com/b"),
     emptyReferences).
Proof.
  refine (proj1 (proj2 (render_leaves_accumulator_empty
                          Sample.parsedThreeLinks
                          (newRules (Sample.withLinks dedupFull) Sample.rules)
                          Sample.threeLinksMarkup _ emptyReferences
                          (sample_rules_ok _) _))).
  vm_compute. reflexivity.
Defined.

(** * Further properties *)

(** ** Newlines: trimming and joining *)

Lemma dropWhileEnd_id (p : char -> bool) (s : jsstring) :
  (forall c, last s = Some c -> p c = false) -> dropWhileEnd p s = s.
Proof.
  intros H. rewrite <- (app_nil_r s) at 1.
  apply dropWhileEnd_app_stop; [exact H | constructor].
Qed.

Lemma trimNewlines_middle (s : jsstring) :
  trimNewlines s = dropWhileEnd (isChar LF) (dropWhile (isChar LF) s).
Proof. unfold trimNewlines. now rewrite trimTrailingNewlines_dropWhileEnd. Qed.

(** X1.  [trimNewlines] removes the newlines at both ends and nothing else: the
    text is the result between two runs of newlines, the result neither
    starts nor ends with a newline, and trimming it again changes nothing. *)
Theorem trimNewlines_strips_both_ends (s : jsstring) :
  (exists a b, s = replicate a LF ++ trimNewlines s ++ replicate b LF) /\
  head (trimNewlines s) <> Some LF /\
  last (trimNewlines s) <> Some LF /\
  trimNewlines (trimNewlines s) = trimNewlines s.
Proof.
  rewrite !trimNewlines_middle.
  set (m := dropWhile (isChar LF) s).
  assert (Hhead : head (dropWhileEnd (isChar LF) m) <> Some LF).
  { intros E. apply dropWhileEnd_head in E. subst m.
    apply dropWhile_head in E. discriminate. }
  assert (Hlast : last (dropWhileEnd (isChar LF) m) <> Some LF).
  { intros E. apply dropWhileEnd_last in E. discriminate. }
  split; [|split; [exact Hhead | split; [exact Hlast|]]].
  - exists (length (takeWhile (isChar LF) s)),
           (length (rev (takeWhile (isChar LF) (rev m)))).
    rewrite <- (Forall_isLF_replicate (takeWhile (isChar LF) s))
      by apply takeWhile_Forall.
    rewrite <- (Forall_isLF_replicate (rev (takeWhile (isChar LF) (rev m))))
      by apply List.Forall_rev, takeWhile_Forall.
    rewrite <- dropWhileEnd_split. subst m.
    now rewrite takeWhile_dropWhile.
  - rewrite (dropWhile_id (isChar LF) (dropWhileEnd (isChar LF) m)).
    + apply dropWhileEnd_id. intros c Hc.
      unfold isChar. destruct (N.eqb_spec LF c) as [<-|]; [contradiction | reflexivity].
    + intros c Hc.
      unfold isChar. destruct (N.eqb_spec LF c) as [<-|]; [contradiction | reflexivity].
Qed.

(** X2.  The end of [postProcess] applied twice is the same as applied once. *)
Theorem trimOutput_idempotent (s : jsstring) :
  trimOutput (trimOutput s) = trimOutput s.
Proof.
  unfold trimOutput.
  set (t := dropWhileEnd isWhiteSpace (dropWhile isTabCrLf s)).
  rewrite (dropWhile_id isTabCrLf t).
  - apply dropWhileEnd_id. intros c Hc. subst t.
    now apply dropWhileEnd_last in Hc.
  - intros c Hc. subst t. apply dropWhileEnd_head in Hc.
    now apply dropWhile_head in Hc.
Qed.

(** Every text splits into a part without a newline at its end and a run of
    newlines, and into a run of newlines and a part without a newline at its
    start. *)
Lemma split_trailing_newlines (o : jsstring) :
  exists x a, o = x ++ replicate a LF /\ (forall c, last x = Some c -> c <> LF).
Proof.
  exists (dropWhileEnd (isChar LF) o),
         (length (rev (takeWhile (isChar LF) (rev o)))).
  split.
  - rewrite <- (Forall_isLF_replicate (rev (takeWhile (isChar LF) (rev o))))
      by apply List.Forall_rev, takeWhile_Forall.
    apply dropWhileEnd_split.
  - intros c Hc ->. apply dropWhileEnd_last in Hc. discriminate.
Qed.

Lemma split_leading_newlines (r : jsstring) :
  exists b y, r = replicate b LF ++ y /\ (forall c, head y = Some c -> c <> LF).
Proof.
  exists (length (takeWhile (isChar LF) r)), (dropWhile (isChar LF) r).
  split.
  - rewrite <- (Forall_isLF_replicate (takeWhile (isChar LF) r))
      by apply takeWhile_Forall.
    now rewrite takeWhile_dropWhile.
  - intros c Hc ->. apply dropWhile_head in Hc. discriminate.
Qed.

Lemma withoutNewlines_app (s t : jsstring) :
  withoutNewlines (s ++ t) = withoutNewlines s ++ withoutNewlines t.
Proof. unfold withoutNewlines. apply List.filter_app. Qed.

Lemma withoutNewlines_replicate (n : nat) : withoutNewlines (replicate n LF) = [].
Proof. induction n; simpl; auto. Qed.

(** X3.  [join] changes newlines only: apart from newlines the joined text is
    the output followed by the replacement, and it is never longer than the
    two together. *)
Theorem join_keeps_text (o r : jsstring) :
  withoutNewlines (join o r) = withoutNewlines o ++ withoutNewlines r /\
  length (join o r) <= length o + length r.
Proof.
  destruct (split_trailing_newlines o) as (x & a & -> & Hx).
  destruct (split_leading_newlines r) as (b & y & -> & Hy).
  rewrite join_runs by assumption.
  split.
  - rewrite !withoutNewlines_app, !withoutNewlines_replicate.
    now rewrite !app_nil_l, !app_nil_r.
  - rewrite !length_app, !length_replicate. lia.
Qed.

Lemma join_asBlock (x c : jsstring) (a : nat) :
  (forall d, last x = Some d -> d <> LF) ->
  c <> [] -> head c <> Some LF ->
  join (x ++ replicate a LF) (asBlock c)
  = (x ++ [LF; LF] ++ c) ++ [LF; LF].
Proof.
  intros Hx Hne Hhead. unfold asBlock.
  change ([LF; LF] ++ c ++ [LF; LF]) with (replicate 2 LF ++ (c ++ [LF; LF])).
  rewrite (join_runs x (c ++ [LF; LF]) a 2 Hx).
  - replace (Nat.min 2 (Nat.max a 2)) with 2 by lia.
    cbn [replicate]. now rewrite <- !app_assoc.
  - intros d Hd ->. apply Hhead. destruct c; [contradiction | exact Hd].
Qed.

Lemma last_after_block (x c : jsstring) :
  c <> [] -> last c <> Some LF ->
  forall d, last (x ++ [LF; LF] ++ c) = Some d -> d <> LF.
Proof.
  intros Hne Hlast d Hd ->. apply Hlast.
  rewrite !last_app in Hd.
  destruct (last c) eqn:E; [exact Hd|].
  apply last_None in E. contradiction.
Qed.

(** X4.  Block-level results joined one after the other from the empty output,
    as [process] does, are separated by exactly one empty line. *)
Theorem join_blocks_one_empty_line (contents : list jsstring) :
  Forall (fun c => c <> [] /\ head c <> Some LF /\ last c <> Some LF) contents ->
  fold_left join (map asBlock contents) []
  = match contents with
    | [] => []
    | _ => [LF; LF] ++ concat (map (fun c => c ++ [LF; LF]) contents)
    end.
Proof.
  assert (Hstep : forall cs x,
             Forall (fun c => c <> [] /\ head c <> Some LF /\ last c <> Some LF) cs ->
             (forall c, last x = Some c -> c <> LF) ->
             fold_left join (map asBlock cs) (x ++ [LF; LF])
             = x ++ [LF; LF] ++ concat (map (fun c => c ++ [LF; LF]) cs)).
  { induction cs as [|c cs IH]; intros x Hcs Hx; cbn [map fold_left concat].
    - now rewrite app_nil_r.
    - inversion Hcs as [|? ? (Hne & Hhead & Hlast) Hrest]; subst.
      change (x ++ [LF; LF]) with (x ++ replicate 2 LF) at 1.
      rewrite (join_asBlock x c 2 Hx Hne Hhead).
      rewrite IH; [now rewrite <- !app_assoc | exact Hrest |].
      now apply last_after_block. }
  intros Hcs. destruct contents as [|c cs]; [reflexivity|].
  inversion Hcs as [|? ? (Hne & Hhead & Hlast) Hrest]; subst.
  cbn [map fold_left concat].
  change (join [] (asBlock c)) with (join ([] ++ replicate 0 LF) (asBlock c)).
  rewrite (join_asBlock [] c 0); [| discriminate | exact Hne | exact Hhead].
  rewrite Hstep; [now rewrite <- !app_assoc | exact Hrest |].
  now apply last_after_block.
Qed.

Lemma join_blocks_one_empty_line_witness :
  fold_left join (map asBlock [lit "one"; lit "two"; lit "three"]) []
  = [LF; LF] ++ concat (map (fun c => c ++ [LF; LF])
                            [lit "one"; lit "two"; lit "three"]).
Proof.
  apply (join_blocks_one_empty_line [lit "one"; lit "two"; lit "three"]).
  repeat constructor; discriminate.
Defined.

(** ** join is associative *)

Lemma split_newlines_around (b : jsstring) :
  (exists j, b = replicate j LF) \/
  (exists j1 m j2,
      b = replicate j1 LF ++ m ++ replicate j2 LF /\ m <> [] /\
      (forall c, head m = Some c -> c <> LF) /\
      (forall c, last m = Some c -> c <> LF)).
Proof.
  destruct (split_leading_newlines b) as (j1 & y & -> & Hy).
  destruct (split_trailing_newlines y) as (m & j2 & -> & Hm).
  destruct m as [|c m].
  - left. exists (j1 + j2). cbn [app]. now rewrite replicate_add.
  - right. exists j1, (c :: m), j2. split; [reflexivity|].
    split; [discriminate|]. split; [|exact Hm].
    intros d Hd. apply Hy. exact Hd.
Qed.

(** X5.  Joining is associative: the result of joining three texts does not
    depend on which two are joined first. *)
Theorem join_assoc (a b c : jsstring) :
  join (join a b) c = join a (join b c).
Proof.
  destruct (split_trailing_newlines a) as (x & i & -> & Hx).
  destruct (split_leading_newlines c) as (k & z & -> & Hz).
  destruct (split_newlines_around b)
    as [(j & ->) | (j1 & m & j2 & -> & Hne & Hhead & Hlast)].
  - rewrite <- (app_nil_r (replicate j LF)) at 1.
    rewrite (join_runs x [] i j Hx) by discriminate.
    rewrite app_nil_r.
    rewrite (join_runs x z _ k Hx Hz).
    rewrite <- (app_nil_l (replicate j LF)) at 1.
    rewrite (join_runs [] z j k) by (discriminate || exact Hz).
    cbn [app]. rewrite (join_runs x z i _ Hx Hz).
    do 3 f_equal. lia.
  - assert (Hm2 : forall d, head (m ++ replicate j2 LF) = Some d -> d <> LF).
    { intros d Hd. apply Hhead. destruct m; [contradiction | exact Hd]. }
    assert (Hlast' : forall u d, last (u ++ m) = Some d -> d <> LF).
    { intros u d Hd. apply Hlast. rewrite last_app in Hd.
      destruct (last m) eqn:E; [exact Hd|]. apply last_None in E.
      contradiction. }
    rewrite (join_runs x (m ++ replicate j2 LF) i j1 Hx Hm2).
    replace (x ++ replicate (Nat.min 2 (Nat.max i j1)) LF ++ m ++ replicate j2 LF)
      with ((x ++ replicate (Nat.min 2 (Nat.max i j1)) LF ++ m) ++ replicate j2 LF)
      by (now rewrite <- !app_assoc).
    rewrite (join_runs _ z j2 k) by (try exact Hz; rewrite app_assoc; apply Hlast').
    replace (replicate j1 LF ++ m ++ replicate j2 LF)
      with ((replicate j1 LF ++ m) ++ replicate j2 LF)
      by (now rewrite <- !app_assoc).
    rewrite (join_runs _ z j2 k) by (try exact Hz; apply Hlast').
    rewrite <- !app_assoc.
    rewrite (join_runs x _ i j1 Hx).
    + reflexivity.
    + intros d Hd. apply Hhead. destruct m; [contradiction | exact Hd].
Qed.

(** ** escape and the backslashes of Markdown *)

Lemma readFrom_double (s : jsstring) :
  readFrom false (replaceChar BACKSLASH [BACKSLASH; BACKSLASH] s)
  = map (fun c => (isChar c BACKSLASH, c)) s.
Proof.
  induction s as [|d s IH]; [reflexivity|].
  cbn [replaceChar map].
  destruct (isChar d BACKSLASH) eqn:E.
  - apply N.eqb_eq in E. subst d. cbn. now rewrite IH.
  - cbn [app readFrom]. rewrite E. now rewrite IH.
Qed.

Lemma readFrom_replaceChar (c : char) (t : jsstring) :
  isAsciiPunctuation c = true -> c <> BACKSLASH ->
  forall pending,
    (forall tok, In tok (readFrom pending t) -> fst tok = true -> snd tok <> c) ->
    readFrom pending (replaceChar c [BACKSLASH; c] t)
    = map (fun tok => (fst tok || isChar (snd tok) c, snd tok))
          (readFrom pending t).
Proof.
  intros Hp Hc.
  assert (Hbs : isChar BACKSLASH c = false).
  { unfold isChar. apply N.eqb_neq. congruence. }
  assert (Hcb : isChar c BACKSLASH = false).
  { unfold isChar. apply N.eqb_neq. congruence. }
  assert (Hcc : isChar c c = true) by apply N.eqb_refl.
  induction t as [|d t IH]; intros pending Hfree.
  - destruct pending; cbn [replaceChar readFrom map fst snd orb];
      [now rewrite Hbs | reflexivity].
  - cbn [replaceChar]. destruct (isChar d c) eqn:E.
    + apply N.eqb_eq in E. subst d. destruct pending.
      * exfalso. cbn [readFrom] in Hfree. rewrite Hp in Hfree.
        now apply (Hfree (true, c)); [left | |].
      * cbn [app readFrom]. change (isChar BACKSLASH BACKSLASH) with true.
        cbn match. rewrite Hp, Hcb. cbn [map fst snd]. rewrite Hcc.
        f_equal. apply IH. intros tok Hin. apply Hfree.
        cbn [readFrom]. rewrite Hcb. now right.
    + cbn [app]. destruct pending.
      * cbn [readFrom] in *. destruct (isAsciiPunctuation d).
        -- cbn [map fst snd orb]. f_equal. apply IH.
           intros tok Hin. apply Hfree. now right.
        -- cbn [map fst snd orb]. rewrite Hbs, E. do 2 f_equal. apply IH.
           intros tok Hin. apply Hfree. now right; right.
      * cbn [readFrom] in *. destruct (isChar d BACKSLASH).
        -- apply IH. exact Hfree.
        -- cbn [map fst snd orb]. rewrite E. f_equal. apply IH.
           intros tok Hin. apply Hfree. now right.
Qed.

Lemma readFrom_plain (u : jsstring) (t : jsstring) :
  Forall (fun c => isChar c BACKSLASH = false) u ->
  readFrom false (u ++ t) = map (pair false) u ++ readFrom false t.
Proof.
  induction 1 as [|d u Hd _ IH]; [reflexivity|].
  cbn [app readFrom map]. rewrite Hd. now rewrite IH.
Qed.

Lemma escapesAdded_refl (added : jsstring) (ts : list (bool * char)) :
  Forall2 (escapesAdded added) ts ts.
Proof.
  induction ts; constructor; auto. unfold escapesAdded. tauto.
Qed.

Lemma readFrom_insert (u v : jsstring) (p : char) :
  Forall (fun c => isChar c BACKSLASH = false) u ->
  isAsciiPunctuation p = true -> p <> BACKSLASH ->
  Forall2 (escapesAdded [p])
          (readFrom false (u ++ p :: v))
          (readFrom false (u ++ BACKSLASH :: p :: v)).
Proof.
  intros Hu Hp Hne. rewrite !readFrom_plain by exact Hu.
  apply Forall2_app; [apply escapesAdded_refl|].
  cbn [readFrom]. change (isChar BACKSLASH BACKSLASH) with true. cbn match.
  rewrite Hp.
  assert (isChar p BACKSLASH = false) as ->
      by (unfold isChar; apply N.eqb_neq; congruence).
  constructor; [|apply escapesAdded_refl].
  unfold escapesAdded. cbn. intuition.
Qed.

Lemma readFrom_escapeAngles (t : jsstring) :
  forall pending inside,
    (forall tok, In tok (readFrom pending t) -> fst tok = true ->
                 snd tok <> ch "<" /\ snd tok <> ch ">") ->
    Forall2 (escapesAdded [ch "<"; ch ">"])
            (readFrom pending t)
            (readFrom pending (escapeAngles inside t)).
Proof.
  induction t as [|d t IH]; intros pending inside Hfree.
  - apply escapesAdded_refl.
  - assert (Hkeep : forall inside',
               escapeAngles inside (d :: t) = d :: escapeAngles inside' t ->
               Forall2 (escapesAdded [ch "<"; ch ">"])
                       (readFrom pending (d :: t))
                       (readFrom pending (escapeAngles inside (d :: t)))).
    { intros inside' ->. cbn [readFrom] in *. destruct pending.
      - destruct (isAsciiPunctuation d).
        + constructor; [unfold escapesAdded; tauto|].
          apply IH. intros tok Hin. apply Hfree. now right.
        + constructor; [unfold escapesAdded; tauto|].
          constructor; [unfold escapesAdded; tauto|].
          apply IH. intros tok Hin. apply Hfree. now right; right.
      - destruct (isChar d BACKSLASH).
        + apply IH. exact Hfree.
        + constructor; [unfold escapesAdded; tauto|].
          apply IH. intros tok Hin. apply Hfree. now right. }
    assert (Hadd : forall inside',
               (d = ch "<" \/ d = ch ">") ->
               escapeAngles inside (d :: t)
               = BACKSLASH :: d :: escapeAngles inside' t ->
               Forall2 (escapesAdded [ch "<"; ch ">"])
                       (readFrom pending (d :: t))
                       (readFrom pending (escapeAngles inside (d :: t)))).
    { intros inside' Hd ->. destruct pending.
      - exfalso. cbn [readFrom] in Hfree.
        assert (isAsciiPunctuation d = true) as Hp
            by (destruct Hd as [-> | ->]; reflexivity).
        rewrite Hp in Hfree.
        destruct (Hfree (true, d)) as [H1 H2]; [now left | reflexivity |].
        cbn in H1, H2. destruct Hd; contradiction.
      - cbn [readFrom]. change (isChar BACKSLASH BACKSLASH) with true.
        cbn match.
        assert (isAsciiPunctuation d = true) as ->
            by (destruct Hd as [-> | ->]; reflexivity).
        assert (isChar d BACKSLASH = false) as E
            by (destruct Hd as [-> | ->]; reflexivity).
        rewrite E. constructor.
        + unfold escapesAdded. cbn. intuition.
        + apply IH. intros tok Hin. apply Hfree.
          cbn [readFrom]. rewrite E. now right. }
    cbn [escapeAngles]. cbn [escapeAngles] in Hkeep, Hadd.
    destruct inside.
    + destruct (isChar d (ch ">")) eqn:E.
      * apply N.eqb_eq in E. apply (Hadd false); [now right | now subst d].
      * apply (Hkeep true). reflexivity.
    + destruct (isChar d (ch "<") && existsb (isChar (ch ">")) t) eqn:E.
      * apply andb_true_iff in E as [E _]. apply N.eqb_eq in E.
        apply (Hadd true); [now left | now subst d].
      * apply (Hkeep false). reflexivity.
Qed.

Lemma escapesAdded_facts (added : jsstring) (ts ts' : list (bool * char)) :
  Forall2 (escapesAdded added) ts ts' ->
  map snd ts' = map snd ts /\
  (forall A, (forall tok, In tok ts -> fst tok = true -> In (snd tok) A) ->
             forall tok, In tok ts' -> fst tok = true -> In (snd tok) (added ++ A)) /\
  (forall M, (forall tok, In tok ts -> In (snd tok) M -> fst tok = true) ->
             forall tok, In tok ts' -> In (snd tok) M -> fst tok = true).
Proof.
  induction 1 as [|a b ts ts' (Hs & Hab & Hba) _ (IH1 & IH2 & IH3)].
  - split; [reflexivity|]. split; intros ? _ ? [].
  - split; [cbn; congruence|]. split.
    + intros A HA tok [<- | Hin] Hesc.
      * apply in_or_app. destruct (Hba Hesc) as [Ha | Ha].
        -- right. rewrite <- Hs. apply HA; [now left | exact Ha].
        -- left. now rewrite <- Hs.
      * apply (IH2 A); auto. intros t Ht. apply HA. now right.
    + intros M HM tok [<- | Hin] Hm.
      * apply Hab. apply HM; [now left | now rewrite Hs].
      * apply (IH3 M); auto. intros t Ht. apply HM. now right.
Qed.

Lemma readsAs_step (s A M added t t' : jsstring) :
  readsAs s A M t ->
  Forall2 (escapesAdded added) (readFrom false t) (readFrom false t') ->
  readsAs s (added ++ A) M t'.
Proof.
  intros (H1 & H2 & H3) HF.
  destruct (escapesAdded_facts _ _ _ HF) as (F1 & F2 & F3).
  split; [congruence|]. split; [now apply F2 | now apply F3].
Qed.

Lemma readsAs_first (s : jsstring) :
  readsAs s [BACKSLASH] [BACKSLASH]
          (replaceChar BACKSLASH [BACKSLASH; BACKSLASH] s).
Proof.
  unfold readsAs. rewrite readFrom_double. split; [|split].
  - rewrite map_map. cbn. apply map_id.
  - intros tok Hin Hesc. apply in_map_iff in Hin as (c & <- & _).
    cbn in *. apply N.eqb_eq in Hesc. now left.
  - intros tok Hin [Hm | []]. apply in_map_iff in Hin as (c & <- & _).
    cbn in *. subst c. reflexivity.
Qed.

Lemma readsAs_replaceChar (s A M t : jsstring) (c : char) :
  readsAs s A M t ->
  isAsciiPunctuation c = true -> ~ In c A -> In BACKSLASH A ->
  readsAs s (c :: A) (c :: M) (replaceChar c [BACKSLASH; c] t).
Proof.
  intros (H1 & H2 & H3) Hp Hc Hb.
  assert (c <> BACKSLASH) as Hne by (intros ->; contradiction).
  assert (Hread := readFrom_replaceChar c t Hp Hne false).
  unfold readsAs. rewrite Hread.
  2:{ intros tok Hin Hesc Heq. apply Hc. rewrite <- Heq. now apply H2. }
  split; [|split].
  - rewrite map_map. cbn [snd]. exact H1.
  - intros tok Hin Hesc. apply in_map_iff in Hin as (tok0 & <- & Hin).
    cbn [fst snd] in *. apply orb_true_iff in Hesc as [Hesc | Hesc].
    + right. now apply H2.
    + left. apply N.eqb_eq in Hesc. congruence.
  - intros tok Hin Hm. apply in_map_iff in Hin as (tok0 & <- & Hin).
    cbn [fst snd] in *. destruct Hm as [<- | Hm].
    + unfold isChar. rewrite N.eqb_refl. apply orb_true_r.
    + rewrite (H3 tok0 Hin Hm). reflexivity.
Qed.

Lemma readsAs_escapeAtStart (s A M t : jsstring) (matches : jsstring -> bool)
    (p : char) :
  (forall x, matches x = true -> head x = Some p) ->
  isAsciiPunctuation p = true -> p <> BACKSLASH ->
  readsAs s A M t ->
  readsAs s (p :: A) M (escapeAtStart matches t).
Proof.
  intros Hm Hp Hne Ht. unfold escapeAtStart.
  destruct (matches t) eqn:E.
  - apply Hm in E. destruct t as [|d v]; [discriminate|].
    injection E as ->.
    apply (readsAs_step s A M [p] (p :: v)); [exact Ht|].
    apply (readFrom_insert [] v p); auto.
  - apply (readsAs_step s A M [p] t); [exact Ht | apply escapesAdded_refl].
Qed.

Lemma startsWith_head (p : char) (l x : jsstring) :
  startsWith (p :: l) x = true -> head x = Some p.
Proof.
  unfold startsWith. intros H. apply bool_decide_eq_true in H.
  destruct x; [discriminate|]. cbn in H. now injection H as ->.
Qed.

Lemma startsWithHashes_head (x : jsstring) :
  startsWithHashes x = true -> head x = Some (ch "#").
Proof.
  unfold startsWithHashes, runLength. destruct x as [|d x]; [discriminate|].
  cbn [takeWhile]. destruct (isChar (ch "#") d) eqn:E; [|discriminate].
  apply N.eqb_eq in E. now subst d.
Qed.

Lemma take_takeWhile_length (p : char -> bool) (t : jsstring) :
  take (length (takeWhile p t)) t = takeWhile p t.
Proof.
  induction t as [|d t IH]; [reflexivity|].
  cbn [takeWhile]. destruct (p d); [cbn; now rewrite IH | reflexivity].
Qed.

Lemma readsAs_escapeOrdinal (s A M t : jsstring) :
  readsAs s A M t -> readsAs s (ch "." :: A) M (escapeOrdinal t).
Proof.
  intros Ht. unfold escapeOrdinal.
  set (k := length (takeWhile isDigit t)).
  destruct ((1 <=? k) && startsWith (lit ". ") (drop k t)) eqn:E.
  - apply andb_true_iff in E as [_ E].
    apply (startsWith_head (ch ".") (lit " ")) in E.
    destruct (drop k t) as [|d v] eqn:Ed; [discriminate|]. injection E as ->.
    apply (readsAs_step s A M [ch "."] t); [exact Ht|].
    rewrite <- (take_drop k t) at 1. rewrite Ed.
    apply readFrom_insert; [| reflexivity | discriminate].
    subst k. rewrite take_takeWhile_length.
    apply List.Forall_impl with (P := fun c => isDigit c = true);
      [| apply takeWhile_Forall].
    intros c Hc. unfold isChar. apply N.eqb_neq. intros ->. discriminate Hc.
  - apply (readsAs_step s A M [ch "."] t); [exact Ht | apply escapesAdded_refl].
Qed.

Ltac notAmong :=
  let H := fresh in
  intros H; cbn [In] in H;
  repeat (destruct H as [H | H]; [discriminate H|]); exact H.

Ltac among := cbn [In]; repeat (first [left; reflexivity | right]).

(** The whole of [escape]: the escaped text reads as the text, and the
    backslash, asterisk, underscore, backtick and square brackets of the text
    are all behind an escaping backslash. *)
Lemma escape_readsAs (s : jsstring) :
  exists A,
    readsAs s A [ch "]"; ch "["; BACKTICK; ch "_"; ch "*"; BACKSLASH] (escape s).
Proof.
  rewrite escape_unfold.
  pose proof (readsAs_first s) as H1.
  pose proof (readsAs_replaceChar _ _ _ _ (ch "*") H1 eq_refl
                ltac:(notAmong) ltac:(among)) as H2.
  pose proof (readsAs_replaceChar _ _ _ _ (ch "_") H2 eq_refl
                ltac:(notAmong) ltac:(among)) as H3.
  pose proof (readsAs_escapeAtStart _ _ _ _ _ (ch "-")
                (startsWith_head (ch "-") []) eq_refl
                ltac:(discriminate) H3) as H4.
  pose proof (readsAs_escapeAtStart _ _ _ _ _ (ch "+")
                (startsWith_head (ch "+") (lit " ")) eq_refl
                ltac:(discriminate) H4) as H5.
  pose proof (readsAs_escapeAtStart _ _ _ _ _ (ch "=")
                (startsWith_head (ch "=") []) eq_refl
                ltac:(discriminate) H5) as H6.
  pose proof (readsAs_escapeAtStart _ _ _ _ _ (ch "#")
                startsWithHashes_head eq_refl
                ltac:(discriminate) H6) as H7.
  pose proof (readsAs_replaceChar _ _ _ _ BACKTICK H7 eq_refl
                ltac:(notAmong) ltac:(among)) as H8.
  pose proof (readsAs_escapeAtStart _ _ _ _ _ (ch "~")
                (startsWith_head (ch "~") (lit "~~")) eq_refl
                ltac:(discriminate) H8) as H9.
  pose proof (readsAs_replaceChar _ _ _ _ (ch "[") H9 eq_refl
                ltac:(notAmong) ltac:(among)) as H10.
  pose proof (readsAs_replaceChar _ _ _ _ (ch "]") H10 eq_refl
                ltac:(notAmong) ltac:(among)) as H11.
  assert (H12 : forall t A M,
             readsAs s A M t ->
             ~ In (ch "<") A -> ~ In (ch ">") A ->
             readsAs s ([ch "<"; ch ">"] ++ A) M (escapeAngles false t)).
  { intros t A M Ht Hlt Hgt. apply (readsAs_step s A M _ t); [exact Ht|].
    apply readFrom_escapeAngles. intros tok Hin Hesc.
    destruct Ht as (_ & HA & _). specialize (HA tok Hin Hesc).
    split; intros Heq; rewrite Heq in HA; contradiction. }
  specialize (H12 _ _ _ H11 ltac:(notAmong) ltac:(notAmong)).
  pose proof (readsAs_escapeAtStart _ _ _ _ _ (ch ">")
                (startsWith_head (ch ">") []) eq_refl
                ltac:(discriminate) H12) as H13.
  pose proof (readsAs_escapeOrdinal _ _ _ _ H13) as H14.
  eexists. exact H14.
Qed.

(** X6.  Read as Markdown reads backslashes, the escaped text is the text:
    [escape] loses and adds no character. *)
Theorem escape_reads_back (s : jsstring) : unescape (escape s) = s.
Proof.
  destruct (escape_readsAs s) as (A & H & _). exact H.
Qed.

(** X7.  In the escaped text every backslash, asterisk, underscore, backtick and
    square bracket of the text stands behind an escaping backslash, so that
    Markdown reads none of them as markup. *)
Theorem escape_guards_markers (s : jsstring) (escaped : bool) (c : char) :
  In (escaped, c) (readFrom false (escape s)) ->
  In c inlineMarkers ->
  escaped = true.
Proof.
  intros Hin Hc. destruct (escape_readsAs s) as (A & _ & _ & H).
  apply (H (escaped, c) Hin). cbn [snd].
  cbn [inlineMarkers In] in *.
  vm_compute in Hc. cbn [In].
  destruct Hc as [<- | [<- | [<- | [<- | [<- | [<- | []]]]]]]; among.
Qed.

Lemma escape_guards_markers_witness :
  In (true, ch "_") (readFrom false (escape (lit "snake_case"))) /\
  In (ch "_") inlineMarkers /\ true = true.
Proof.
  assert (H1 : In (true, ch "_") (readFrom false (escape (lit "snake_case"))))
    by (vm_compute; auto 10).
  assert (H2 : In (ch "_") inlineMarkers) by (vm_compute; auto 10).
  split; [exact H1 | split; [exact H2|]].
  exact (escape_guards_markers (lit "snake_case") true (ch "_") H1 H2).
Defined.

Lemma replaceChar_absent (c : char) (r s : jsstring) :
  ~ In c s -> replaceChar c r s = s.
Proof.
  induction s as [|d s IH]; intros H; [reflexivity|].
  cbn [replaceChar].
  destruct (isChar d c) eqn:E.
  - apply N.eqb_eq in E. subst d. exfalso. apply H. now left.
  - cbn [app]. f_equal. apply IH. intros Hin. apply H. now right.
Qed.

Lemma escapeAngles_absent (s : jsstring) :
  ~ In (ch "<") s -> escapeAngles false s = s.
Proof.
  induction s as [|d s IH]; intros H; [reflexivity|].
  cbn [escapeAngles].
  destruct (isChar d (ch "<")) eqn:E.
  - apply N.eqb_eq in E. subst d. exfalso. apply H. now left.
  - cbn [andb]. f_equal. apply IH. intros Hin. apply H. now right.
Qed.

(** X8.  A text without backslash, asterisk, underscore, backtick, square
    bracket and [<], which does not start with a character of an anchored
    pattern, is returned as it is. *)
Theorem escape_plain_text_unchanged (s : jsstring) :
  (forall c, In c (lit "\*_`[]<") -> ~ In c s) ->
  safeStart s ->
  escape s = s.
Proof.
  intros Hplain Hsafe. rewrite (escape_safe s Hsafe). unfold escapeUnanchored.
  rewrite (replaceChar_absent BACKSLASH) by (apply Hplain; vm_compute; auto 10).
  rewrite (replaceChar_absent (ch "*")) by (apply Hplain; vm_compute; auto 10).
  rewrite (replaceChar_absent (ch "_")) by (apply Hplain; vm_compute; auto 10).
  rewrite (replaceChar_absent BACKTICK) by (apply Hplain; vm_compute; auto 10).
  rewrite (replaceChar_absent (ch "[")) by (apply Hplain; vm_compute; auto 10).
  rewrite (replaceChar_absent (ch "]")) by (apply Hplain; vm_compute; auto 10).
  apply escapeAngles_absent. apply Hplain. vm_compute; auto 10.
Qed.

Lemma escape_plain_text_unchanged_witness :
  escape (lit "Cost: 3 > 2, (really) 100%!") = lit "Cost: 3 > 2, (really) 100%!".
Proof.
  apply escape_plain_text_unchanged.
  - intros c Hc Hin. vm_compute in Hc, Hin.
    repeat (destruct Hc as [<- | Hc];
            [repeat (destruct Hin as [Hin | Hin]; [discriminate Hin|]);
             exact Hin|]).
    exact Hc.
  - reflexivity.
Defined.

(** ** node.ts: the white space at the edges of a text *)

Lemma take_dropWhileEnd (p : char -> bool) (s : jsstring) :
  take (length s - length (rev (takeWhile p (rev s)))) s = dropWhileEnd p s.
Proof.
  rewrite (dropWhileEnd_split p s) at 1 3.
  rewrite length_app.
  replace (length (dropWhileEnd p s) + length (rev (takeWhile p (rev s)))
           - length (rev (takeWhile p (rev s))))
    with (length (dropWhileEnd p s)) by lia.
  now rewrite take_app_length.
Qed.

(** X9.  [edgeWhitespace] cuts a text into its leading white space, its trimmed
    middle and its trailing white space; the leading part is ASCII white
    space followed by a part that does not start with ASCII white space, the
    trailing part ends with ASCII white space behind a part that does not. *)
Theorem edgeWhitespace_partition (s : jsstring) :
  let e := edgeWhitespace s in
  s = edgeLeading e ++ trim s ++ edgeTrailing e /\
  edgeLeading e = leadingAscii e ++ leadingNonAscii e /\
  edgeTrailing e = trailingNonAscii e ++ trailingAscii e /\
  Forall (fun c => isWhiteSpace c = true) (edgeLeading e ++ edgeTrailing e) /\
  Forall (fun c => isAsciiWhiteSpace c = true) (leadingAscii e ++ trailingAscii e) /\
  (forall c, head (leadingNonAscii e) = Some c -> isAsciiWhiteSpace c = false) /\
  (forall c, last (trailingNonAscii e) = Some c -> isAsciiWhiteSpace c = false).
Proof.
  cbn zeta. unfold edgeWhitespace.
  cbn [edgeLeading edgeTrailing leadingAscii leadingNonAscii trailingNonAscii
       trailingAscii].
  set (lead := takeWhile isWhiteSpace s).
  set (rest := dropWhile isWhiteSpace s).
  set (trail := rev (takeWhile isWhiteSpace (rev rest))).
  split; [|split; [|split; [|split; [|split; [|split]]]]].
  - unfold trim. fold rest. subst trail.
    rewrite <- dropWhileEnd_split. subst lead rest.
    now rewrite takeWhile_dropWhile.
  - now rewrite takeWhile_dropWhile.
  - rewrite take_dropWhileEnd. apply dropWhileEnd_split.
  - apply Forall_app. split; [apply takeWhile_Forall|].
    apply List.Forall_rev, takeWhile_Forall.
  - apply Forall_app. split; [apply takeWhile_Forall|].
    apply List.Forall_rev, takeWhile_Forall.
  - intros c E. now apply dropWhile_head in E.
  - rewrite take_dropWhileEnd. intros c E. now apply dropWhileEnd_last in E.
Qed.

(** ** node.ts: blank nodes *)

Lemma countDescendants_Element (tag name : jsstring)
    (attrs : list (jsstring * jsstring)) (kids : list Node) :
  countDescendants tag (Element name attrs kids)
  = list_sum (map (fun k =>
                     (if isElement k && JS.eqb (nodeName k) tag then 1 else 0)
                     + countDescendants tag k) kids).
Proof.
  cbn [countDescendants]. unfold list_sum.
  induction kids as [|k kids IH]; [reflexivity|].
  cbn [map fold_right]. rewrite <- IH. lia.
Qed.

Lemma countDescendants_zero (tag : jsstring) (n : Node) :
  countDescendants tag n = 0 <->
  (forall d, descendant d n -> isElement d = true -> nodeName d <> tag).
Proof.
  induction n as [v|v|name attrs kids IH] using Node_induction.
  - split; [|reflexivity]. intros _ d Hd. inversion Hd.
  - split; [|reflexivity]. intros _ d Hd. inversion Hd.
  - rewrite countDescendants_Element. split.
    + intros Hzero d Hd Hel.
      assert (Hall : forall k, In k kids ->
                (if isElement k && JS.eqb (nodeName k) tag then 1 else 0)
                + countDescendants tag k = 0).
      { clear -Hzero. unfold list_sum in Hzero.
        induction kids as [|x kids IHk]; intros k []; subst;
          cbn [map fold_right] in Hzero; [lia | apply IHk; [lia | assumption]]. }
      inversion Hd as [? ? ? k Hin | ? ? ? k d' Hin Hdeep]; subst.
      * specialize (Hall d Hin). rewrite Hel in Hall. cbn [andb] in Hall.
        unfold JS.eqb in Hall. intros Heq.
        rewrite bool_decide_eq_true_2 in Hall by exact Heq. lia.
      * specialize (Hall k Hin).
        rewrite List.Forall_forall in IH.
        apply (proj1 (IH k Hin)); [lia | exact Hdeep | exact Hel].
    + intros Hnone.
      assert (Hall : forall k, In k kids ->
                (if isElement k && JS.eqb (nodeName k) tag then 1 else 0)
                + countDescendants tag k = 0).
      { intros k Hin. rewrite List.Forall_forall in IH.
        assert (countDescendants tag k = 0) as ->.
        { apply (IH k Hin). intros d Hd. apply Hnone.
          now apply descendant_deeper with k. }
        destruct (isElement k) eqn:Hel; [|reflexivity]. cbn [andb].
        unfold JS.eqb. rewrite bool_decide_eq_false_2; [reflexivity|].
        apply Hnone; [now apply descendant_child | exact Hel]. }
      clear -Hall. unfold list_sum.
      induction kids as [|x kids IHk]; [reflexivity|].
      cbn [map fold_right]. rewrite (Hall x) by now left.
      apply IHk. intros k Hin. apply Hall. now right.
Qed.

Lemma includes_false (x : jsstring) (l : list jsstring) :
  includes x l = false <-> ~ In x l.
Proof.
  unfold includes. split.
  - intros H Hin. apply Bool.not_true_iff_false in H. apply H.
    apply existsb_exists. exists x. split; [exact Hin|].
    unfold JS.eqb. now apply bool_decide_eq_true_2.
  - intros H. apply Bool.not_true_iff_false. intros Hex.
    apply existsb_exists in Hex as (y & Hin & Heq).
    unfold JS.eqb in Heq. apply bool_decide_eq_true in Heq. now subst.
Qed.

Lemma hasOneOf_false (n : Node) (tags : list jsstring) :
  hasOneOf n tags = false <->
  (forall d, descendant d n -> isElement d = true ->
             includes (nodeName d) tags = false).
Proof.
  unfold hasOneOf. split.
  - intros H d Hd Hel. apply includes_false. intros Hin.
    apply Bool.not_true_iff_false in H. apply H.
    apply existsb_exists. exists (nodeName d). split; [exact Hin|].
    destruct n as [v|v|name attrs kids]; [inversion Hd | inversion Hd|].
    cbn [nodeType negb N.eqb]. change (NodeTypes.Element =? NodeTypes.Element)%N with true.
    cbn [negb]. apply negb_true_iff, Nat.eqb_neq. intros Hzero.
    now apply (proj1 (countDescendants_zero _ _) Hzero d Hd Hel).
  - intros H. apply Bool.not_true_iff_false. intros Hex.
    apply existsb_exists in Hex as (tag & Hin & Hcount).
    destruct (negb (nodeType n =? NodeTypes.Element)%N); [discriminate|].
    apply negb_true_iff, Nat.eqb_neq in Hcount. apply Hcount.
    apply (proj2 (countDescendants_zero _ _)). intros d Hd Hel Heq.
    specialize (H d Hd Hel). apply includes_false in H. apply H. now subst tag.
Qed.

Lemma includes_app (x : jsstring) (l1 l2 : list jsstring) :
  includes x (l1 ++ l2) = includes x l1 || includes x l2.
Proof. unfold includes. apply existsb_app. Qed.

(** X10.  A node is blank exactly when its text is white space only and neither
    the node nor an element below it is a void element or an element that
    is meaningful when blank. *)
Theorem isBlank_characterised (n : Node) :
  isBlankNode n = true <->
  isWhiteSpaceOnly (textContent n) = true /\
  includes (nodeName n) (voidElements ++ meaningfulWhenBlankElements) = false /\
  (forall d, descendant d n -> isElement d = true ->
             includes (nodeName d) (voidElements ++ meaningfulWhenBlankElements)
             = false).
Proof.
  unfold isBlankNode, isVoid, isMeaningfulWhenBlank, hasVoid,
    hasMeaningfulWhenBlank, isOneOf.
  rewrite !andb_true_iff, !negb_true_iff, includes_app, orb_false_iff.
  rewrite !hasOneOf_false.
  split.
  - intros ((((Hv & Hm) & Hws) & Hhv) & Hhm).
    split; [exact Hws | split; [now split|]].
    intros d Hd Hel. rewrite includes_app, orb_false_iff. auto.
  - intros (Hws & (Hv & Hm) & Hbelow).
    repeat split; try assumption; intros d Hd Hel;
      specialize (Hbelow d Hd Hel);
      rewrite includes_app, orb_false_iff in Hbelow; tauto.
Qed.

(** ** rules.ts: unsupported elements *)

Lemma eqb_includes (name : jsstring) (tag : jsstring) (l : list jsstring) :
  JS.eqb name tag = true -> In tag l -> includes name l = true.
Proof.
  intros H Hin. unfold includes. apply existsb_exists.
  exists tag. split; assumption.
Qed.

Lemma unsupported_nonstandard (node : ExtendedNode) :
  includes (nodeName (self (located node))) standardMarkdownElements = false ->
  isUnsupportedElement node = true.
Proof.
  intros Hstd. unfold isUnsupportedElement. cbv zeta.
  match goal with |- (if ?b then _ else _) = _ => destruct b end;
    [reflexivity|].
  rewrite Hstd. cbn [negb].
  destruct (attributes (self (located node))) as [|a attrs]; [reflexivity|].
  destruct (JS.eqb _ (lit "IMG")) eqn:E1.
  { rewrite (eqb_includes _ _ standardMarkdownElements E1) in Hstd;
      [discriminate | vm_compute; auto 40]. }
  destruct (JS.eqb _ (lit "A")) eqn:E2.
  { rewrite (eqb_includes _ _ standardMarkdownElements E2) in Hstd;
      [discriminate | vm_compute; auto 40]. }
  destruct (JS.eqb _ (lit "CODE")) eqn:E3.
  { rewrite (eqb_includes _ _ standardMarkdownElements E3) in Hstd;
      [discriminate | vm_compute; auto 40]. }
  reflexivity.
Qed.

(** X11.  Which elements are unsupported: every element outside the standard
    Markdown elements; every element with an attribute, unless it is an IMG,
    an A or a CODE; and no standard element that has no attribute and whose
    first child has none. *)
Theorem isUnsupportedElement_cases (node : ExtendedNode) :
  let n := self (located node) in
  (includes (nodeName n) standardMarkdownElements = false ->
   isUnsupportedElement node = true) /\
  (attributes n <> [] ->
   includes (nodeName n) [lit "IMG"; lit "A"; lit "CODE"] = false ->
   isUnsupportedElement node = true) /\
  (attributes n = [] ->
   includes (nodeName n) standardMarkdownElements = true ->
   (forall child, firstChild n = Some child -> attributes child = []) ->
   isUnsupportedElement node = false).
Proof.
  cbv zeta. split; [apply unsupported_nonstandard | split].
  - intros Hattrs Hname. unfold isUnsupportedElement. cbv zeta.
    match goal with |- (if ?b then _ else _) = _ => destruct b end;
      [reflexivity|].
    destruct (attributes (self (located node))) as [|a attrs];
      [contradiction|].
    cbn [includes existsb] in Hname.
    apply orb_false_iff in Hname as [-> Hname].
    apply orb_false_iff in Hname as [-> Hname].
    apply orb_false_iff in Hname as [-> _]. reflexivity.
  - intros Hattrs Hname Hchild. unfold isUnsupportedElement. cbv zeta.
    rewrite Hattrs, Hname.
    destruct (firstChild (self (located node))) as [child|] eqn:E.
    + rewrite (Hchild child eq_refl). cbn [hasAttributeOutside existsb].
      now rewrite !andb_false_r.
    + now rewrite andb_false_r.
Qed.

Lemma isUnsupportedElement_cases_witness :
  isUnsupportedElement (extend More.video false Sample.options) = true.
Proof.
  exact (proj1 (isUnsupportedElement_cases
                  (extend More.video false Sample.options)) eq_refl).
Defined.

(** X12.  When HTML is retained, an element outside the standard Markdown
    elements that is not blank gets the retention replacement, whatever rules
    were added, kept or removed. *)
Theorem forNode_retains_nonstandard (r : Rules) (node : ExtendedNode) :
  isBlank node = false ->
  includes (nodeName (self (located node))) standardMarkdownElements = false ->
  htmlRetentionMode (options r) <> standard ->
  forNode r node
  = Normal {| filter := None;
              replacement :=
                pure (match htmlRetentionMode (options r) with
                      | preserveAll => rulesKeepReplacement r
                      | _ => rulesMarkdownIncludingHtmlReplacement r
                      end);
              append := None |}.
Proof.
  intros Hblank Hname Hmode. unfold forNode.
  rewrite Hblank, (unsupported_nonstandard node Hname).
  destruct (htmlRetentionMode (options r)); [contradiction | |]; reflexivity.
Qed.

Lemma forNode_retains_nonstandard_witness :
  forNode (newRules More.preserving Sample.rules)
          (extend More.video false More.preserving)
  = Normal {| filter := None;
              replacement := pure (keepReplacement More.preserving);
              append := None |}.
Proof.
  apply (forNode_retains_nonstandard
           (newRules More.preserving Sample.rules)
           (extend More.video false More.preserving));
    [reflexivity | reflexivity | discriminate].
Defined.

(** ** index.ts: a render that cannot throw *)

Lemma pure_neverThrows (o : Options) (f : jsstring -> ExtendedNode -> jsstring) :
  neverThrows o {| filter := None; replacement := pure f; append := None |}.
Proof.
  split; [|discriminate]. intros content node st. cbn. unfold pure, ret. eauto.
Qed.

Lemma bind_returns {A B} (m : M A) (k : A -> M B) :
  returnsValue m -> (forall a, returnsValue (k a)) -> returnsValue (bind m k).
Proof.
  intros Hm Hk st. unfold bind.
  destruct (Hm st) as (a & st1 & ->). apply Hk.
Qed.

Lemma ret_returns {A} (a : A) : returnsValue (ret a).
Proof. intros st. unfold ret. eauto. Qed.

Section Returns.

Variable r : Rules.
Hypothesis r_sound : soundRules r.

Lemma forNode_returns (node : ExtendedNode) :
  exists rule, forNode r node = Normal rule /\ neverThrows (options r) rule.
Proof.
  destruct r_sound as (Hall & Hblank & Hdefault).
  unfold forNode.
  destruct (isBlank node); [eauto|].
  destruct (_ && _); [eexists; split; [reflexivity | apply pure_neverThrows]|].
  destruct (_ && _); [eexists; split; [reflexivity | apply pure_neverThrows]|].
  assert (Ha : Forall (fun x => filter x <> None) (array r ++ _keep r ++ _remove r)).
  { eapply List.Forall_impl; [|exact Hall]. now intros x [H _]. }
  rewrite List.Forall_forall in Hall.
  apply Forall_app in Ha as [Ha Hk]. apply Forall_app in Hk as [Hk Hr].
  destruct (findRule_total (array r) node (options r) Ha) as ([x|] & Ea);
    rewrite Ea.
  { exists x. split; [reflexivity|]. apply Hall.
    apply in_or_app. left. now apply findRule_In in Ea. }
  destruct (findRule_total (_keep r) node (options r) Hk) as ([x|] & Ek);
    rewrite Ek.
  { exists x. split; [reflexivity|]. apply Hall.
    apply in_or_app. right. apply in_or_app. left. now apply findRule_In in Ek. }
  destruct (findRule_total (_remove r) node (options r) Hr) as ([x|] & Er);
    rewrite Er.
  { exists x. split; [reflexivity|]. apply Hall.
    apply in_or_app. right. apply in_or_app. right. now apply findRule_In in Er. }
  eauto.
Qed.

Lemma replacementForNode_returns (processNode : M jsstring) (node : ExtendedNode) :
  returnsValue processNode ->
  returnsValue (replacementForNode r processNode node).
Proof.
  intros Hprocess st. unfold replacementForNode.
  destruct (forNode_returns node) as (rule & Erule & Hrule & _).
  unfold bind at 1. unfold lift. rewrite Erule.
  revert st. apply bind_returns; [exact Hprocess|]. intros content.
  apply bind_returns; [apply Hrule | intros; apply ret_returns].
Qed.

Lemma reduceNodes_returns
    (callback : jsstring -> list Node -> Node -> list Node -> M jsstring)
    (later : list Node) :
  (forall out before n after, In n later ->
      returnsValue (callback out before n after)) ->
  forall earlier output, returnsValue (reduceNodes callback earlier later output).
Proof.
  induction later as [|n later IH]; intros Hcb earlier output;
    cbn [reduceNodes].
  - apply ret_returns.
  - apply bind_returns.
    + apply Hcb. now left.
    + intros out. apply IH. intros. apply Hcb. now right.
Qed.

Lemma process_returns (parent : Node) :
  forall up code, returnsValue (process r parent up code).
Proof.
  induction parent as [v|v|name attrs kids IH] using Node_induction;
    intros up code; try apply ret_returns.
  cbn [process]. apply reduceNodes_returns.
  intros out before n after Hn.
  apply bind_returns; [|intros; apply ret_returns].
  destruct n as [v|v|name' attrs' kids'].
  - apply ret_returns.
  - apply ret_returns.
  - apply replacementForNode_returns.
    rewrite List.Forall_forall in IH. apply (IH _ Hn).
Qed.

Lemma appendAll_returns (l : list Rule) :
  Forall (neverThrows (options r)) l ->
  forall output, returnsValue (appendAll l (options r) output).
Proof.
  induction 1 as [|rule l [_ Hhook] _ IH]; intros output; cbn [appendAll].
  - apply ret_returns.
  - destruct (append rule) as [hook|] eqn:E; [|apply IH].
    apply bind_returns; [now apply Hhook | intros; apply IH].
Qed.

Lemma postProcess_returns (output : jsstring) :
  returnsValue (postProcess r output).
Proof.
  unfold postProcess. apply bind_returns; [|intros; apply ret_returns].
  apply appendAll_returns.
  destruct r_sound as (Hall & _). apply Forall_app in Hall as [Hall _].
  eapply List.Forall_impl; [|exact Hall]. now intros x [_ H].
Qed.

End Returns.

(** X13.  With rules that have a proper filter and replacements and hooks that do
    not throw, [render] returns for every string and every element,
    document or fragment, whatever the tree is. *)
Theorem render_returns (RootNode : JSValue -> Options -> Node) (r : Rules)
    (input : JSValue) :
  soundRules r ->
  canConvert input = true ->
  returnsValue (render RootNode r input).
Proof.
  intros Hr Hin. unfold render. rewrite Hin. cbn [negb].
  assert (H : returnsValue
                (do output <- process r (RootNode input (options r)) [] false;
                 postProcess r output)).
  { apply bind_returns; [now apply process_returns|].
    intros output. now apply postProcess_returns. }
  destruct input as [| |[|c s]|shown|description|t shown]; try exact H.
  apply ret_returns.
Qed.

Lemma referenceLink_neverThrows (o : Options) : neverThrows o referenceLink.
Proof.
  split.
  - intros content node st. cbn [replacement referenceLink].
    unfold referenceLinkReplacement.
    repeat case_match; eauto.
  - intros hook [= <-] st. unfold referenceLinkAppend.
    destruct (references st); eauto.
Qed.

Lemma ret_neverThrows (o : Options) (f : option RuleFilter)
    (g : jsstring -> ExtendedNode -> Options -> jsstring) :
  neverThrows o {| filter := f;
                   replacement := fun content node options =>
                                    ret (g content node options);
                   append := None |}.
Proof.
  split; [|discriminate]. intros content node st. cbn. unfold ret. eauto.
Qed.

Lemma sample_rules_sound : soundRules (newRules Sample.options Sample.rules).
Proof.
  split; [|split; apply pure_neverThrows].
  cbn [newRules array _keep _remove options Sample.rules map snd app].
  repeat (apply List.Forall_cons || apply List.Forall_nil);
    (split; [discriminate|]).
  - apply pure_neverThrows || (split; [|discriminate]; intros content node st;
                               cbn; unfold ret; eauto).
  - split; [|discriminate]. intros content node st.
    cbn; unfold lift; eauto.
  - apply referenceLink_neverThrows.
  - apply (ret_neverThrows _ _ (fun content _ options =>
                                  delimited (emDelimiter options) content)).
  - apply (ret_neverThrows _ _ (fun content _ options =>
                                  delimited (strongDelimiter options) content)).
  - apply (ret_neverThrows _ _ (fun content _ _ => codeReplacement content)).
Qed.

Lemma render_returns_witness :
  returnsValue (render Sample.parsedThreeLinks
                       (newRules Sample.options Sample.rules)
                       Sample.threeLinksMarkup).
Proof.
  apply render_returns; [exact sample_rules_sound | reflexivity].
Defined.

(** ** default-rules.ts: the numbering of reference links *)

Lemma includes_elem_of (x : jsstring) (l : list jsstring) :
  includes x l = true <-> x ∈ l.
Proof.
  unfold includes. rewrite existsb_exists. split.
  - intros (y & Hin & Heq). unfold JS.eqb in Heq.
    apply bool_decide_eq_true in Heq. subst y. now apply list_elem_of_In.
  - intros Hin. exists x. split; [now apply list_elem_of_In|].
    unfold JS.eqb. now apply bool_decide_eq_true_2.
Qed.

Lemma numbered_empty : numbered [] emptyReferences.
Proof.
  split; [constructor | split; [reflexivity|]].
  intros key id. cbn. rewrite lookup_empty. split; [discriminate|].
  now intros (i & _ & H).
Qed.

Section Numbering.

Variable options : Options.
Hypothesis style_full : linkReferenceStyle options = full.
Hypothesis dedup_full : linkReferenceDeduplication options = dedupFull.

Lemma referenceLink_unfold (content : jsstring) (node : ExtendedNode)
    (st : ReferenceState) :
  referenceLinkReplacement content node options st
  = match urlReferenceIdMap st !! referenceKeyOf node with
    | Some (S k) =>
        (Normal (lit "[" ++ content ++ lit "][" ++ ofNat (S k) ++ lit "]"), st)
    | _ =>
        (Normal (lit "[" ++ content ++ lit "][" ++
                 ofNat (length (references st) + 1) ++ lit "]"),
         {| references :=
              references st ++
              [referenceDefinition (length (references st)) (referenceKeyOf node)];
            urlReferenceIdMap :=
              <[referenceKeyOf node := length (references st) + 1]>
                (urlReferenceIdMap st) |})
    end.
Proof.
  unfold referenceLinkReplacement, referenceKeyOf, referenceDefinition,
    hrefOf, titleOf.
  rewrite style_full, dedup_full.
  destruct (urlReferenceIdMap st !! _) as [[|k]|]; reflexivity.
Qed.

Lemma referenceLink_seen (content : jsstring) (node : ExtendedNode)
    (ks : list jsstring) (st : ReferenceState) (i : nat) :
  numbered ks st -> ks !! i = Some (referenceKeyOf node) ->
  referenceLinkReplacement content node options st
  = (Normal (lit "[" ++ content ++ lit "][" ++ ofNat (i + 1) ++ lit "]"), st).
Proof.
  intros (_ & _ & Hmap) Hi. rewrite referenceLink_unfold.
  assert (urlReferenceIdMap st !! referenceKeyOf node = Some (S i)) as ->
      by (apply Hmap; eauto).
  now rewrite Nat.add_1_r.
Qed.

Lemma referenceLink_new (content : jsstring) (node : ExtendedNode)
    (ks : list jsstring) (st : ReferenceState) :
  numbered ks st -> referenceKeyOf node ∉ ks ->
  exists st',
    referenceLinkReplacement content node options st
    = (Normal (lit "[" ++ content ++ lit "][" ++ ofNat (length ks + 1) ++ lit "]"),
       st') /\
    numbered (ks ++ [referenceKeyOf node]) st'.
Proof.
  intros (Hnodup & Hrefs & Hmap) Hnew. rewrite referenceLink_unfold.
  assert (urlReferenceIdMap st !! referenceKeyOf node = None) as ->.
  { destruct (urlReferenceIdMap st !! referenceKeyOf node) as [id|] eqn:E;
      [|reflexivity].
    apply Hmap in E as (i & _ & Hi). exfalso. apply Hnew.
    now apply list_elem_of_lookup_2 in Hi. }
  assert (Hlen : length (references st) = length ks)
    by (rewrite Hrefs; apply length_imap).
  rewrite Hlen. eexists. split; [reflexivity|].
  split; [|split].
  - apply NoDup_app. split; [exact Hnodup|]. split; [|apply NoDup_singleton].
    intros x Hx Hx'. apply list_elem_of_singleton in Hx'. now subst x.
  - cbn [references]. rewrite imap_app, Hrefs. cbn [imap].
    now rewrite Nat.add_0_r.
  - intros key id. cbn [urlReferenceIdMap].
    destruct (decide (key = referenceKeyOf node)) as [-> | Hne].
    + rewrite lookup_insert_eq. split.
      * intros [= <-]. exists (length ks).
        split; [lia|]. now rewrite list_lookup_middle.
      * intros (i & -> & Hi). f_equal.
        destruct (decide (i < length ks)) as [Hlt | Hge].
        -- rewrite lookup_app_l in Hi by exact Hlt. exfalso. apply Hnew.
           now apply list_elem_of_lookup_2 in Hi.
        -- apply lookup_lt_Some in Hi. rewrite length_app in Hi. cbn in Hi. lia.
    + rewrite lookup_insert_ne by congruence. rewrite Hmap. split.
      * intros (i & -> & Hi). exists i. split; [reflexivity|].
        now apply lookup_app_l_Some.
      * intros (i & -> & Hi). exists i. split; [reflexivity|].
        apply lookup_app_Some in Hi as [Hi | [_ Hi]]; [exact Hi|].
        exfalso. destruct (i - length ks); [|now destruct n].
        cbn in Hi. congruence.
Qed.

Lemma replaceEach_numbered (links : list (jsstring * ExtendedNode)) :
  forall ks st,
    numbered ks st ->
    let keys := ks ++ firstOccurrencesFrom ks (map (fun l => referenceKeyOf (snd l)) links) in
    numbered keys (snd (replaceEach options links st)) /\
    Forall2 (fun link text =>
               exists i, keys !! i = Some (referenceKeyOf (snd link)) /\
                         text = Normal (lit "[" ++ fst link ++ lit "][" ++
                                        ofNat (i + 1) ++ lit "]"))
            links (fst (replaceEach options links st)).
Proof.
  induction links as [|[content node] links IH]; intros ks st Hst; cbn zeta.
  - cbn. rewrite app_nil_r. split; [exact Hst | constructor].
  - cbn [map firstOccurrencesFrom replaceEach snd fst].
    destruct (includes (referenceKeyOf node) ks) eqn:E.
    + apply includes_elem_of in E. apply list_elem_of_lookup in E as (i & Hi).
      rewrite (referenceLink_seen content node ks st i Hst Hi).
      destruct (IH ks st Hst) as (H1 & H2).
      destruct (replaceEach options links st) as [texts st2].
      cbn [fst snd] in *. split; [exact H1|].
      constructor; [|exact H2].
      exists i. split; [now apply lookup_app_l_Some | reflexivity].
    + assert (Hnew : referenceKeyOf node ∉ ks).
      { intros Hin. apply includes_elem_of in Hin. congruence. }
      destruct (referenceLink_new content node ks st Hst Hnew)
        as (st' & -> & Hst').
      destruct (IH _ st' Hst') as (H1 & H2).
      destruct (replaceEach options links st') as [texts st2].
      cbn [fst snd] in *. rewrite <- app_assoc in H1, H2. cbn [app] in H1, H2.
      split; [exact H1|].
      constructor; [|exact H2].
      exists (length ks). split; [now rewrite list_lookup_middle | reflexivity].
Qed.

End Numbering.

(** X14.  In the full style with deduplication, links replaced in document order
    from the empty accumulator leave one definition for each different
    target (address and title), numbered from 1 in the order in which the
    targets first appear; the replacement of every link carries the number
    of the definition of its own target. *)
Theorem reference_links_numbered_by_first_appearance (options : Options)
    (links : list (jsstring * ExtendedNode)) :
  linkReferenceStyle options = full ->
  linkReferenceDeduplication options = dedupFull ->
  let targets :=
    firstOccurrencesFrom [] (map (fun l => referenceKeyOf (snd l)) links) in
  NoDup targets /\
  references (snd (replaceEach options links emptyReferences))
  = imap referenceDefinition targets /\
  Forall2 (fun link text =>
             exists i, targets !! i = Some (referenceKeyOf (snd link)) /\
                       text = Normal (lit "[" ++ fst link ++ lit "][" ++
                                      ofNat (i + 1) ++ lit "]"))
          links (fst (replaceEach options links emptyReferences)).
Proof.
  intros Hstyle Hdedup.
  destruct (replaceEach_numbered options Hstyle Hdedup links [] emptyReferences
              numbered_empty) as ((Hnodup & Hrefs & _) & Htexts).
  cbn [app] in *. auto.
Qed.

Lemma reference_links_numbered_by_first_appearance_witness :
  references (snd (replaceEach (Sample.withLinks dedupFull)
                               (More.fourLinks (Sample.withLinks dedupFull))
                               emptyReferences))
  = [lit "[1]: /a"; lit "[2]: /b"; lit "[3]: /c"].
Proof.
  refine (eq_trans
            (proj1 (proj2 (reference_links_numbered_by_first_appearance
                             (Sample.withLinks dedupFull)
                             (More.fourLinks (Sample.withLinks dedupFull))
                             eq_refl eq_refl))) _).
  vm_compute. reflexivity.
Defined.

(** ** default-rules.ts: reference links labelled with their text *)

Section Labelled.

Variable options : Options.
Hypothesis style_labelled : linkReferenceStyle options <> full.
Hypothesis dedup_full : linkReferenceDeduplication options = dedupFull.

Lemma labelled_unfold (content : jsstring) (node : ExtendedNode)
    (st : ReferenceState) :
  referenceLinkReplacement content node options st
  = (Normal (labelledMarker (linkReferenceStyle options) (content, node)),
     match urlReferenceIdMap st !! referenceKeyOf node with
     | None =>
         {| references := references st ++ [labelledDefinition (content, node)];
            urlReferenceIdMap :=
              <[referenceKeyOf node := 1]> (urlReferenceIdMap st) |}
     | Some _ => st
     end).
Proof.
  unfold referenceLinkReplacement, referenceKeyOf, labelledDefinition,
    labelledMarker, hrefOf, titleOf.
  rewrite dedup_full.
  destruct (linkReferenceStyle options); [contradiction | |]; reflexivity.
Qed.

Lemma replaceEach_labelled (links : list (jsstring * ExtendedNode)) :
  forall seen st,
    (forall key, is_Some (urlReferenceIdMap st !! key) <-> key ∈ seen) ->
    references (snd (replaceEach options links st))
    = references st ++ map labelledDefinition (firstLinksFrom seen links) /\
    fst (replaceEach options links st)
    = map (fun link => Normal (labelledMarker (linkReferenceStyle options) link))
          links.
Proof.
  induction links as [|[content node] links IH]; intros seen st Hseen.
  - cbn. now rewrite app_nil_r.
  - cbn [replaceEach firstLinksFrom map snd fst].
    rewrite labelled_unfold.
    destruct (includes (referenceKeyOf node) seen) eqn:E.
    + apply includes_elem_of in E. apply Hseen in E as [id ->].
      destruct (IH seen st Hseen) as (H1 & H2).
      destruct (replaceEach options links st) as [texts st2].
      cbn [fst snd] in *. split; [exact H1 | now rewrite H2].
    + assert (urlReferenceIdMap st !! referenceKeyOf node = None) as ->.
      { apply eq_None_not_Some. intros H. apply Hseen in H.
        apply includes_elem_of in H. congruence. }
      match goal with
      | |- context [replaceEach options links ?s] =>
          destruct (IH (seen ++ [referenceKeyOf node]) s) as (H1 & H2)
      end.
      { intros key. cbn [urlReferenceIdMap].
        rewrite elem_of_app, list_elem_of_singleton, <- Hseen.
        destruct (decide (key = referenceKeyOf node)) as [-> | Hne].
        - rewrite lookup_insert_eq. split; [auto | eauto].
        - rewrite lookup_insert_ne by congruence. split; [auto | tauto]. }
      match goal with
      | |- context [replaceEach options links ?s] =>
          destruct (replaceEach options links s) as [texts st2]
      end.
      cbn [fst snd references] in *. split; [|now rewrite H2].
      rewrite H1. cbn [map]. now rewrite <- app_assoc.
Qed.

End Labelled.

(** X15.  In the collapsed and shortcut styles with deduplication, links replaced
    in document order from the empty accumulator leave one definition for
    each different target, that of the first link to it, labelled with the
    text of that link: a later link to the same target adds no definition,
    whatever its text is. *)
Theorem reference_links_labelled_once (options : Options)
    (links : list (jsstring * ExtendedNode)) :
  linkReferenceStyle options <> full ->
  linkReferenceDeduplication options = dedupFull ->
  references (snd (replaceEach options links emptyReferences))
  = map labelledDefinition (firstLinksFrom [] links) /\
  fst (replaceEach options links emptyReferences)
  = map (fun link => Normal (labelledMarker (linkReferenceStyle options) link))
        links.
Proof.
  intros Hstyle Hdedup.
  apply (replaceEach_labelled options Hstyle Hdedup links [] emptyReferences).
  intros key. cbn. rewrite lookup_empty. split.
  - intros [x Hx]. discriminate.
  - intros H. inversion H.
Qed.

Lemma reference_links_labelled_once_witness :
  references (snd (replaceEach More.collapsing (More.fourLinks More.collapsing)
                               emptyReferences))
  = [lit "[one]: /a"; lit "[two]: /b"; lit "[four]: /c"].
Proof.
  refine (eq_trans
            (proj1 (reference_links_labelled_once
                      More.collapsing (More.fourLinks More.collapsing)
                      ltac:(discriminate) eq_refl)) _).
  vm_compute. reflexivity.
Defined.

(** ** default-rules.ts: block quotes and indented code, line by line *)

Lemma lines_splitWhere (s : jsstring) : lines s = splitWhere isLineTerminator s.
Proof.
  induction s as [|c s IH]; [reflexivity|]. cbn [lines splitWhere].
  now rewrite IH.
Qed.

Lemma splitWhere_not_nil (p : char -> bool) (s : jsstring) :
  exists l ls, splitWhere p s = l :: ls.
Proof.
  induction s as [|c s (l & ls & IH)]; cbn [splitWhere]; [eauto|].
  destruct (p c); [eauto|]. rewrite IH. eauto.
Qed.

Lemma splitWhere_app_plain (p : char -> bool) (u t : jsstring) :
  Forall (fun c => p c = false) u ->
  splitWhere p (u ++ t)
  = match splitWhere p t with
    | l :: ls => (u ++ l) :: ls
    | [] => []
    end.
Proof.
  induction 1 as [|c u Hc _ IH]; cbn [app splitWhere].
  - destruct (splitWhere_not_nil p t) as (l & ls & ->). reflexivity.
  - rewrite Hc, IH.
    destruct (splitWhere_not_nil p t) as (l & ls & ->). reflexivity.
Qed.

Lemma splitWhere_prefixLines (prefix : jsstring) (s : jsstring) :
  Forall (fun c => isLineTerminator c = false) prefix ->
  forall atStart,
    splitWhere isLineTerminator (prefixLines prefix atStart s)
    = match splitWhere isLineTerminator s with
      | l :: ls => ((if atStart then prefix else []) ++ l) :: map (app prefix) ls
      | [] => []
      end.
Proof.
  intros Hprefix.
  induction s as [|c s IH]; intros atStart.
  - cbn [prefixLines]. rewrite splitWhere_app_plain
      by (destruct atStart; [exact Hprefix | constructor]).
    reflexivity.
  - cbn [prefixLines]. rewrite splitWhere_app_plain
      by (destruct atStart; [exact Hprefix | constructor]).
    cbn [splitWhere]. rewrite IH.
    destruct (splitWhere_not_nil isLineTerminator s) as (l & ls & ->).
    destruct (isLineTerminator c); reflexivity.
Qed.

(** X16.  The block quote puts the marker before every line of the content, which
    it changes in no other way: the lines of the quote are the lines of the
    content without the newlines at its ends, each behind the marker. *)
Theorem blockquote_marks_every_line (content : jsstring) :
  exists quoted,
    blockquoteReplacement content = asBlock quoted /\
    lines quoted = map (app (lit "> ")) (lines (trimNewlines content)).
Proof.
  eexists. split; [reflexivity|].
  rewrite !lines_splitWhere, splitWhere_prefixLines
    by (repeat constructor).
  destruct (splitWhere_not_nil isLineTerminator (trimNewlines content))
    as (l & ls & ->).
  reflexivity.
Qed.

Lemma splitOnNewline_indent (indent : jsstring) (s : jsstring) :
  Forall (fun c => isChar c LF = false) indent ->
  splitOnNewline (replaceChar LF (LF :: indent) s)
  = match splitOnNewline s with
    | l :: ls => l :: map (app indent) ls
    | [] => []
    end.
Proof.
  intros Hindent. unfold splitOnNewline.
  induction s as [|c s IH]; [reflexivity|].
  cbn [replaceChar]. destruct (isChar c LF) eqn:E.
  - cbn [app splitWhere]. change (isChar LF LF) with true. cbn match.
    rewrite splitWhere_app_plain by exact Hindent. rewrite IH, E.
    destruct (splitWhere_not_nil (fun c => isChar c LF) s) as (l & ls & ->).
    reflexivity.
  - cbn [app splitWhere]. rewrite E, IH.
    destruct (splitWhere_not_nil (fun c => isChar c LF) s) as (l & ls & ->).
    reflexivity.
Qed.

(** X17.  The indented code block puts four spaces before every line of the code:
    the lines of the block, cut at the newlines, are the lines of the text of
    the code element, each behind four spaces. *)
Theorem indentedCodeBlock_indents_every_line (node : ExtendedNode) (child : Node) :
  firstChild (self (located node)) = Some child ->
  exists body,
    indentedCodeBlockReplacement node = asBlock body /\
    splitOnNewline body
    = map (app (lit "    ")) (splitOnNewline (textContent child)).
Proof.
  intros Hchild. unfold indentedCodeBlockReplacement. rewrite Hchild.
  exists (lit "    " ++ replaceChar LF ([LF] ++ lit "    ") (textContent child)).
  split; [unfold asBlock; now rewrite <- !app_assoc|].
  unfold splitOnNewline at 1.
  rewrite splitWhere_app_plain by (repeat constructor).
  change (splitWhere (fun c => isChar c LF)
            (replaceChar LF ([LF] ++ lit "    ") (textContent child)))
    with (splitOnNewline (replaceChar LF (LF :: lit "    ") (textContent child))).
  rewrite splitOnNewline_indent by (repeat constructor).
  destruct (splitWhere_not_nil (fun c => isChar c LF) (textContent child))
    as (l & ls & E).
  unfold splitOnNewline. rewrite E. reflexivity.
Qed.

Lemma indentedCodeBlock_indents_every_line_witness :
  exists body,
    indentedCodeBlockReplacement (Sample.child Sample.options [] Sample.fencedPre [])
    = asBlock body /\
    splitOnNewline body
    = map (app (lit "    "))
          (splitOnNewline (lit "```" ++ [LF] ++ lit "Code" ++ [LF] ++ lit "```" ++ [LF])).
Proof.
  exact (indentedCodeBlock_indents_every_line
           (Sample.child Sample.options [] Sample.fencedPre [])
           (Element (lit "CODE") []
              [Text (lit "```" ++ [LF] ++ lit "Code" ++ [LF] ++ lit "```" ++ [LF])])
           eq_refl).
Defined.

(** ** utilities.ts: the texts of links *)

Lemma collapseTabCrLfFrom_clean (s : jsstring) :
  forall inMatch,
    Forall (fun c => isTabCrLf c = false) (collapseTabCrLfFrom inMatch s).
Proof.
  induction s as [|c s IH]; intros inMatch; cbn [collapseTabCrLfFrom];
    [constructor|].
  destruct (isTabCrLf c) eqn:E.
  - destruct inMatch; cbn [app]; [apply IH|].
    constructor; [reflexivity | apply IH].
  - constructor; [exact E | apply IH].
Qed.

Lemma collapseSpacesFrom_Forall (P : char -> Prop) (s : jsstring) :
  Forall P s -> forall inRun, Forall P (collapseSpacesFrom inRun s).
Proof.
  induction 1 as [|c s Hc _ IH]; intros inRun; cbn [collapseSpacesFrom];
    [constructor|].
  destruct (isChar c SPACE) eqn:E.
  - destruct inRun; cbn [app]; [apply IH|].
    apply N.eqb_eq in E. subst c. constructor; [exact Hc | apply IH].
  - constructor; [exact Hc | apply IH].
Qed.

Lemma dropWhile_Forall (P : char -> Prop) (p : char -> bool) (s : jsstring) :
  Forall P s -> Forall P (dropWhile p s).
Proof.
  induction 1 as [|c s Hc Hs IH]; cbn [dropWhile]; [constructor|].
  destruct (p c); [exact IH | now constructor].
Qed.

Lemma trim_Forall (P : char -> Prop) (s : jsstring) :
  Forall P s -> Forall P (trim s).
Proof.
  intros H. unfold trim, dropWhileEnd.
  apply List.Forall_rev, dropWhile_Forall, List.Forall_rev.
  now apply dropWhile_Forall.
Qed.

Lemma trim_inside (s : jsstring) :
  exists a b, s = a ++ trim s ++ b.
Proof.
  exists (takeWhile isWhiteSpace s),
         (rev (takeWhile isWhiteSpace (rev (dropWhile isWhiteSpace s)))).
  unfold trim. rewrite <- dropWhileEnd_split. now rewrite takeWhile_dropWhile.
Qed.

Lemma collapseSpacesFrom_head (s : jsstring) :
  head (collapseSpacesFrom true s) <> Some SPACE.
Proof.
  induction s as [|c s IH]; cbn [collapseSpacesFrom]; [discriminate|].
  destruct (isChar c SPACE) eqn:E; [exact IH|].
  cbn. intros [= ->]. discriminate E.
Qed.

Lemma collapseSpacesFrom_single (s : jsstring) :
  forall inRun u v, collapseSpacesFrom inRun s <> u ++ [SPACE; SPACE] ++ v.
Proof.
  induction s as [|c s IH]; intros inRun u v; cbn [collapseSpacesFrom].
  - destruct u; discriminate.
  - destruct (isChar c SPACE) eqn:E.
    + destruct inRun; cbn [app]; [apply IH|].
      destruct u as [|x u]; cbn [app].
      * intros [= H]. apply (collapseSpacesFrom_head s). now rewrite H.
      * intros [= _ H]. now apply (IH true u v).
    + destruct u as [|x u]; cbn [app].
      * intros [= -> _]. discriminate E.
      * intros [= _ H]. now apply (IH false u v).
Qed.

(** X18.  The text of a link has no tab, carriage return or newline, no two
    spaces in a row and no white space at its ends; the title of a link or
    image has no tab, carriage return or newline. *)
Theorem link_texts_on_one_line (content : jsstring) :
  Forall (fun c => isTabCrLf c = false) (sanitizedLinkContent content) /\
  (forall u v, sanitizedLinkContent content <> u ++ [SPACE; SPACE] ++ v) /\
  (forall c, head (sanitizedLinkContent content) = Some c ->
             isWhiteSpace c = false) /\
  (forall c, last (sanitizedLinkContent content) = Some c ->
             isWhiteSpace c = false) /\
  Forall (fun c => isTabCrLf c = false) (sanitizedLinkTitle content).
Proof.
  unfold sanitizedLinkContent, sanitizedLinkTitle, collapseSpaces,
    collapseTabCrLf.
  split; [|split; [|split; [|split]]].
  - apply trim_Forall, collapseSpacesFrom_Forall, collapseTabCrLfFrom_clean.
  - intros u v H.
    destruct (trim_inside
                (collapseSpacesFrom false
                   (collapseTabCrLfFrom false (sanitizeWhitespace content))))
      as (a & b & Hab).
    rewrite H in Hab.
    apply (collapseSpacesFrom_single
             (collapseTabCrLfFrom false (sanitizeWhitespace content))
             false (a ++ u) (v ++ b)).
    rewrite Hab. now rewrite <- !app_assoc.
  - intros c Hc. unfold trim in Hc. apply dropWhileEnd_head in Hc.
    now apply dropWhile_head in Hc.
  - intros c Hc. unfold trim in Hc. now apply dropWhileEnd_last in Hc.
  - apply collapseTabCrLfFrom_clean.
Qed.

(** ** default-rules.ts: the address of an inline link *)

Lemma readFrom_escapeParentheses (h : jsstring) :
  ~ In BACKSLASH h ->
  readFrom false (escapeParentheses h)
  = map (fun c => (isChar c (ch "(") || isChar c (ch ")"), c)) h.
Proof.
  induction h as [|c h IH]; intros Hno; [reflexivity|].
  assert (Hc : isChar c BACKSLASH = false).
  { unfold isChar. apply N.eqb_neq. intros ->. apply Hno. now left. }
  assert (IH' := IH (fun Hin => Hno (or_intror Hin))).
  cbn [escapeParentheses map].
  destruct (isChar c (ch "(") || isChar c (ch ")")) eqn:E.
  - cbn [app readFrom]. change (isChar BACKSLASH BACKSLASH) with true.
    cbn match.
    assert (isAsciiPunctuation c = true) as ->.
    { apply orb_true_iff in E as [E | E]; apply N.eqb_eq in E; now subst c. }
    now rewrite IH'.
  - cbn [app readFrom]. now rewrite Hc, IH'.
Qed.

(** X19.  The address of an inline link that has no title and no backslash in its
    address: the link is the text between square brackets and the address
    between parentheses, and in the address exactly the parentheses are
    escaped, so that it reads back as the address of the element. *)
Theorem inline_link_address (content : jsstring) (node : ExtendedNode)
    (href : jsstring) :
  hrefOf node = Some href -> titleOf node = None ->
  ~ In BACKSLASH href ->
  exists address,
    inlineLinkReplacement content node
    = lit "[" ++ sanitizedLinkContent content ++ lit "](" ++ address ++ lit ")" /\
    readFrom false address
    = map (fun c => (isChar c (ch "(") || isChar c (ch ")"), c)) href /\
    unescape address = href.
Proof.
  unfold hrefOf, titleOf. intros Hhref Htitle Hno.
  exists (escapeParentheses href). split; [|split].
  - unfold inlineLinkReplacement. rewrite Hhref, Htitle. reflexivity.
  - now apply readFrom_escapeParentheses.
  - unfold unescape. rewrite readFrom_escapeParentheses by exact Hno.
    rewrite map_map. cbn [snd]. apply map_id.
Qed.

Lemma inline_link_address_witness :
  exists address,
    inlineLinkReplacement (lit "An anchor")
      (Sample.child Sample.options []
         (Sample.anchor "http://example.com?(query)" "An anchor") [])
    = lit "[" ++ sanitizedLinkContent (lit "An anchor") ++ lit "](" ++ address
      ++ lit ")" /\
    readFrom false address
    = map (fun c => (isChar c (ch "(") || isChar c (ch ")"), c))
          (lit "http://example.com?(query)") /\
    unescape address = lit "http://example.com?(query)".
Proof.
  apply (inline_link_address (lit "An anchor")
           (Sample.child Sample.options []
              (Sample.anchor "http://example.com?(query)" "An anchor") [])
           (lit "http://example.com?(query)")).
  - reflexivity.
  - reflexivity.
  - vm_compute. intros H.
    repeat (destruct H as [H | H]; [discriminate H|]). exact H.
Defined.

(** ** default-rules.ts: headings *)

Lemma toLowerCase_two (name : jsstring) (a d : char) :
  toLowerCase name = [a; d] -> isDigit d = true -> name !! 1 = Some d.
Proof.
  unfold toLowerCase. destruct name as [|x [|y [|w name]]]; try discriminate.
  cbn [map]. intros [= _ Hy] Hd. cbn. f_equal.
  unfold isDigit in Hd. apply andb_true_iff in Hd as [H1 H2].
  apply N.leb_le in H1, H2.
  destruct ((65 <=? y)%N && (y <=? 90)%N) eqn:E; [|exact Hy].
  apply andb_true_iff in E as [E1 E2]. apply N.leb_le in E1, E2. lia.
Qed.

(** X20.  For every element that the filter of the heading rule takes, the
    replacement returns: the level, from 1 to 6, is the digit of the name;
    the ATX form has as many number signs as the level, and the Setext form,
    for the levels 1 and 2, an underline as long as the content. *)
Theorem heading_levels (content : jsstring) (node : ExtendedNode)
    (options : Options) :
  includes (toLowerCase (nodeName (self (located node))))
           [lit "h1"; lit "h2"; lit "h3"; lit "h4"; lit "h5"; lit "h6"] = true ->
  exists level,
    1 <= level <= 6 /\
    toLowerCase (nodeName (self (located node))) = lit "h" ++ ofNat level /\
    headingReplacement content node options
    = Some (asBlock
              (match headingStyle options with
               | setext =>
                   if level <? 3 then
                     content ++ [LF] ++
                     replicate (length content)
                               (if level =? 1 then ch "=" else ch "-")
                   else replicate level (ch "#") ++ lit " " ++ content
               | atx => replicate level (ch "#") ++ lit " " ++ content
               end)).
Proof.
  intros Hfilter. apply includes_In in Hfilter.
  assert (Hlevel : exists level,
             1 <= level <= 6 /\
             toLowerCase (nodeName (self (located node))) = lit "h" ++ ofNat level /\
             nodeName (self (located node)) !! 1
             = Some (N.of_nat (48 + level))).
  { cbn [In] in Hfilter.
    destruct Hfilter as [H | [H | [H | [H | [H | [H | []]]]]]];
      symmetry in H;
      [exists 1 | exists 2 | exists 3 | exists 4 | exists 5 | exists 6];
      (split; [lia|]); (split; [exact H|]);
      apply (toLowerCase_two _ _ _ H); reflexivity. }
  destruct Hlevel as (level & Hrange & Hname & Hdigit).
  exists level. split; [exact Hrange | split; [exact Hname|]].
  unfold headingReplacement, hLevelOf. rewrite Hdigit.
  assert (isDigit (N.of_nat (48 + level)) = true) as ->.
  { unfold isDigit. apply andb_true_iff. split; apply N.leb_le; lia. }
  replace (N.to_nat (N.of_nat (48 + level) - 48)) with level by lia.
  unfold asBlock, repeatChar.
  destruct (headingStyle options); [|now rewrite <- !app_assoc].
  destruct (level <? 3); now rewrite <- !app_assoc.
Qed.

Lemma heading_levels_witness :
  exists level,
    1 <= level <= 6 /\
    toLowerCase (lit "H2") = lit "h" ++ ofNat level /\
    headingReplacement (lit "Title")
      (Sample.child Sample.options [] (Checks.element "H2" [Text (lit "Title")]) [])
      Sample.options
    = Some (asBlock
              (match headingStyle Sample.options with
               | setext =>
                   if level <? 3 then
                     lit "Title" ++ [LF] ++
                     replicate (length (lit "Title"))
                               (if level =? 1 then ch "=" else ch "-")
                   else replicate level (ch "#") ++ lit " " ++ lit "Title"
               | atx => replicate level (ch "#") ++ lit " " ++ lit "Title"
               end)).
Proof.
  apply (heading_levels (lit "Title")
           (Sample.child Sample.options []
              (Checks.element "H2" [Text (lit "Title")]) [])
           Sample.options).
  reflexivity.
Defined.

(** ** rules.ts: the tags of a filter are lower case *)

Lemma toLowerCase_no_upper (s : jsstring) : hasUpperCase (toLowerCase s) = false.
Proof.
  unfold hasUpperCase, toLowerCase.
  induction s as [|c s IH]; [reflexivity|]. cbn [map existsb].
  rewrite IH, orb_false_r.
  destruct ((65 <=? c)%N && (c <=? 90)%N) eqn:E.
  - apply andb_true_iff in E as [E1 E2]. apply N.leb_le in E1, E2.
    apply andb_false_iff. right. apply N.leb_gt. lia.
  - exact E.
Qed.

Lemma includes_lower_case (name : jsstring) (tags : list jsstring) :
  includes (toLowerCase name) tags
  = includes (toLowerCase name)
             (List.filter (fun tag => negb (hasUpperCase tag)) tags).
Proof.
  unfold includes. induction tags as [|tag tags IH]; [reflexivity|].
  cbn [existsb List.filter]. destruct (hasUpperCase tag) eqn:E; cbn [negb].
  - rewrite <- IH. unfold JS.eqb at 1.
    rewrite bool_decide_eq_false_2; [reflexivity|].
    intros Heq. rewrite <- Heq, toLowerCase_no_upper in E. discriminate.
  - cbn [existsb]. now rewrite IH.
Qed.



(** ** index.ts: text in and outside code *)

Lemma reduceNodes_texts (rules : Rules) (name : jsstring)
    (attrs : list (jsstring * jsstring)) (up : list Frame) (parentIsCode : bool)
    (values : list jsstring) :
  forall earlier output st,
    Forall (fun n => isElement n = false) earlier ->
    reduceNodes
      (fun output earlier n later =>
         let here :=
           {| self := n;
              ancestors := {| parentName := name; parentAttributes := attrs;
                              before := earlier; after := later |} :: up |} in
         let extended := extend here parentIsCode (options rules) in
         do replacement <-
           match n with
           | Text _ => ret (textReplacement extended)
           | Element _ _ _ =>
               replacementForNode rules
                 (process rules n (ancestors here) (isCode extended))
                 extended
           | Comment _ => ret []
           end;
         ret (join output replacement))
      earlier (map Text values) output st
    = (Normal (fold_left join
                 (map (fun v => if parentIsCode then v else escape v) values)
                 output), st).
Proof.
  induction values as [|v values IH]; intros earlier output st Hearlier;
    [reflexivity|].
  cbn [map reduceNodes fold_left].
  unfold bind at 1. unfold bind at 1. unfold ret at 1 2.
  assert (Htext : textReplacement
                    (extend {| self := Text v;
                               ancestors :=
                                 {| parentName := name; parentAttributes := attrs;
                                    before := earlier;
                                    after := map Text values |} :: up |}
                            parentIsCode (options rules))
                  = if parentIsCode then v else escape v).
  { unfold textReplacement. cbn [extend located self isCode nodeName nodeValue].
    cbn [default from_option]. unfold id.
    unfold previousSibling. cbn [ancestors self].
    destruct earlier as [|p earlier']; [reflexivity|].
    inversion Hearlier as [|? ? Hp _]; subst. cbn [self]. rewrite Hp.
    reflexivity. }
  cbv zeta. rewrite Htext.
  apply IH. constructor; [reflexivity | exact Hearlier].
Qed.

(** X22.  The text children of an element are joined one after the other, as they
    are inside code and escaped elsewhere; no rule is asked and the
    accumulator stays as it is. *)
Theorem process_texts (rules : Rules) (name : jsstring)
    (attrs : list (jsstring * jsstring)) (values : list jsstring)
    (up : list Frame) (parentIsCode : bool) (st : ReferenceState) :
  process rules (Element name attrs (map Text values)) up parentIsCode st
  = (Normal (fold_left join
               (map (fun v => if parentIsCode then v else escape v) values) []),
     st).
Proof.
  cbn [process]. now apply reduceNodes_texts.
Qed.

(** ** default-rules.ts: list items *)

(** X23.  In an ordered list whose [start] is missing, empty or a string of
    one to fifteen decimal digits, the number of an item is the start of the
    list, 1 when it is missing or empty, plus the number of elements before
    the item in the list; text and comments before it do not count.  Other
    values of [start] are outside the statement. *)
Theorem ordered_items_count_from_start (options : Options)
    (attrs : list (jsstring * jsstring)) (pre post : list Node) (item : Node)
    (up : list Frame) (code : bool) :
  let here :=
    {| self := item;
       ancestors := {| parentName := lit "OL"; parentAttributes := attrs;
                       before := rev pre; after := post |} :: up |} in
  let position := length (List.filter isElement pre) in
  let spaces := replicate (listMarkerSpaceCount options) SPACE in
  (isTruthy (getAttribute (lit "start") attrs) = false ->
   listItemPrefix (extend here code options) options
   = Some (ofNat (position + 1) ++ lit "." ++ spaces)) /\
  (forall start first,
      getAttribute (lit "start") attrs = Some start -> start <> [] ->
      decimalValue start = Some first ->
      listItemPrefix (extend here code options) options
      = Some (ofNat (first + position) ++ lit "." ++ spaces)).
Proof.
  cbv zeta.
  assert (Hindex : forall o,
             elementIndex
               (located
                  (extend {| self := item;
                             ancestors :=
                               {| parentName := lit "OL"; parentAttributes := attrs;
                                  before := rev pre; after := post |} :: up |}
                          code o))
             = length (List.filter isElement pre)).
  { intros o. unfold elementIndex, siblingsBefore.
    cbn [extend located ancestors before].
    rewrite <- (length_rev (List.filter isElement pre)).
    f_equal. clear. induction pre as [|x pre IH]; [reflexivity|].
    cbn [rev List.filter]. rewrite List.filter_app, IH. cbn [List.filter].
    destruct (isElement x); cbn [rev]; [reflexivity | now rewrite app_nil_r]. }
  split.
  - intros Hstart. unfold listItemPrefix. rewrite Hindex.
    cbn [extend located parentNodeName parentNode ancestors head fmap option_fmap
         option_map parentName self attributes parentAttributes].
    rewrite bool_decide_eq_true_2 by reflexivity.
    now rewrite Hstart.
  - intros start first Hstart Hne Hvalue. unfold listItemPrefix. rewrite Hindex.
    cbn [extend located parentNodeName parentNode ancestors head fmap option_fmap
         option_map parentName self attributes parentAttributes].
    rewrite bool_decide_eq_true_2 by reflexivity.
    rewrite Hstart. cbn [default from_option]. unfold id.
    destruct start; [contradiction|]. cbn [isTruthy].
    now rewrite Hvalue.
Qed.

Lemma nestingLevelOf_nested (lists : list jsstring) (outer : list jsstring) :
  Forall (fun l => isListName l = true) lists ->
  nestingLevelOf (flat_map (fun l => [l; lit "LI"]) lists ++ outer)
  = length lists + nestingLevelOf outer.
Proof.
  induction 1 as [|l lists Hl _ IH]; [reflexivity|].
  cbn [flat_map app nestingLevelOf length]. rewrite Hl, IH.
  change (JS.eqb (lit "LI") (lit "LI")) with true.
  change (isListName (lit "LI")) with false. cbn [andb]. lia.
Qed.

(** X24.  An item is indented by one unit for every list around its own list
    that lies in a list item: below [lists] nested in items, inside a list
    that is in no item, the replacement starts with as many units as there
    are [lists], followed by the marker. *)
Theorem list_item_indented_by_depth (content : jsstring) (node : ExtendedNode)
    (options : Options) (lists outer : list jsstring) (prefix : jsstring) :
  map parentName (ancestors (located node))
  = flat_map (fun l => [l; lit "LI"]) lists ++ outer ->
  Forall (fun l => isListName l = true) lists ->
  nestingLevelOf outer = 0 ->
  hasOnlyNestedList (self (located node)) = false ->
  listItemPrefix node options = Some prefix ->
  exists body,
    listItemReplacement content node options
    = Some (repeatString (oneIndentOf options) (length lists) ++ prefix ++ body).
Proof.
  intros Hnames Hlists Houter Hnested Hprefix.
  unfold listItemReplacement. rewrite Hprefix, Hnested. cbn [andb].
  rewrite Hnames, (nestingLevelOf_nested lists outer Hlists), Houter.
  rewrite Nat.add_0_r. eexists. reflexivity.
Qed.

Lemma list_item_indented_by_depth_witness :
  exists body,
    listItemReplacement (lit "Nested item") More.nestedItem Sample.options
    = Some (repeatString (oneIndentOf Sample.options) 1 ++ lit "- " ++ body).
Proof.
  apply (list_item_indented_by_depth (lit "Nested item") More.nestedItem
           Sample.options [lit "UL"] [lit "UL"; lit "X-TURNISH"] (lit "- "));
    try reflexivity.
  repeat constructor.
Defined.

(** ** default-rules.ts: the language of a fenced code block *)

Lemma takeWhile_not_Forall (p : char -> bool) (s : jsstring) :
  Forall (fun c => p c = false) (takeWhile (fun c => negb (p c)) s).
Proof.
  induction s as [|c s IH]; cbn [takeWhile]; [constructor|].
  destruct (p c) eqn:E; cbn [negb]; constructor; assumption.
Qed.

Lemma takeWhile_all (p : char -> bool) (s : jsstring) :
  Forall (fun c => p c = true) s -> takeWhile p s = s.
Proof.
  induction 1 as [|c s Hc _ IH]; cbn [takeWhile]; [reflexivity|].
  now rewrite Hc, IH.
Qed.

(** X25.  The language written behind the opening fence has no white space in
    it; for a class that is [language-] followed by a word it is the word. *)
Theorem fence_language_is_one_word (className word : jsstring) :
  Forall (fun c => isWhiteSpace c = false) (languageOf className) /\
  (word <> [] -> Forall (fun c => isWhiteSpace c = false) word ->
   languageOf (lit "language-" ++ word) = word /\
   languageOf (lit "lang-" ++ word) = word).
Proof.
  split.
  - induction className as [|c rest IH]; [constructor|].
    cbn [languageOf].
    repeat match goal with
           | |- context [if ?b then _ else _] => destruct b
           end;
      try apply IH; try constructor; apply takeWhile_not_Forall.
  - intros Hne Hword.
    assert (Htake : takeWhile (fun c => negb (isWhiteSpace c)) word = word).
    { apply takeWhile_all. eapply List.Forall_impl; [|exact Hword].
      intros c Hc. now rewrite Hc. }
    split.
    + change (lit "language-" ++ word)
        with (108%N :: (lit "anguage-" ++ word)).
      cbn [languageOf].
      change (108%N :: (lit "anguage-" ++ word)) with (lit "language-" ++ word).
      assert (startsWith (lit "lang-") (lit "language-" ++ word) = false) as ->
          by reflexivity.
      cbn [nonEmpty].
      assert (startsWith (lit "language-") (lit "language-" ++ word) = true) as ->.
      { unfold startsWith. apply bool_decide_eq_true_2.
        now rewrite take_app_length. }
      rewrite drop_app_length, Htake.
      destruct word; [contradiction | reflexivity].
    + change (lit "lang-" ++ word) with (108%N :: (lit "ang-" ++ word)).
      cbn [languageOf].
      change (108%N :: (lit "ang-" ++ word)) with (lit "lang-" ++ word).
      assert (startsWith (lit "lang-") (lit "lang-" ++ word) = true) as ->.
      { unfold startsWith. apply bool_decide_eq_true_2.
        now rewrite take_app_length. }
      rewrite drop_app_length, Htake.
      destruct word; [contradiction | reflexivity].
Qed.

Lemma fence_language_is_one_word_witness :
  languageOf (lit "language-js") = lit "js".
Proof.
  apply (proj2 (fence_language_is_one_word [] (lit "js")));
    [discriminate | repeat constructor].
Defined.

(** ** node.ts: the white space around an inline element *)

Lemma edgeTrailing_split (s : jsstring) :
  edgeTrailing (edgeWhitespace s)
  = trailingNonAscii (edgeWhitespace s) ++ trailingAscii (edgeWhitespace s).
Proof.
  unfold edgeWhitespace.
  cbn [edgeTrailing trailingNonAscii trailingAscii].
  rewrite take_dropWhileEnd. apply dropWhileEnd_split.
Qed.

Lemma takeWhile_nil_head (p : char -> bool) (s : jsstring) (c : char) :
  takeWhile p s = [] -> head s = Some c -> p c = false.
Proof.
  destruct s as [|d s]; [discriminate|]. cbn [takeWhile head].
  destruct (p d) eqn:E; [discriminate|]. now intros _ [= <-].
Qed.

Lemma takeWhile_rev_nil_last (p : char -> bool) (s : jsstring) (c : char) :
  rev (takeWhile p (rev s)) = [] -> last s = Some c -> p c = false.
Proof.
  intros H Hlast. apply (dropWhileEnd_last p s).
  rewrite (dropWhileEnd_split p s) in Hlast. rewrite H, app_nil_r in Hlast.
  exact Hlast.
Qed.

(** X26.  The white space kept around an element.  A block element, and code when
    code is preformatted, keeps none.  Any other element keeps the white space
    at the edges of its text without what is dropped at the outer end of each
    side: nothing where the neighbour on that side brings no space, and all
    the ASCII white space there where the neighbour brings one, so that what
    is kept then starts (on the left) or ends (on the right) with no ASCII
    white space. *)
Theorem flanking_whitespace_of_text (n : Located) (block code preformatted : bool) :
  let kept := computeFlankingWhitespace n block code preformatted in
  let edges := edgeWhitespace (textContent (self n)) in
  (block || preformatted && code = true ->
   leading kept = [] /\ trailing kept = []) /\
  (block || preformatted && code = false ->
   (exists dropped,
       edgeLeading edges = dropped ++ leading kept /\
       Forall (fun c => isAsciiWhiteSpace c = true) dropped /\
       (isFlankedByWhitespace onLeft n preformatted = false -> dropped = []) /\
       (isFlankedByWhitespace onLeft n preformatted = true ->
        forall c, head (leading kept) = Some c -> isAsciiWhiteSpace c = false)) /\
   (exists dropped,
       edgeTrailing edges = trailing kept ++ dropped /\
       Forall (fun c => isAsciiWhiteSpace c = true) dropped /\
       (isFlankedByWhitespace onRight n preformatted = false -> dropped = []) /\
       (isFlankedByWhitespace onRight n preformatted = true ->
        forall c, last (trailing kept) = Some c -> isAsciiWhiteSpace c = false))).
Proof.
  cbv zeta. unfold computeFlankingWhitespace. split.
  - intros ->. split; reflexivity.
  - intros ->. cbv zeta. cbn [leading trailing]. split.
    + destruct (nonEmpty (leadingAscii _)) eqn:Hne;
        destruct (isFlankedByWhitespace onLeft n preformatted) eqn:E;
        cbn [andb].
      * exists (leadingAscii (edgeWhitespace (textContent (self n)))).
        unfold edgeWhitespace.
        cbn [edgeLeading leadingAscii leadingNonAscii].
        split; [now rewrite takeWhile_dropWhile|].
        split; [apply takeWhile_Forall|].
        split; [discriminate|]. intros _ c. apply dropWhile_head.
      * exists []. split; [reflexivity|]. split; [constructor|].
        split; [reflexivity | discriminate].
      * exists []. split; [reflexivity|]. split; [constructor|].
        split; [reflexivity|]. intros _ c.
        unfold edgeWhitespace in Hne |- *. cbn [leadingAscii edgeLeading] in *.
        apply takeWhile_nil_head.
        now destruct (takeWhile isAsciiWhiteSpace _).
      * exists []. split; [reflexivity|]. split; [constructor|].
        split; [reflexivity | discriminate].
    + destruct (nonEmpty (trailingAscii _)) eqn:Hne;
        destruct (isFlankedByWhitespace onRight n preformatted) eqn:E;
        cbn [andb].
      * exists (trailingAscii (edgeWhitespace (textContent (self n)))).
        split; [apply edgeTrailing_split|].
        unfold edgeWhitespace. cbn [trailingAscii trailingNonAscii].
        split; [apply List.Forall_rev, takeWhile_Forall|].
        split; [discriminate|]. intros _ c.
        rewrite take_dropWhileEnd. apply dropWhileEnd_last.
      * exists []. rewrite app_nil_r. split; [reflexivity|].
        split; [constructor|]. split; [reflexivity | discriminate].
      * exists []. rewrite app_nil_r. split; [reflexivity|].
        split; [constructor|]. split; [reflexivity|]. intros _ c.
        unfold edgeWhitespace in Hne |- *. cbn [trailingAscii edgeTrailing] in *.
        apply takeWhile_rev_nil_last.
        now destruct (rev (takeWhile isAsciiWhiteSpace _)).
      * exists []. rewrite app_nil_r. split; [reflexivity|].
        split; [constructor|]. split; [reflexivity | discriminate].
Qed.

(** ** default-rules.ts: inline code stays on one line *)

Lemma newlinesToSpaces_one_line (n : nat) :
  forall s, length s <= n ->
    Forall (fun c => isChar c CR = false /\ isChar c LF = false)
           (newlinesToSpaces s).
Proof.
  induction n as [|n IH]; intros s Hlen.
  - destruct s; [constructor | cbn in Hlen; lia].
  - destruct s as [|c s]; [constructor|]. cbn [length] in Hlen.
    cbn [newlinesToSpaces].
    destruct (isChar c CR) eqn:Ecr.
    + destruct s as [|d s]; [repeat constructor|].
      destruct (isChar d LF).
      * constructor; [split; reflexivity|]. apply IH. cbn [length] in Hlen. lia.
      * constructor; [split; reflexivity|]. apply IH. lia.
    + destruct (isChar c LF) eqn:Elf.
      * constructor; [split; reflexivity|]. apply IH. lia.
      * constructor; [split; assumption|]. apply IH. lia.
Qed.

Lemma growDelimiter_backticks (matches : list jsstring) (fuel : nat) :
  forall delimiter,
    Forall (fun c => c = BACKTICK) delimiter ->
    Forall (fun c => c = BACKTICK) (growDelimiter fuel matches delimiter).
Proof.
  induction fuel as [|fuel IH]; intros delimiter H; cbn [growDelimiter];
    [exact H|].
  destruct (includes delimiter matches); [|exact H].
  apply IH. apply Forall_app. split; [exact H | repeat constructor].
Qed.

Lemma growDelimiter_not_empty (matches : list jsstring) (fuel : nat) :
  forall delimiter,
    delimiter <> [] -> growDelimiter fuel matches delimiter <> [].
Proof.
  induction fuel as [|fuel IH]; intros delimiter H; cbn [growDelimiter];
    [exact H|].
  destruct (includes delimiter matches); [|exact H].
  apply IH. destruct delimiter; discriminate.
Qed.

(** X27.  The replacement of inline code has no carriage return and no newline,
    whatever the content is: it is the content with its line breaks turned
    into spaces, between delimiters of backticks and at most one space on
    each side. *)
Theorem inline_code_on_one_line (content : jsstring) :
  Forall (fun c => isChar c CR = false /\ isChar c LF = false)
         (codeReplacement content) /\
  exists delimiter pad,
    codeReplacement content
    = delimiter ++ pad ++ newlinesToSpaces content ++ pad ++ delimiter /\
    Forall (fun c => c = BACKTICK) delimiter /\ delimiter <> [] /\
    (pad = [] \/ pad = [SPACE]).
Proof.
  assert (Hd : Forall (fun c => c = BACKTICK)
                      (codeDelimiter (newlinesToSpaces content))).
  { unfold codeDelimiter. apply growDelimiter_backticks. repeat constructor. }
  assert (Hne : codeDelimiter (newlinesToSpaces content) <> []).
  { unfold codeDelimiter. apply growDelimiter_not_empty. discriminate. }
  assert (Hd' : Forall (fun c => isChar c CR = false /\ isChar c LF = false)
                       (codeDelimiter (newlinesToSpaces content))).
  { eapply List.Forall_impl; [|exact Hd]. intros c ->. split; reflexivity. }
  assert (Hpad : forall b : bool,
             Forall (fun c => isChar c CR = false /\ isChar c LF = false)
                    (if b then [SPACE] else [])).
  { intros [|]; repeat constructor. }
  split.
  - unfold codeReplacement. cbv zeta.
    repeat (apply Forall_app; split); try exact Hd'; try apply Hpad.
    apply (newlinesToSpaces_one_line (length content)). lia.
  - exists (codeDelimiter (newlinesToSpaces content)),
           (if needsExtraSpace (newlinesToSpaces content) then [SPACE] else []).
    split; [reflexivity|]. split; [exact Hd|]. split; [exact Hne|].
    destruct (needsExtraSpace _); auto.
Qed.

(** ** C4: reference links in a document of text and links *)

Lemma texts_of_text_nodes (kids : list Node) :
  forallb isTextNode kids = true -> kids = map Text (textsOf kids).
Proof.
  induction kids as [|k kids IH]; [reflexivity|].
  cbn [forallb]. intros H. apply andb_true_iff in H as [Hk Hkids].
  destruct k as [v|v|name attrs sub]; try discriminate.
  cbn [textsOf omap map]. cbn. f_equal. now apply IH.
Qed.

Lemma flanking_is_white_space (n : Located) (block code preformatted : bool) :
  Forall (fun c => isWhiteSpace c = true)
         (leading (computeFlankingWhitespace n block code preformatted)) /\
  Forall (fun c => isWhiteSpace c = true)
         (trailing (computeFlankingWhitespace n block code preformatted)).
Proof.
  unfold computeFlankingWhitespace.
  destruct (block || preformatted && code); [split; constructor|].
  cbv zeta. cbn [leading trailing]. unfold edgeWhitespace.
  cbn [edgeLeading leadingAscii leadingNonAscii edgeTrailing trailingNonAscii
       trailingAscii].
  split.
  - destruct (_ && _); [apply dropWhile_Forall|]; apply takeWhile_Forall.
  - destruct (_ && _); [apply Forall_take|];
      apply List.Forall_rev, takeWhile_Forall.
Qed.

Lemma appendAll_no_hooks (l : list Rule) (o : Options) (output : jsstring)
    (st : ReferenceState) :
  Forall (fun rule => append rule = None) l ->
  appendAll l o output st = (Normal output, st).
Proof.
  induction 1 as [|rule l Hrule _ IH]; cbn [appendAll]; [reflexivity|].
  now rewrite Hrule.
Qed.

Lemma appendAll_reference_hook (pre post : list Rule) (o : Options)
    (output : jsstring) (st : ReferenceState) :
  Forall (fun rule => append rule = None) (pre ++ post) ->
  references st <> [] ->
  appendAll (pre ++ referenceLink :: post) o output st
  = (Normal (join output ([LF; LF] ++ joinLines (references st) ++ [LF; LF])),
     emptyReferences).
Proof.
  intros Hhooks Hrefs. apply Forall_app in Hhooks as [Hpre Hpost].
  induction Hpre as [|rule pre Hrule _ IH]; cbn [app appendAll].
  - cbn [append referenceLink]. unfold bind, referenceLinkAppend.
    destruct (references st) as [|x refs] eqn:E; [contradiction|].
    now apply appendAll_no_hooks.
  - now rewrite Hrule.
Qed.

Section LinksDocument.

Variable r : Rules.
Hypothesis style_full : linkReferenceStyle (options r) = full.
Hypothesis dedup_full : linkReferenceDeduplication (options r) = dedupFull.
Hypothesis links_resolved :
  forall here code,
    isPlainLink (self here) = true ->
    forNode r (extend here code (options r)) = Normal referenceLink.

(** The replacement of a link that is a child of the root. *)
Lemma link_piece (here : Located) (ks : list jsstring) (st : ReferenceState) :
  isPlainLink (self here) = true ->
  numbered ks st ->
  exists piece st' i,
    replacementForNode r
      (process r (self here) (ancestors here)
               (isCode (extend here false (options r))))
      (extend here false (options r)) st
    = (Normal piece, st') /\
    isMarkerOf (i + 1) (self here) piece /\
    ((ks !! i = Some (targetOf (self here)) /\ st' = st) \/
     ((targetOf (self here) ∉ ks) /\ i = length ks /\
      numbered (ks ++ [targetOf (self here)]) st')).
Proof.
  intros Hlink Hst.
  pose proof (links_resolved here false Hlink) as Hrule.
  destruct here as [n up]. cbn [self] in *.
  destruct n as [v|v|name attrs kids]; try discriminate.
  cbn [isPlainLink] in Hlink.
  apply andb_true_iff in Hlink as [Hlink Htexts].
  apply andb_true_iff in Hlink as [Hname Hhref].
  unfold JS.eqb in Hname. apply bool_decide_eq_true in Hname. subst name.
  assert (exists values, kids = map Text values) as (values & ->)
      by (eexists; now apply texts_of_text_nodes).
  set (n := Element (lit "A") attrs (map Text values)) in *.
  set (here := {| self := n; ancestors := up |}) in *.
  set (node := extend here false (options r)) in *.
  assert (Hcode : isCode node = false) by reflexivity.
  assert (Hkey : referenceKeyOf node = targetOf n) by reflexivity.
  assert (Hlabel : labelOf n = fold_left join (map escape values) []).
  { unfold labelOf. cbn [n childNodes].
    f_equal. f_equal. clear. induction values as [|v values IH];
      [reflexivity|]. cbn [map textsOf omap]. cbn. f_equal. exact IH. }
  assert (Hprocess : process r n up false st = (Normal (labelOf n), st)).
  { rewrite Hlabel.
    apply (reduceNodes_texts r (lit "A") attrs up false values [] [] st).
    constructor. }
  unfold replacementForNode. unfold bind at 1. unfold lift. rewrite Hrule.
  unfold bind at 1. rewrite Hcode.
  change (ancestors here) with up. rewrite Hprocess. cbv zeta.
  set (content :=
         if nonEmpty (leading (flankingWhitespace node))
            || nonEmpty (trailing (flankingWhitespace node))
         then trim (labelOf n) else labelOf n).
  assert (Hcontent : content = labelOf n \/ content = trim (labelOf n)).
  { subst content. destruct (_ || _); auto. }
  destruct (flanking_is_white_space here (isBlockNode n)
              (isCode node) (preformattedCode (options r))) as [Hlead Htrail].
  cbn [replacement referenceLink]. unfold bind, ret.
  destruct (decide (targetOf n ∈ ks)) as [Hin | Hnew].
  - apply list_elem_of_lookup in Hin as (i & Hi).
    rewrite (referenceLink_seen (options r) style_full dedup_full content node
               ks st i Hst); [|now rewrite Hkey].
    eexists _, st, i. split; [reflexivity|]. split; [|left; auto].
    exists (leading (flankingWhitespace node)), content,
           (trailing (flankingWhitespace node)).
    split; [now rewrite <- !app_assoc | auto].
  - destruct (referenceLink_new (options r) style_full dedup_full content node
                ks st Hst) as (st' & E & Hst'); [now rewrite Hkey|].
    rewrite E. rewrite Hkey in Hst'.
    eexists _, st', (length ks). split; [reflexivity|].
    split; [|right; auto].
    exists (leading (flankingWhitespace node)), content,
           (trailing (flankingWhitespace node)).
    split; [now rewrite <- !app_assoc | auto].
Qed.

(** The walk over children that are text nodes and links. *)
Lemma reduceNodes_links (name : jsstring) (attrs : list (jsstring * jsstring))
    (up : list Frame) (kids : list Node) :
  forall earlier output st ks,
    Forall (fun n => isTextNode n || isPlainLink n = true) kids ->
    Forall (fun n => isTextNode n || isPlainLink n = true) earlier ->
    numbered ks st ->
    let keys :=
      ks ++ firstOccurrencesFrom ks
              (map targetOf (List.filter isPlainLink kids)) in
    exists pieces st',
      reduceNodes
        (fun output earlier n later =>
           let here :=
             {| self := n;
                ancestors := {| parentName := name; parentAttributes := attrs;
                                before := earlier; after := later |} :: up |} in
           let extended := extend here false (options r) in
           do replacement <-
             match n with
             | Text _ => ret (textReplacement extended)
             | Element _ _ _ =>
                 replacementForNode r
                   (process r n (ancestors here) (isCode extended))
                   extended
             | Comment _ => ret []
             end;
           ret (join output replacement))
        earlier kids output st
      = (Normal (fold_left join pieces output), st') /\
      numbered keys st' /\
      Forall2 (fun n piece =>
                 match n with
                 | Text v => piece = escape v
                 | _ => exists i, keys !! i = Some (targetOf n) /\
                                  isMarkerOf (i + 1) n piece
                 end)
              kids pieces.
Proof.
  induction kids as [|n kids IH]; intros earlier output st ks Hkids Hearlier Hst;
    cbv zeta.
  - exists [], st. cbn [List.filter map firstOccurrencesFrom reduceNodes fold_left].
    rewrite app_nil_r. split; [reflexivity | split; [exact Hst | constructor]].
  - inversion Hkids as [|? ? Hn Hrest]; subst.
    assert (Hearlier' : Forall (fun n => isTextNode n || isPlainLink n = true)
                               (n :: earlier)) by now constructor.
    cbn [reduceNodes]. unfold bind at 1. unfold bind at 1.
    destruct n as [v|v|tag attrs' sub]; [| discriminate Hn |].
    + (* a text node *)
      assert (Htext :
                textReplacement
                  (extend {| self := Text v;
                             ancestors :=
                               {| parentName := name; parentAttributes := attrs;
                                  before := earlier; after := kids |} :: up |}
                          false (options r))
                = escape v).
      { unfold textReplacement. cbn [extend located self isCode nodeValue].
        cbn [default from_option]. unfold id.
        unfold previousSibling. cbn [ancestors self].
        destruct earlier as [|p earlier']; [reflexivity|].
        inversion Hearlier as [|? ? Hp _]; subst. cbn [self].
        destruct p as [w|w|ptag pattrs psub]; [reflexivity | discriminate Hp|].
        cbn [isTextNode isPlainLink orb] in Hp.
        apply andb_true_iff in Hp as [Hp _].
        apply andb_true_iff in Hp as [Hp _].
        unfold JS.eqb in Hp. apply bool_decide_eq_true in Hp. subst ptag.
        reflexivity. }
      cbv zeta. unfold ret at 1 2. rewrite Htext.
      destruct (IH (Text v :: earlier) (join output (escape v)) st ks
                   Hrest Hearlier' Hst) as (pieces & st' & Hrun & Hnum & Hall).
      exists (escape v :: pieces), st'. cbn [List.filter isPlainLink].
      split; [exact Hrun | split; [exact Hnum|]].
      constructor; [reflexivity | exact Hall].
    + (* a link *)
      cbn [isTextNode orb] in Hn.
      destruct (link_piece
                  {| self := Element tag attrs' sub;
                     ancestors :=
                       {| parentName := name; parentAttributes := attrs;
                          before := earlier; after := kids |} :: up |}
                  ks st Hn Hst) as (piece & st1 & i & Hpiece & Hmarker & Hcase).
      cbn [self ancestors] in Hpiece, Hmarker, Hcase.
      cbv zeta. cbn [self ancestors]. rewrite Hpiece. unfold ret at 1.
      cbn [List.filter]. rewrite Hn. cbn [map firstOccurrencesFrom].
      destruct Hcase as [[Hi ->] | (Hnew & -> & Hst1)].
      * assert (includes (targetOf (Element tag attrs' sub)) ks = true) as ->.
        { apply includes_elem_of. now apply list_elem_of_lookup_2 in Hi. }
        destruct (IH (Element tag attrs' sub :: earlier) (join output piece)
                     st ks Hrest Hearlier' Hst)
          as (pieces & st' & Hrun & Hnum & Hall).
        exists (piece :: pieces), st'.
        split; [exact Hrun | split; [exact Hnum|]].
        constructor; [|exact Hall].
        exists i. split; [now apply lookup_app_l_Some | exact Hmarker].
      * assert (includes (targetOf (Element tag attrs' sub)) ks = false) as ->.
        { apply Bool.not_true_iff_false. intros H.
          apply includes_elem_of in H. contradiction. }
        destruct (IH (Element tag attrs' sub :: earlier) (join output piece)
                     st1 _ Hrest Hearlier' Hst1)
          as (pieces & st' & Hrun & Hnum & Hall).
        cbv zeta in Hnum, Hall. rewrite <- app_assoc in Hnum, Hall.
        cbn [app] in Hnum, Hall.
        exists (piece :: pieces), st'.
        split; [exact Hrun | split; [exact Hnum|]].
        constructor; [|exact Hall].
        exists (length ks). split; [now rewrite list_lookup_middle | exact Hmarker].
Qed.

End LinksDocument.

Lemma findRule_none (rules : list Rule) (node : ExtendedNode) (o : Options) :
  Forall (fun rule => filterValue rule node o = Normal false) rules ->
  findRule rules node o = Normal None.
Proof.
  induction 1 as [|rule rules Hrule _ IH]; cbn [findRule]; [reflexivity|].
  now rewrite Hrule.
Qed.

(** In a table where no rule before the reference-link rule takes the
    links, a link gets the reference-link rule. *)
Lemma plain_links_resolved (r : Rules) (pre post : list Rule) :
  linkStyle (options r) = referenced ->
  htmlRetentionMode (options r) = standard ->
  array r = pre ++ referenceLink :: post ->
  Forall (fun rule =>
            forall here code,
              isPlainLink (self here) = true ->
              filterValue rule (extend here code (options r)) (options r)
              = Normal false) pre ->
  forall here code,
    isPlainLink (self here) = true ->
    forNode r (extend here code (options r)) = Normal referenceLink.
Proof.
  intros Hstyle Hmode Harray Hpre here code Hlink.
  assert (Hfound : findRule (array r) (extend here code (options r)) (options r)
                   = Normal (Some referenceLink)).
  { rewrite Harray, findRule_app.
    rewrite findRule_none.
    2:{ eapply List.Forall_impl; [|exact Hpre]. intros rule H. now apply H. }
    cbn [findRule]. unfold filterValue. cbn [filter referenceLink].
    unfold referenceLinkFilter. rewrite Hstyle.
    destruct here as [n up]. cbn [self] in Hlink.
    destruct n as [v|v|name attrs kids]; try discriminate.
    cbn [isPlainLink] in Hlink.
    apply andb_true_iff in Hlink as [Hlink _].
    apply andb_true_iff in Hlink as [Hname Hhref].
    unfold nodeIs. cbn [extend located self nodeName attributes].
    now rewrite Hname, Hhref. }
  unfold forNode. rewrite Hmode, Hfound.
  destruct here as [n up]. cbn [self] in Hlink.
  destruct n as [v|v|name attrs kids]; try discriminate.
  cbn [isPlainLink] in Hlink.
  apply andb_true_iff in Hlink as [Hlink _].
  apply andb_true_iff in Hlink as [Hname _].
  unfold JS.eqb in Hname. apply bool_decide_eq_true in Hname. subst name.
  reflexivity.
Qed.

Lemma Forall2_impl_In {X Y} (P Q : X -> Y -> Prop) (xs : list X) (ys : list Y) :
  Forall2 P xs ys ->
  (forall x y, In x xs -> P x y -> Q x y) ->
  Forall2 Q xs ys.
Proof.
  induction 1 as [|x y xs ys Hxy _ IH]; intros H; constructor.
  - apply H; [now left | exact Hxy].
  - apply IH. intros x' y' Hin. apply H. now right.
Qed.

Lemma plain_link_name (n : Node) :
  isPlainLink n = true -> nodeName n = lit "A".
Proof.
  destruct n as [v|v|name attrs kids]; try discriminate.
  cbn [isPlainLink nodeName]. intros H.
  apply andb_true_iff in H as [H _]. apply andb_true_iff in H as [H _].
  unfold JS.eqb in H. now apply bool_decide_eq_true in H.
Qed.

(** The default rules that stand before the reference-link rule do not take
    links when the link style is the referenced one. *)
Lemma default_rules_before_links (o : Options) :
  linkStyle o = referenced ->
  Forall (fun rule =>
            forall here code,
              isPlainLink (self here) = true ->
              filterValue rule (extend here code o) o = Normal false)
         [paragraph; lineBreak; blockquote; listRule; indentedCodeBlock;
          fencedCodeBlock; horizontalRule; inlineLink].
Proof.
  intros Hstyle.
  repeat constructor; intros here code Hlink;
    apply plain_link_name in Hlink; unfold filterValue;
    cbn [filter paragraph lineBreak blockquote listRule indentedCodeBlock
         fencedCodeBlock horizontalRule inlineLink];
    unfold indentedCodeBlockFilter, inlineLinkFilter, nodeIs;
    cbn [extend located self]; rewrite ?Hlink, ?Hstyle;
    try reflexivity; now destruct (codeBlockStyle o).
Qed.




